(** * Qt Quick 3D: default-material shader keys and the OpenXR manager

    A shallow embedding of
    - [src/runtimerender/qssgrendershaderkeys_p.h]: the bit-packed
      default-material shader key, its offset assignment, its string
      serialisation, its hash and its equality;
    - the [QOpenXRManager] member functions (their text follows the
      particle randomizer in
      [src/quick3dparticles/qquick3dparticlerandomizer_p.h]):
      reference-space set-up and floor emulation, the event pump and the
      per-frame render path;
    - [QPRand], the particle randomizer of that file.

    Unsigned 32-bit quantities ([quint32]) are integers in [Z] with the
    wrap-around written out; the key's data store is a list of words read
    with [!!] and written with [<[ _ := _ ]>]. *)

From Stdlib Require Import ZArith List String Ascii Lia Bool DecimalString.
From Stdlib Require Import Floats.SpecFloat.
From Stdlib Require DecimalN.
From stdpp Require Import base list.
Import ListNotations.
Local Open Scope Z_scope.

(** ** 32-bit unsigned arithmetic *)

Module U32.

Definition wrap (z : Z) : Z := z mod 2 ^ 32.
Definition shl (a b : Z) : Z := wrap (Z.shiftl a b).
Definition shr (a b : Z) : Z := Z.shiftr a b.
Definition not (a : Z) : Z := wrap (Z.lnot a).

End U32.

(** ** Byte arrays

    [QByteArray] and [QByteArrayView] are Latin-1 strings; only the
    operations the shader keys use are modelled. *)

Module QByteArray.

Local Open Scope string_scope.
Local Open Scope Z_scope.

Definition size (s : string) : Z := Z.of_nat (String.length s).

(** [s[i]]: the character at [i] for [0 <= i < size s]. The array keeps
    a terminating NUL behind its data: it is what a read at [i = size s]
    finds in a build without assertions, and what the model yields for
    every [i] outside the array. With assertions, [operator[]] requires
    [i < size s]. *)
Definition at_ (s : string) (i : Z) : ascii :=
  if i <? 0 then "000"%char
  else match String.get (Z.to_nat i) s with
       | Some c => c
       | None => "000"%char
       end.

(** [indexOf]: position of the first occurrence, or -1. *)
Definition indexOf (s needle : string) : Z :=
  match String.index 0 needle s with
  | Some i => Z.of_nat i
  | None => -1
  end.

(** [mid], [left] and [right] for the non-negative arguments the keys
    pass. *)
Definition mid (s : string) (pos len : Z) : string :=
  if (pos <? 0) || (len <? 0) then ""
  else String.substring (Z.to_nat pos) (Z.to_nat len) s.

Definition left (s : string) (n : Z) : string :=
  if n <? 0 then "" else String.substring 0 (Z.to_nat n) s.

Definition right (s : string) (n : Z) : string :=
  if n <? 0 then ""
  else if size s <=? n then s
  else String.substring (Z.to_nat (size s - n)) (Z.to_nat n) s.

Definition resize (s : string) (n : Z) : string := left s n.

Definition append_char (s : string) (c : ascii) : string :=
  String.append s (String c EmptyString).

(** [split(sep)]: empty fields are kept; an array without separator is
    returned as a single field. *)
Fixpoint split (sep : ascii) (s : string) : list string :=
  match s with
  | EmptyString => [EmptyString]
  | String c r =>
      if Ascii.eqb c sep then EmptyString :: split sep r
      else match split sep r with
           | h :: t => String c h :: t
           | [] => [String c EmptyString]
           end
  end.

(** [QChar(QLatin1Char(c)).isDigit()] *)
Definition isDigit (c : ascii) : bool :=
  let n := Z.of_nat (nat_of_ascii c) in (48 <=? n) && (n <=? 57).

(** Number of leading characters of [s] that satisfy [f]: the loops
    [while (f(s[i])) i++], as long as they stop within [s]. The loops
    have no bound of their own: where every character of [s] satisfies
    [f] the source goes on to read the terminating NUL (and, if [f]
    accepts it, what lies beyond), while the model stops at the end of
    [s]. *)
Fixpoint span (f : ascii -> bool) (s : string) : Z :=
  match s with
  | EmptyString => 0
  | String c r => if f c then 1 + span f r else 0
  end.

Fixpoint digits_value (acc : Z) (s : string) : Z :=
  match s with
  | EmptyString => acc
  | String c r => digits_value (10 * acc + (Z.of_nat (nat_of_ascii c) - 48)) r
  end.

(** [toInt()] on a string of decimal digits: 0 when the string is empty
    or the value does not fit a 32-bit [int]. *)
Definition toInt (s : string) : Z :=
  match s with
  | EmptyString => 0
  | _ => let v := digits_value 0 s in if v <=? 2147483647 then v else 0
  end.

(** [snprintf(buffer, size, "%u", item)] *)
Definition number (item : Z) : string :=
  NilZero.string_of_uint (N.to_uint (Z.to_N item)).

End QByteArray.

(** ** The shader key properties *)

Module ShaderKeys.

(** [QSSGShaderKeyPropertyBase]: a name and a bit offset into the key. *)
Record QSSGShaderKeyPropertyBase := mkProp {
  name : string;
  offset : Z
}.

Definition getOffset (p : QSSGShaderKeyPropertyBase) : Z := offset p.

Definition setOffset (p : QSSGShaderKeyPropertyBase) (ofs : Z)
  : QSSGShaderKeyPropertyBase :=
  {| name := name p; offset := ofs |}.

(** [getMaskTemplate<TBitWidth>]. *)
Definition getMaskTemplate (TBitWidth : Z) (p : QSSGShaderKeyPropertyBase)
  : Z :=
  let bit := offset p mod 32 in
  let startValue := U32.wrap (Z.shiftl 1 TBitWidth - 1) in
  let mask := U32.shl startValue bit in
  mask.

Definition getIdx (p : QSSGShaderKeyPropertyBase) : Z := offset p / 32.

(** The data store is [QSSGDataRef<quint32>] over the key's word array.
    [inDataStore[idx]] with [idx] outside the array is outside the defined
    behaviour of the source (the accessor asserts); the model reads 0 and
    writes nothing there. *)
Definition load (inDataStore : list Z) (idx : Z) : Z :=
  default 0 (inDataStore !! Z.to_nat idx).

Definition store (inDataStore : list Z) (idx : Z) (v : Z) : list Z :=
  <[Z.to_nat idx := v]> inDataStore.

(** [QSSGShaderKeyBoolean] *)
Module Boolean.

Definition BitWidth : Z := 1.

Definition getMask (p : QSSGShaderKeyPropertyBase) : Z :=
  getMaskTemplate BitWidth p.

Definition setValue (p : QSSGShaderKeyPropertyBase) (inDataStore : list Z)
    (inValue : bool) : list Z :=
  let idx := getIdx p in
  let mask := getMask p in
  let target := load inDataStore idx in
  if inValue then store inDataStore idx (Z.lor target mask)
  else store inDataStore idx (Z.land target (U32.not mask)).

Definition getValue (p : QSSGShaderKeyPropertyBase) (inDataStore : list Z)
  : bool :=
  let idx := getIdx p in
  let mask := getMask p in
  let target := load inDataStore idx in
  negb (Z.land target mask =? 0).

End Boolean.

(** [QSSGShaderKeyUnsigned<TBitWidth>] *)
Module Unsigned.

Definition getMask (TBitWidth : Z) (p : QSSGShaderKeyPropertyBase) : Z :=
  getMaskTemplate TBitWidth p.

Definition setValue (TBitWidth : Z) (p : QSSGShaderKeyPropertyBase)
    (inDataStore : list Z) (inValue : Z) : list Z :=
  let startValue := U32.wrap (Z.shiftl 1 TBitWidth - 1) in
  (* Ensure inValue is within range of bit width. *)
  let inValue := Z.land inValue startValue in
  let bit := offset p mod 32 in
  let mask := getMask TBitWidth p in
  let idx := getIdx p in
  let inValue := U32.shl inValue bit in
  let target := load inDataStore idx in
  (* Get rid of existing value *)
  let inverseMask := U32.not mask in
  let target := Z.land target inverseMask in
  let target := Z.lor target inValue in
  store inDataStore idx target.

Definition getValue (TBitWidth : Z) (p : QSSGShaderKeyPropertyBase)
    (inDataStore : list Z) : Z :=
  let idx := getIdx p in
  let bit := offset p mod 32 in
  let mask := getMask TBitWidth p in
  let target := load inDataStore idx in
  let retval := Z.land target mask in
  let retval := U32.shr retval bit in
  retval.

End Unsigned.

(** *** Serialisation helpers of [QSSGShaderKeyPropertyBase] *)

Import QByteArray.
Local Open Scope string_scope.
Local Open Scope Z_scope.
Local Notation "a +++ b" := (String.append a b)
  (at level 60, right associativity).

(** [internalToString(ioStr, inBuffer)] *)
Definition internalToString (p : QSSGShaderKeyPropertyBase)
    (ioStr inBuffer : string) : string :=
  ioStr +++ name p +++ "=" +++ inBuffer.

(** static [internalToString(ioStr, name, inValue)] *)
Definition internalToString_bool (ioStr name : string) (inValue : bool)
  : string :=
  if inValue
  then ioStr +++ name +++ "=" +++ (if inValue then "true" else "false")
  else ioStr.

Definition getBoolValue (str name : string) : bool :=
  let index := indexOf str name in
  if index <? 0 then false
  else
    let nameLen := size name in
    if negb (Ascii.eqb (at_ str (index + nameLen)) "=") then false
    else if String.eqb (mid str (index + nameLen + 1) 4) "true" then true
    else false.

(** The part of [ioStr] from position [pos] on, over which the scanning
    loops run. *)
Definition from (ioStr : string) (pos : Z) : string :=
  mid ioStr pos (size ioStr).

Definition toString_Boolean (p : QSSGShaderKeyPropertyBase)
    (ioStr : string) (inKeySet : list Z) : string :=
  let isHigh := Boolean.getValue p inKeySet in
  internalToString_bool ioStr (name p) isHigh.

Definition fromString_Boolean (p : QSSGShaderKeyPropertyBase)
    (ioStr : string) (inKeySet : list Z) : list Z :=
  Boolean.setValue p inKeySet (getBoolValue ioStr (name p)).

Definition toString_Unsigned (TBitWidth : Z) (p : QSSGShaderKeyPropertyBase)
    (ioStr : string) (inKeySet : list Z) : string :=
  let value := Unsigned.getValue TBitWidth p inKeySet in
  internalToString p ioStr (number value).

Definition fromString_Unsigned (TBitWidth : Z)
    (p : QSSGShaderKeyPropertyBase) (ioStr : string) (inKeySet : list Z)
  : list Z :=
  let nameLen := size (name p) in
  let strOffset := indexOf ioStr (name p) in
  if 0 <=? strOffset then
    (* The key is stored as name=val *)
    if negb (Ascii.eqb (at_ ioStr (strOffset + nameLen)) "=") then inKeySet
    else
      let s := right ioStr (size ioStr - strOffset - nameLen - 1) in
      let i := span isDigit s in
      let value := U32.wrap (toInt (left s i)) in
      Unsigned.setValue TBitWidth p inKeySet value
  else inKeySet.

(** *** [QSSGShaderKeyTextureChannel] : [QSSGShaderKeyUnsigned<2>] *)
Module TextureChannel.

Definition R : Z := 0.
Definition G : Z := 1.
Definition B : Z := 2.
Definition A : Z := 3.

Definition getTextureChannel (p : QSSGShaderKeyPropertyBase)
    (inKeySet : list Z) : Z :=
  Unsigned.getValue 2 p inKeySet.

Definition setTextureChannel (p : QSSGShaderKeyPropertyBase) (channel : Z)
    (inKeySet : list Z) : list Z :=
  Unsigned.setValue 2 p inKeySet channel.

Definition textureChannelToChar (i : Z) : ascii :=
  if i =? 0 then "R" else if i =? 1 then "G"
  else if i =? 2 then "B" else "A".

Definition toString (p : QSSGShaderKeyPropertyBase) (ioStr : string)
    (inKeySet : list Z) : string :=
  append_char (ioStr +++ name p +++ "=")
    (textureChannelToChar (getTextureChannel p inKeySet)).

Definition fromString (p : QSSGShaderKeyPropertyBase) (ioStr : string)
    (inKeySet : list Z) : list Z :=
  let nameLen := size (name p) in
  let strOffset := indexOf ioStr (name p) in
  if 0 <=? strOffset then
    (* The key is stored as name=ch *)
    if negb (Ascii.eqb (at_ ioStr (strOffset + nameLen)) "=") then inKeySet
    else
      let ch := at_ ioStr (strOffset + nameLen + 1) in
      if Ascii.eqb ch "R" then Unsigned.setValue 2 p inKeySet R
      else if Ascii.eqb ch "G" then Unsigned.setValue 2 p inKeySet G
      else if Ascii.eqb ch "B" then Unsigned.setValue 2 p inKeySet B
      else if Ascii.eqb ch "A" then Unsigned.setValue 2 p inKeySet A
      else inKeySet
  else inKeySet.

End TextureChannel.

(** *** [QSSGShaderKeyTextureSwizzle] : [QSSGShaderKeyUnsigned<5>] *)
Module TextureSwizzle.

Definition noSwizzle : Z := Z.shiftl 1 0.
Definition L8toR8 : Z := Z.shiftl 1 1.
Definition A8toR8 : Z := Z.shiftl 1 2.
Definition L8A8toRG8 : Z := Z.shiftl 1 3.
Definition L16toR16 : Z := Z.shiftl 1 4.

Definition getBitValue (p : QSSGShaderKeyPropertyBase) (swizzleBit : Z)
    (inKeySet : list Z) : bool :=
  negb (Z.land (Unsigned.getValue 5 p inKeySet) swizzleBit =? 0).

Definition setBitValue (p : QSSGShaderKeyPropertyBase) (swizzleBit : Z)
    (inValue : bool) (inKeySet : list Z) : list Z :=
  let theValue := Unsigned.getValue 5 p inKeySet in
  let mask := swizzleBit in
  let theValue :=
    if inValue then Z.lor theValue mask
    else Z.land theValue (U32.not mask) in
  Unsigned.setValue 5 p inKeySet theValue.

Definition toString (p : QSSGShaderKeyPropertyBase) (ioStr : string)
    (inKeySet : list Z) : string :=
  let ioStr := ioStr +++ name p in
  let ioStr := ioStr +++ "={" in
  let ioStr := internalToString_bool ioStr "noswizzle"
                 (getBitValue p noSwizzle inKeySet) in
  let ioStr := append_char ioStr ";" in
  let ioStr := internalToString_bool ioStr "l8swizzle"
                 (getBitValue p L8toR8 inKeySet) in
  let ioStr := append_char ioStr ";" in
  let ioStr := internalToString_bool ioStr "a8swizzle"
                 (getBitValue p A8toR8 inKeySet) in
  let ioStr := append_char ioStr ";" in
  let ioStr := internalToString_bool ioStr "l8a8swizzle"
                 (getBitValue p L8A8toRG8 inKeySet) in
  let ioStr := append_char ioStr ";" in
  let ioStr := internalToString_bool ioStr "l16swizzle"
                 (getBitValue p L16toR16 inKeySet) in
  append_char ioStr "}".

Definition fromString (p : QSSGShaderKeyPropertyBase) (ioStr : string)
    (inKeySet : list Z) : list Z :=
  let nameLen := size (name p) in
  let strOffset := indexOf ioStr (name p) in
  if 0 <=? strOffset then
    (* The key is stored as name={;;;;;} *)
    if negb (Ascii.eqb (at_ ioStr (strOffset + nameLen)) "=") then inKeySet
    else if negb (Ascii.eqb (at_ ioStr (strOffset + nameLen + 1)) "{")
    then inKeySet
    else
      let codeOffsetBegin := strOffset + nameLen + 2 in
      let codeOffset :=
        span (fun c => negb (Ascii.eqb c "}")) (from ioStr codeOffsetBegin) in
      let list := split ";" (mid ioStr codeOffsetBegin codeOffset) in
      if negb (length list =? 5)%nat then inKeySet
      else
        let field i := nth i list "" in
        let ks := setBitValue p noSwizzle
                    (getBoolValue (field 0%nat) "noswizzle") inKeySet in
        let ks := setBitValue p L8toR8
                    (getBoolValue (field 1%nat) "l8swizzle") ks in
        let ks := setBitValue p A8toR8
                    (getBoolValue (field 2%nat) "a8swizzle") ks in
        let ks := setBitValue p L8A8toRG8
                    (getBoolValue (field 3%nat) "l8a8swizzle") ks in
        setBitValue p L16toR16
          (getBoolValue (field 4%nat) "l16swizzle") ks
  else inKeySet.

End TextureSwizzle.

(** *** [QSSGShaderKeyImageMap] : [QSSGShaderKeyUnsigned<6>]

    The struct declares [toString] only; [fromString] is the one it
    inherits from [QSSGShaderKeyUnsigned<6>]. *)
Module ImageMap.

Definition Enabled : Z := Z.shiftl 1 0.
Definition EnvMap : Z := Z.shiftl 1 1.
Definition LightProbe : Z := Z.shiftl 1 2.
Definition InvertUV : Z := Z.shiftl 1 3.
Definition Premultiplied : Z := Z.shiftl 1 4.
Definition Identity : Z := Z.shiftl 1 5.

Definition getBitValue (p : QSSGShaderKeyPropertyBase) (imageBit : Z)
    (inKeySet : list Z) : bool :=
  negb (Z.land (Unsigned.getValue 6 p inKeySet) imageBit =? 0).

Definition setBitValue (p : QSSGShaderKeyPropertyBase) (imageBit : Z)
    (inValue : bool) (inKeySet : list Z) : list Z :=
  let theValue := Unsigned.getValue 6 p inKeySet in
  let mask := imageBit in
  let theValue :=
    if inValue then Z.lor theValue mask
    else Z.land theValue (U32.not mask) in
  Unsigned.setValue 6 p inKeySet theValue.

Definition isEnabled p (inKeySet : list Z) := getBitValue p Enabled inKeySet.
Definition setEnabled p (inKeySet : list Z) (val : bool) :=
  setBitValue p Enabled val inKeySet.

Definition toString (p : QSSGShaderKeyPropertyBase) (ioStr : string)
    (inKeySet : list Z) : string :=
  let ioStr := ioStr +++ name p in
  let ioStr := ioStr +++ "={" in
  let ioStr := internalToString_bool ioStr "enabled"
                 (getBitValue p Enabled inKeySet) in
  let ioStr := append_char ioStr ";" in
  let ioStr := internalToString_bool ioStr "envMap"
                 (getBitValue p EnvMap inKeySet) in
  let ioStr := append_char ioStr ";" in
  let ioStr := internalToString_bool ioStr "lightProbe"
                 (getBitValue p LightProbe inKeySet) in
  let ioStr := append_char ioStr ";" in
  let ioStr := internalToString_bool ioStr "invertUV"
                 (getBitValue p InvertUV inKeySet) in
  let ioStr := append_char ioStr ";" in
  let ioStr := internalToString_bool ioStr "premultiplied"
                 (getBitValue p Premultiplied inKeySet) in
  let ioStr := append_char ioStr ";" in
  let ioStr := internalToString_bool ioStr "identity"
                 (getBitValue p Identity inKeySet) in
  append_char ioStr "}".

Definition fromString := fromString_Unsigned 6.

End ImageMap.

(** Modelled from the spec: the enumerations
    [QSSGRenderDefaultMaterial::MaterialSpecularModel] and
    [MaterialAlphaMode] are declared in [qssgrenderdefaultmaterial_p.h],
    which is not among the sources; the key stores their numeric value
    in two bits, and the enumerators the serialiser names are numbered
    here in declaration order. *)
Module MaterialSpecularModel.
Definition Default : Z := 0.
Definition KGGX : Z := 1.
End MaterialSpecularModel.

Module MaterialAlphaMode.
Definition Default : Z := 0.
Definition Mask : Z := 1.
Definition Blend : Z := 2.
End MaterialAlphaMode.

(** *** [QSSGShaderKeySpecularModel] : [QSSGShaderKeyUnsigned<2>] *)
Module SpecularModel.

Definition setSpecularModel (p : QSSGShaderKeyPropertyBase)
    (inKeySet : list Z) (inModel : Z) : list Z :=
  Unsigned.setValue 2 p inKeySet inModel.

Definition getSpecularModel (p : QSSGShaderKeyPropertyBase)
    (inKeySet : list Z) : Z :=
  Unsigned.getValue 2 p inKeySet.

Definition toString (p : QSSGShaderKeyPropertyBase) (ioStr : string)
    (inKeySet : list Z) : string :=
  let ioStr := ioStr +++ name p in
  let ioStr := append_char ioStr "=" in
  let m := getSpecularModel p inKeySet in
  let ioStr :=
    if m =? MaterialSpecularModel.KGGX then ioStr +++ "KGGX"
    else if m =? MaterialSpecularModel.Default then ioStr +++ "Default"
    else ioStr in
  append_char ioStr ";".

Definition fromString (p : QSSGShaderKeyPropertyBase) (ioStr : string)
    (inKeySet : list Z) : list Z :=
  let nameLen := size (name p) in
  let strOffset := indexOf ioStr (name p) in
  if 0 <=? strOffset then
    (* The key is stored as name=specularMode; *)
    if negb (Ascii.eqb (at_ ioStr (strOffset + nameLen)) "=") then inKeySet
    else
      let codeOffsetBegin := strOffset + nameLen + 1 in
      let codeOffset :=
        span (fun c => negb (Ascii.eqb c ";")) (from ioStr codeOffsetBegin) in
      let val := mid ioStr codeOffsetBegin codeOffset in
      let ks :=
        if String.eqb val "KGGX"
        then setSpecularModel p inKeySet MaterialSpecularModel.KGGX
        else inKeySet in
      if String.eqb val "Default"
      then setSpecularModel p ks MaterialSpecularModel.Default
      else ks
  else inKeySet.

End SpecularModel.

(** *** [QSSGShaderKeyAlphaMode] : [QSSGShaderKeyUnsigned<2>] *)
Module AlphaMode.

Definition setAlphaMode (p : QSSGShaderKeyPropertyBase)
    (inKeySet : list Z) (inMode : Z) : list Z :=
  Unsigned.setValue 2 p inKeySet inMode.

Definition getAlphaMode (p : QSSGShaderKeyPropertyBase)
    (inKeySet : list Z) : Z :=
  Unsigned.getValue 2 p inKeySet.

Definition toString (p : QSSGShaderKeyPropertyBase) (ioStr : string)
    (inKeySet : list Z) : string :=
  let ioStr := ioStr +++ name p in
  let ioStr := append_char ioStr "=" in
  let m := getAlphaMode p inKeySet in
  let ioStr :=
    if m =? MaterialAlphaMode.Default then ioStr +++ "Default"
    else if m =? MaterialAlphaMode.Mask then ioStr +++ "Mask"
    else if m =? MaterialAlphaMode.Blend then ioStr +++ "Blend"
    else ioStr in
  append_char ioStr ";".

Definition fromString (p : QSSGShaderKeyPropertyBase) (ioStr : string)
    (inKeySet : list Z) : list Z :=
  let nameLen := size (name p) in
  let strOffset := indexOf ioStr (name p) in
  if 0 <=? strOffset then
    (* The key is stored as name=alphaMode; *)
    if negb (Ascii.eqb (at_ ioStr (strOffset + nameLen)) "=") then inKeySet
    else
      let codeOffsetBegin := strOffset + nameLen + 1 in
      let codeOffset :=
        span (fun c => negb (Ascii.eqb c ";")) (from ioStr codeOffsetBegin) in
      let val := mid ioStr codeOffsetBegin codeOffset in
      let ks :=
        if String.eqb val "Default"
        then setAlphaMode p inKeySet MaterialAlphaMode.Default
        else inKeySet in
      let ks :=
        if String.eqb val "Mask"
        then setAlphaMode p ks MaterialAlphaMode.Mask
        else ks in
      if String.eqb val "Blend"
      then setAlphaMode p ks MaterialAlphaMode.Blend
      else ks
  else inKeySet.

End AlphaMode.

(** *** [QSSGShaderKeyVertexAttribute] : [QSSGShaderKeyUnsigned<8>] *)
Module VertexAttribute.

Definition Position : Z := Z.shiftl 1 0.
Definition Normal : Z := Z.shiftl 1 1.
Definition TexCoord0 : Z := Z.shiftl 1 2.
Definition TexCoord1 : Z := Z.shiftl 1 3.
Definition Tangent : Z := Z.shiftl 1 4.
Definition Binormal : Z := Z.shiftl 1 5.
Definition Color : Z := Z.shiftl 1 6.
Definition JointAndWeight : Z := Z.shiftl 1 7.

Definition getBitValue (p : QSSGShaderKeyPropertyBase) (bit : Z)
    (inKeySet : list Z) : bool :=
  negb (Z.land (Unsigned.getValue 8 p inKeySet) bit =? 0).

Definition setBitValue (p : QSSGShaderKeyPropertyBase) (bit : Z)
    (inKeySet : list Z) (value : bool) : list Z :=
  let v := Unsigned.getValue 8 p inKeySet in
  let v := if value then Z.lor v bit else Z.land v (U32.not bit) in
  Unsigned.setValue 8 p inKeySet v.

Definition toString (p : QSSGShaderKeyPropertyBase) (ioStr : string)
    (inKeySet : list Z) : string :=
  let ioStr := ioStr +++ name p in
  let ioStr := ioStr +++ "={" in
  let ioStr := internalToString_bool ioStr "position"
                 (getBitValue p Position inKeySet) in
  let ioStr := append_char ioStr ";" in
  let ioStr := internalToString_bool ioStr "normal"
                 (getBitValue p Normal inKeySet) in
  let ioStr := append_char ioStr ";" in
  let ioStr := internalToString_bool ioStr "texcoord0"
                 (getBitValue p TexCoord0 inKeySet) in
  let ioStr := append_char ioStr ";" in
  let ioStr := internalToString_bool ioStr "texcoord1"
                 (getBitValue p TexCoord1 inKeySet) in
  let ioStr := append_char ioStr ";" in
  let ioStr := internalToString_bool ioStr "tangent"
                 (getBitValue p Tangent inKeySet) in
  let ioStr := append_char ioStr ";" in
  let ioStr := internalToString_bool ioStr "binormal"
                 (getBitValue p Binormal inKeySet) in
  let ioStr := append_char ioStr ";" in
  let ioStr := internalToString_bool ioStr "color"
                 (getBitValue p Color inKeySet) in
  let ioStr := append_char ioStr "}" in
  let ioStr := internalToString_bool ioStr "joint&weight"
                 (getBitValue p JointAndWeight inKeySet) in
  append_char ioStr "}".

Definition fromString (p : QSSGShaderKeyPropertyBase) (ioStr : string)
    (inKeySet : list Z) : list Z :=
  let nameLen := size (name p) in
  let strOffset := indexOf ioStr (name p) in
  if 0 <=? strOffset then
    (* The key is stored as name={;;;;;;} *)
    if negb (Ascii.eqb (at_ ioStr (strOffset + nameLen)) "=") then inKeySet
    else if negb (Ascii.eqb (at_ ioStr (strOffset + nameLen + 1)) "{")
    then inKeySet
    else
      let codeOffsetBegin := strOffset + nameLen + 2 in
      let codeOffset :=
        span (fun c => negb (Ascii.eqb c "}")) (from ioStr codeOffsetBegin) in
      let val := mid ioStr codeOffsetBegin codeOffset in
      let list := split ";" val in
      if negb (length list =? 7)%nat then inKeySet
      else
        let field i := nth i list "" in
        let ks := setBitValue p Position inKeySet
                    (getBoolValue (field 0%nat) "position") in
        let ks := setBitValue p Normal ks
                    (getBoolValue (field 1%nat) "normal") in
        let ks := setBitValue p TexCoord0 ks
                    (getBoolValue (field 2%nat) "texcoord0") in
        let ks := setBitValue p TexCoord1 ks
                    (getBoolValue (field 3%nat) "texcoord1") in
        let ks := setBitValue p Tangent ks
                    (getBoolValue (field 4%nat) "tangent") in
        let ks := setBitValue p Binormal ks
                    (getBoolValue (field 5%nat) "binormal") in
        setBitValue p Color ks (getBoolValue (field 6%nat) "color")
  else inKeySet.

End VertexAttribute.

(** *** Property types

    The visitors are templates instantiated at the static type of each
    member; [PropType] is that static type. *)
Inductive PropType :=
| TBoolean
| TUnsigned (TBitWidth : Z)
| TTextureChannel
| TTextureSwizzle
| TImageMap
| TSpecularModel
| TAlphaMode
| TVertexAttribute.

(** [TPropType::BitWidth] *)
Definition BitWidth (t : PropType) : Z :=
  match t with
  | TBoolean => 1
  | TUnsigned w => w
  | TTextureChannel => 2
  | TTextureSwizzle => 5
  | TImageMap => 6
  | TSpecularModel => 2
  | TAlphaMode => 2
  | TVertexAttribute => 8
  end.

(** [prop.toString(m_str, m_keyStore)] resolved at the static type *)
Definition prop_toString (t : PropType) (p : QSSGShaderKeyPropertyBase)
    (ioStr : string) (inKeySet : list Z) : string :=
  match t with
  | TBoolean => toString_Boolean p ioStr inKeySet
  | TUnsigned w => toString_Unsigned w p ioStr inKeySet
  | TTextureChannel => TextureChannel.toString p ioStr inKeySet
  | TTextureSwizzle => TextureSwizzle.toString p ioStr inKeySet
  | TImageMap => ImageMap.toString p ioStr inKeySet
  | TSpecularModel => SpecularModel.toString p ioStr inKeySet
  | TAlphaMode => AlphaMode.toString p ioStr inKeySet
  | TVertexAttribute => VertexAttribute.toString p ioStr inKeySet
  end.

(** [prop.fromString(m_str, m_keyStore)] resolved at the static type *)
Definition prop_fromString (t : PropType) (p : QSSGShaderKeyPropertyBase)
    (ioStr : string) (inKeySet : list Z) : list Z :=
  match t with
  | TBoolean => fromString_Boolean p ioStr inKeySet
  | TUnsigned w => fromString_Unsigned w p ioStr inKeySet
  | TTextureChannel => TextureChannel.fromString p ioStr inKeySet
  | TTextureSwizzle => TextureSwizzle.fromString p ioStr inKeySet
  | TImageMap => ImageMap.fromString p ioStr inKeySet
  | TSpecularModel => SpecularModel.fromString p ioStr inKeySet
  | TAlphaMode => AlphaMode.fromString p ioStr inKeySet
  | TVertexAttribute => VertexAttribute.fromString p ioStr inKeySet
  end.

(** *** [QSSGShaderDefaultMaterialKeyProperties] *)

Definition LightCount : nat := 15.
Definition SingleChannelImageCount : nat := 5.
Definition ImageMapCount : nat := 15.

Record QSSGShaderDefaultMaterialKeyProperties := mkProperties {
  m_hasLighting : QSSGShaderKeyPropertyBase;
  m_hasIbl : QSSGShaderKeyPropertyBase;
  m_lightCount : QSSGShaderKeyPropertyBase;
  m_lightFlags : list QSSGShaderKeyPropertyBase;
  m_lightSpotFlags : list QSSGShaderKeyPropertyBase;
  m_lightAreaFlags : list QSSGShaderKeyPropertyBase;
  m_lightShadowFlags : list QSSGShaderKeyPropertyBase;
  m_specularEnabled : QSSGShaderKeyPropertyBase;
  m_fresnelEnabled : QSSGShaderKeyPropertyBase;
  m_vertexColorsEnabled : QSSGShaderKeyPropertyBase;
  m_specularModel : QSSGShaderKeyPropertyBase;
  m_imageMaps : list QSSGShaderKeyPropertyBase;
  m_textureSwizzle : list QSSGShaderKeyPropertyBase;
  m_textureChannels : list QSSGShaderKeyPropertyBase;
  m_boneCount : QSSGShaderKeyPropertyBase;
  m_isDoubleSided : QSSGShaderKeyPropertyBase;
  m_overridesPosition : QSSGShaderKeyPropertyBase;
  m_usesProjectionMatrix : QSSGShaderKeyPropertyBase;
  m_usesInverseProjectionMatrix : QSSGShaderKeyPropertyBase;
  m_usesPointsTopology : QSSGShaderKeyPropertyBase;
  m_usesVarColor : QSSGShaderKeyPropertyBase;
  m_alphaMode : QSSGShaderKeyPropertyBase;
  m_vertexAttributes : QSSGShaderKeyPropertyBase;
  m_usesFloatJointIndices : QSSGShaderKeyPropertyBase;
  m_stringBufferSizeHint : Z
}.

(** A visitor: called with the member's static type and the member, it
    may update the member and its own state. *)
Definition Visitor (V : Type) : Type :=
  PropType -> QSSGShaderKeyPropertyBase -> V -> QSSGShaderKeyPropertyBase * V.

(** [for (auto &x : array) inVisitor.visit(x);] *)
Fixpoint visitArray {V} (visit : Visitor V) (t : PropType)
    (ps : list QSSGShaderKeyPropertyBase) (v : V)
  : list QSSGShaderKeyPropertyBase * V :=
  match ps with
  | [] => ([], v)
  | p :: rest =>
      let '(p', v) := visit t p v in
      let '(rest', v) := visitArray visit t rest v in
      (p' :: rest', v)
  end.

(** [for (idx = 0; idx < ImageMapCount; ++idx)
      { visit(m_imageMaps[idx]); visit(m_textureSwizzle[idx]); }] *)
Fixpoint visitImages {V} (visit : Visitor V)
    (ims sws : list QSSGShaderKeyPropertyBase) (v : V)
  : list QSSGShaderKeyPropertyBase * list QSSGShaderKeyPropertyBase * V :=
  match ims, sws with
  | im :: ims', sw :: sws' =>
      let '(im', v) := visit TImageMap im v in
      let '(sw', v) := visit TTextureSwizzle sw v in
      let '(ims'', sws'', v) := visitImages visit ims' sws' v in
      (im' :: ims'', sw' :: sws'', v)
  | _, _ => (ims, sws, v)
  end.

Definition visitProperties {V} (inVisitor : Visitor V)
    (ps : QSSGShaderDefaultMaterialKeyProperties) (v : V)
  : QSSGShaderDefaultMaterialKeyProperties * V :=
  let '(hasLighting, v) := inVisitor TBoolean (m_hasLighting ps) v in
  let '(hasIbl, v) := inVisitor TBoolean (m_hasIbl ps) v in
  let '(lightCount, v) := inVisitor (TUnsigned 4) (m_lightCount ps) v in
  let '(lightFlags, v) := visitArray inVisitor TBoolean (m_lightFlags ps) v in
  let '(lightSpotFlags, v) :=
    visitArray inVisitor TBoolean (m_lightSpotFlags ps) v in
  let '(lightAreaFlags, v) :=
    visitArray inVisitor TBoolean (m_lightAreaFlags ps) v in
  let '(lightShadowFlags, v) :=
    visitArray inVisitor TBoolean (m_lightShadowFlags ps) v in
  let '(specularEnabled, v) := inVisitor TBoolean (m_specularEnabled ps) v in
  let '(fresnelEnabled, v) := inVisitor TBoolean (m_fresnelEnabled ps) v in
  let '(vertexColorsEnabled, v) :=
    inVisitor TBoolean (m_vertexColorsEnabled ps) v in
  let '(specularModel, v) := inVisitor TSpecularModel (m_specularModel ps) v in
  let '(imageMaps, textureSwizzle, v) :=
    visitImages inVisitor (m_imageMaps ps) (m_textureSwizzle ps) v in
  let '(textureChannels, v) :=
    visitArray inVisitor TTextureChannel (m_textureChannels ps) v in
  let '(boneCount, v) := inVisitor (TUnsigned 16) (m_boneCount ps) v in
  let '(isDoubleSided, v) := inVisitor TBoolean (m_isDoubleSided ps) v in
  let '(overridesPosition, v) :=
    inVisitor TBoolean (m_overridesPosition ps) v in
  let '(usesProjectionMatrix, v) :=
    inVisitor TBoolean (m_usesProjectionMatrix ps) v in
  let '(usesInverseProjectionMatrix, v) :=
    inVisitor TBoolean (m_usesInverseProjectionMatrix ps) v in
  let '(usesPointsTopology, v) :=
    inVisitor TBoolean (m_usesPointsTopology ps) v in
  let '(usesVarColor, v) := inVisitor TBoolean (m_usesVarColor ps) v in
  let '(alphaMode, v) := inVisitor TAlphaMode (m_alphaMode ps) v in
  let '(vertexAttributes, v) :=
    inVisitor TVertexAttribute (m_vertexAttributes ps) v in
  let '(usesFloatJointIndices, v) :=
    inVisitor TBoolean (m_usesFloatJointIndices ps) v in
  (mkProperties hasLighting hasIbl lightCount lightFlags lightSpotFlags
     lightAreaFlags lightShadowFlags specularEnabled fresnelEnabled
     vertexColorsEnabled specularModel imageMaps textureSwizzle
     textureChannels boneCount isDoubleSided overridesPosition
     usesProjectionMatrix usesInverseProjectionMatrix usesPointsTopology
     usesVarColor alphaMode vertexAttributes usesFloatJointIndices
     (m_stringBufferSizeHint ps),
   v).

(** [OffsetVisitor::visit]; the visitor's state is [m_offset]. *)
Definition OffsetVisitor_visit : Visitor Z :=
  fun TPropType inProp m_offset =>
    (* if we cross the 32 bit border we just move to the next dword. *)
    let bit := m_offset mod 32 in
    let m_offset :=
      if bit + BitWidth TPropType >? 31
      then U32.wrap (m_offset + (32 - bit))
      else m_offset in
    let inProp := setOffset inProp m_offset in
    (inProp, U32.wrap (m_offset + BitWidth TPropType)).

(** [StringSizeVisitor::visit]; the visitor's state is [size]. *)
Definition StringSizeVisitor_visit : Visitor Z :=
  fun _ prop sz => (prop, sz + size (name prop)).

(** [InitVisitor::visit] *)
Definition InitVisitor_visit : Visitor (Z * Z) :=
  fun t prop '(m_offset, sz) =>
    let '(prop, m_offset) := OffsetVisitor_visit t prop m_offset in
    let '(prop, sz) := StringSizeVisitor_visit t prop sz in
    (prop, (m_offset, sz)).

(** [init()]: returns the initialised properties together with the final
    [offsetVisitor.m_offset], the subject of the assertion
    [Q_ASSERT(visitor.offsetVisitor.m_offset < 320)]. *)
Definition init (ps : QSSGShaderDefaultMaterialKeyProperties)
  : QSSGShaderDefaultMaterialKeyProperties * Z :=
  let '(ps, (m_offset, sz)) := visitProperties InitVisitor_visit ps (0, 0) in
  (mkProperties (m_hasLighting ps) (m_hasIbl ps) (m_lightCount ps)
     (m_lightFlags ps) (m_lightSpotFlags ps) (m_lightAreaFlags ps)
     (m_lightShadowFlags ps) (m_specularEnabled ps) (m_fresnelEnabled ps)
     (m_vertexColorsEnabled ps) (m_specularModel ps) (m_imageMaps ps)
     (m_textureSwizzle ps) (m_textureChannels ps) (m_boneCount ps)
     (m_isDoubleSided ps) (m_overridesPosition ps)
     (m_usesProjectionMatrix ps) (m_usesInverseProjectionMatrix ps)
     (m_usesPointsTopology ps) (m_usesVarColor ps) (m_alphaMode ps)
     (m_vertexAttributes ps) (m_usesFloatJointIndices ps) sz,
   m_offset).

Definition named (n : string) : QSSGShaderKeyPropertyBase :=
  {| name := n; offset := 0 |}.

(** The members as the constructor names them, before [init()]. *)
Definition declared : QSSGShaderDefaultMaterialKeyProperties := {|
  m_hasLighting := named "hasLighting";
  m_hasIbl := named "hasIbl";
  m_lightCount := named "lightCount";
  m_lightFlags := map named
    [ "light0HasPosition"; "light1HasPosition"; "light2HasPosition";
      "light3HasPosition"; "light4HasPosition"; "light5HasPosition";
      "light6HasPosition"; "light7HasPosition"; "light8HasPosition";
      "light9HasPosition"; "light10HasPosition"; "light11HasPosition";
      "light12HasPosition"; "light13HasPosition"; "light14HasPosition" ];
  m_lightSpotFlags := map named
    [ "light0HasSpot"; "light1HasSpot"; "light2HasSpot"; "light3HasSpot";
      "light4HasSpot"; "light5HasSpot"; "light6HasSpot"; "light7HasSpot";
      "light8HasSpot"; "light9HasSpot"; "light10HasSpot"; "light11HasSpot";
      "light12HasSpot"; "light13HasSpot"; "light14HasSpot" ];
  m_lightAreaFlags := map named
    [ "light0HasArea"; "light1HasArea"; "light2HasArea"; "light3HasArea";
      "light4HasArea"; "light5HasArea"; "light6HasArea"; "light7HasArea";
      "light8HasArea"; "light9HasArea"; "light10HasArea"; "light11HasArea";
      "light12HasArea"; "light13HasArea"; "light14HasArea" ];
  m_lightShadowFlags := map named
    [ "light0HasShadow"; "light1HasShadow"; "light2HasShadow";
      "light3HasShadow"; "light4HasShadow"; "light5HasShadow";
      "light6HasShadow"; "light7HasShadow"; "light8HasShadow";
      "light9HasShadow"; "light10HasShadow"; "light11HasShadow";
      "light12HasShadow"; "light13HasShadow"; "light14HasShadow" ];
  m_specularEnabled := named "specularEnabled";
  m_fresnelEnabled := named "fresnelEnabled";
  m_vertexColorsEnabled := named "vertexColorsEnabled";
  m_specularModel := named "specularModel";
  m_imageMaps := map named
    [ "diffuseMap"; "emissiveMap"; "specularMap"; "baseColorMap"; "bumpMap";
      "specularAmountMap"; "normalMap"; "lightmapIndirect";
      "lightmapRadiosity"; "lightmapShadow"; "opacityMap"; "roughnessMap";
      "metalnessMap"; "occlusionMap"; "translucencyMap" ];
  m_textureSwizzle := map named
    [ "diffuseMap_swizzle"; "emissiveMap_swizzle"; "specularMap_swizzle";
      "baseColorMap_swizzle"; "bumpMap_swizzle"; "specularAmountMap_swizzle";
      "normalMap_swizzle"; "lightmapIndirect_swizzle";
      "lightmapRadiosity_swizzle"; "lightmapShadow_swizzle";
      "opacityMap_swizzle"; "roughnessMap_swizzle"; "metalnessMap_swizzle";
      "occlusionMap_swizzle"; "translucencyMap_swizzle" ];
  m_textureChannels := map named
    [ "opacityMap_channel"; "roughnessMap_channel"; "metalnessMap_channel";
      "occlusionMap_channel"; "translucencyMap_channel" ];
  m_boneCount := named "boneCount";
  m_isDoubleSided := named "isDoubleSided";
  m_overridesPosition := named "overridesPosition";
  m_usesProjectionMatrix := named "usesProjectionMatrix";
  m_usesInverseProjectionMatrix := named "usesInverseProjectionMatrix";
  m_usesPointsTopology := named "usesPointsTopology";
  m_usesVarColor := named "usesVarColor";
  m_alphaMode := named "alphaMode";
  m_vertexAttributes := named "vertexAttributes";
  m_usesFloatJointIndices := named "usesFloatJointIndices";
  m_stringBufferSizeHint := 0
|}.

(** The constructor [QSSGShaderDefaultMaterialKeyProperties()]. *)
Definition defaultMaterialKeyProperties
  : QSSGShaderDefaultMaterialKeyProperties :=
  Eval vm_compute in fst (init declared).

(** The properties in the order [visitProperties] visits them, each with
    its static type. *)
Definition CollectVisitor_visit
  : Visitor (list (PropType * QSSGShaderKeyPropertyBase)) :=
  fun t prop acc => (prop, (acc ++ [(t, prop)])%list).

Definition visited (ps : QSSGShaderDefaultMaterialKeyProperties)
  : list (PropType * QSSGShaderKeyPropertyBase) :=
  snd (visitProperties CollectVisitor_visit ps []).

(** *** [QSSGShaderDefaultMaterialKey] *)

Definition DataBufferSize : nat := 10.

Record QSSGShaderDefaultMaterialKey := mkKey {
  m_dataBuffer : list Z;
  m_featureSetHash : Z
}.

(** [explicit QSSGShaderDefaultMaterialKey(size_t inFeatureSetHash)] *)
Definition newKey (inFeatureSetHash : Z) : QSSGShaderDefaultMaterialKey :=
  {| m_dataBuffer := repeat 0 DataBufferSize;
     m_featureSetHash := inFeatureSetHash |}.

(** The indices [0 .. DataBufferSize - 1] the loops over the words run
    through. *)
Definition indices : list Z := map Z.of_nat (seq 0 DataBufferSize).

Section Hash.

(** [qHash(quint32)] is Qt's; its result is a [size_t]. *)
Variable qHash : Z -> Z.

(** [hash()] *)
Definition hash (k : QSSGShaderDefaultMaterialKey) : Z :=
  let retval :=
    fold_left
      (fun retval idx => Z.lxor retval (qHash (load (m_dataBuffer k) idx)))
      indices 0 in
  Z.lxor retval (m_featureSetHash k).

End Hash.

(** [operator==]: the loop runs while [idx < DataBufferSize && retval]. *)
Definition key_eq (k other : QSSGShaderDefaultMaterialKey) : bool :=
  let retval :=
    fold_left
      (fun (retval : bool) idx =>
         if retval
         then load (m_dataBuffer k) idx =? load (m_dataBuffer other) idx
         else retval)
      indices true in
  retval && (m_featureSetHash k =? m_featureSetHash other).

(** [StringVisitor::visit]; the visitor's state is [m_str]. *)
Definition StringVisitor_visit (m_keyStore : list Z) : Visitor string :=
  fun t prop m_str =>
    let originalSize := size m_str in
    let m_str :=
      if negb (size m_str =? 0) then append_char m_str ";" else m_str in
    let m_str := prop_toString t prop m_str m_keyStore in
    (* if the only thing we added was the semicolon then nuke the
       semicolon *)
    let m_str :=
      if negb (originalSize =? 0) && (size m_str =? originalSize + 1)
      then resize m_str originalSize
      else m_str in
    (prop, m_str).

(** [StringInVisitor::visit]; the visitor's state is [m_keyStore]. *)
Definition StringInVisitor_visit (m_str : string) : Visitor (list Z) :=
  fun t prop m_keyStore => (prop, prop_fromString t prop m_str m_keyStore).

(** [toString(ioString, inProperties)]; [reserve] does not change the
    contents. *)
Definition toString (k : QSSGShaderDefaultMaterialKey) (ioString : string)
    (inProperties : QSSGShaderDefaultMaterialKeyProperties) : string :=
  snd (visitProperties (StringVisitor_visit (m_dataBuffer k))
         inProperties ioString).

(** [fromString(ioString, inProperties)] *)
Definition fromString (k : QSSGShaderDefaultMaterialKey) (ioString : string)
    (inProperties : QSSGShaderDefaultMaterialKeyProperties)
  : QSSGShaderDefaultMaterialKey :=
  {| m_dataBuffer :=
       snd (visitProperties (StringInVisitor_visit ioString)
              inProperties (m_dataBuffer k));
     m_featureSetHash := m_featureSetHash k |}.

(** *** The layout the offset pass produces *)

Module Layout.

(** The bits [offset, offset + BitWidth) lie within one 32-bit word. *)
Definition withinWord (tp : PropType * QSSGShaderKeyPropertyBase) : bool :=
  offset (snd tp) mod 32 + BitWidth (fst tp) <=? 32.

Definition disjoint (a b : PropType * QSSGShaderKeyPropertyBase) : bool :=
  (offset (snd a) + BitWidth (fst a) <=? offset (snd b))
  || (offset (snd b) + BitWidth (fst b) <=? offset (snd a)).

Fixpoint pairwiseDisjoint (l : list (PropType * QSSGShaderKeyPropertyBase))
  : bool :=
  match l with
  | [] => true
  | a :: rest => forallb (disjoint a) rest && pairwiseDisjoint rest
  end.

(** [width] bits placed at [m_offset] would cross a word boundary: the
    first and the last bit fall into different words. *)
Definition crosses (m_offset width : Z) : bool :=
  negb (m_offset / 32 =? (m_offset + width - 1) / 32).

(** The visitor moved the property to the start of the next word. *)
Definition moved (t : PropType) (m_offset : Z) : bool :=
  negb (offset (fst (OffsetVisitor_visit t (named "") m_offset))
        =? m_offset).

(** A key built by setting a flag of a property, starting from the zero
    key. *)
Definition diffuseMap : QSSGShaderKeyPropertyBase :=
  nth 0 (m_imageMaps defaultMaterialKeyProperties) (named "").

Definition roundTrip (k : QSSGShaderDefaultMaterialKey)
  : QSSGShaderDefaultMaterialKey :=
  fromString (newKey 0) (toString k "" defaultMaterialKeyProperties)
    defaultMaterialKeyProperties.

End Layout.

End ShaderKeys.

(** ** The OpenXR manager

    The XR runtime, the Qt Quick scene and the input manager are outside
    the translation unit. Every call the manager makes to them is
    appended to a log; what the runtime answers is read from a script of
    responses, one per call, so that a theorem quantified over scripts
    holds for every behaviour of the runtime. Events wait in a queue that
    [xrPollEvent] pops. Coordinates are IEEE floats the manager only
    copies; they are kept as [spec_float]. *)

Module OpenXR.

Local Open Scope Z_scope.

Definition XrResult := Z.
Definition XR_SUCCESS : XrResult := 0.
Definition XR_EVENT_UNAVAILABLE : XrResult := 4.
Definition XR_ERROR_RUNTIME_FAILURE : XrResult := -2.
(** [XR_UNQUALIFIED_SUCCESS(result)] *)
Definition XR_UNQUALIFIED_SUCCESS (r : XrResult) : bool := r =? 0.
Definition XR_NULL_HANDLE : Z := 0.
Definition XR_TRUE : Z := 1.
Definition XR_FALSE : Z := 0.
Definition XR_ENVIRONMENT_BLEND_MODE_OPAQUE : Z := 1.
Definition XR_INFINITE_DURATION : Z := 9223372036854775807.
Definition XR_COMPOSITION_LAYER_CORRECT_CHROMATIC_ABERRATION_BIT : Z := 1.
Definition XR_COMPOSITION_LAYER_BLEND_TEXTURE_SOURCE_ALPHA_BIT : Z := 2.
Definition XR_COMPOSITION_LAYER_UNPREMULTIPLIED_ALPHA_BIT : Z := 4.
Definition XR_PASSTHROUGH_IS_RUNNING_AT_CREATION_BIT_FB : Z := 1.
Definition XR_PASSTHROUGH_LAYER_PURPOSE_RECONSTRUCTION_FB : Z := 0.

Inductive XrSessionState :=
| XR_SESSION_STATE_UNKNOWN
| XR_SESSION_STATE_IDLE
| XR_SESSION_STATE_READY
| XR_SESSION_STATE_SYNCHRONIZED
| XR_SESSION_STATE_VISIBLE
| XR_SESSION_STATE_FOCUSED
| XR_SESSION_STATE_STOPPING
| XR_SESSION_STATE_LOSS_PENDING
| XR_SESSION_STATE_EXITING.

Inductive XrReferenceSpaceType :=
| XR_REFERENCE_SPACE_TYPE_VIEW
| XR_REFERENCE_SPACE_TYPE_LOCAL
| XR_REFERENCE_SPACE_TYPE_STAGE
| XR_REFERENCE_SPACE_TYPE_LOCAL_FLOOR_EXT
| XR_REFERENCE_SPACE_TYPE_OTHER (value : Z).

Definition XrReferenceSpaceType_eqb (a b : XrReferenceSpaceType) : bool :=
  match a, b with
  | XR_REFERENCE_SPACE_TYPE_VIEW, XR_REFERENCE_SPACE_TYPE_VIEW => true
  | XR_REFERENCE_SPACE_TYPE_LOCAL, XR_REFERENCE_SPACE_TYPE_LOCAL => true
  | XR_REFERENCE_SPACE_TYPE_STAGE, XR_REFERENCE_SPACE_TYPE_STAGE => true
  | XR_REFERENCE_SPACE_TYPE_LOCAL_FLOOR_EXT,
    XR_REFERENCE_SPACE_TYPE_LOCAL_FLOOR_EXT => true
  | XR_REFERENCE_SPACE_TYPE_OTHER x, XR_REFERENCE_SPACE_TYPE_OTHER y =>
      x =? y
  | _, _ => false
  end.

Record XrQuaternionf := mkQuat { qx : spec_float; qy : spec_float;
                                 qz : spec_float; qw : spec_float }.
Record XrVector3f := mkVec3 { x : spec_float; y : spec_float;
                              z : spec_float }.
Record XrPosef := mkPose { orientation : XrQuaternionf;
                           position : XrVector3f }.
Record XrFovf := mkFov { angleLeft : spec_float; angleRight : spec_float;
                         angleUp : spec_float; angleDown : spec_float }.

(** The floats 0 and 1. *)
Definition f0 : spec_float := S754_zero false.
Definition f1 : spec_float := S754_finite false 8388608 (-23).

Definition identityPose : XrPosef :=
  {| orientation := {| qx := f0; qy := f0; qz := f0; qw := f1 |};
     position := {| x := f0; y := f0; z := f0 |} |}.

(** [pose.position.y = v] *)
Definition set_position_y (v : spec_float) (p : XrPosef) : XrPosef :=
  {| orientation := orientation p;
     position := {| x := x (position p); y := v; z := z (position p) |} |}.

Record XrReferenceSpaceCreateInfo := mkCreateInfo {
  referenceSpaceType : XrReferenceSpaceType;
  poseInReferenceSpace : XrPosef
}.

Record XrSpaceLocation := mkLocation {
  locationFlags : Z;
  pose : XrPosef
}.

Record XrFrameState := mkFrameState {
  predictedDisplayTime : Z;
  predictedDisplayPeriod : Z;
  shouldRender : Z
}.

Record XrView := mkView { view_pose : XrPosef; view_fov : XrFovf }.

Record XrViewConfigurationView := mkConfigView {
  recommendedImageRectWidth : Z;
  recommendedImageRectHeight : Z
}.

Record XrSwapchainSubImage := mkSubImage {
  swapchain : Z;
  imageRectWidth : Z;
  imageRectHeight : Z;
  imageArrayIndex : Z
}.

Record XrCompositionLayerProjectionView := mkProjectionView {
  pv_pose : XrPosef;
  pv_fov : XrFovf;
  subImage : XrSwapchainSubImage
}.

Record Swapchain := mkSwapchain { handle : Z; arraySize : Z }.

Inductive XrCompositionLayer :=
| XrCompositionLayerPassthroughFB (layerHandle flags space : Z)
| XrCompositionLayerProjection (layerFlags space : Z)
    (views : list XrCompositionLayerProjectionView).

Record XrFrameEndInfo := mkFrameEndInfo {
  displayTime : Z;
  environmentBlendMode : Z;
  layers : list XrCompositionLayer
}.

Inductive XrEventData :=
| XrEventDataEventsLost (lostEventCount : Z)
| XrEventDataInstanceLossPending (lossTime : Z)
| XrEventDataSessionStateChanged (session : Z) (state : XrSessionState)
    (time : Z)
| XrEventDataInteractionProfileChanged
| XrEventDataSpaceSetStatusCompleteFB
| XrEventDataSpaceQueryResultsAvailableFB
| XrEventDataSpaceQueryCompleteFB
| XrEventDataSceneCaptureCompleteFB
| XrEventDataReferenceSpaceChangePending
| XrEventDataOther (type : Z).

(** The calls made to the runtime, with their input arguments. *)
Inductive XrCall :=
| xrPollEvent (instance : Z)
| xrCreateReferenceSpace (session : Z)
    (createInfo : XrReferenceSpaceCreateInfo)
| xrDestroySpace (space : Z)
| xrLocateSpace (space baseSpace time : Z)
| xrBeginSession (session primaryViewConfigurationType : Z)
| xrEndSession (session : Z)
| xrWaitFrame (session : Z)
| xrBeginFrame (session : Z)
| xrEndFrame (session : Z) (frameEndInfo : XrFrameEndInfo)
| xrLocateViews (session viewConfigurationType displayTime space
                 viewCapacityInput : Z)
| xrAcquireSwapchainImage (swapchain : Z)
| xrWaitSwapchainImage (swapchain timeout : Z)
| xrReleaseSwapchainImage (swapchain : Z)
| xrGetInstanceProcAddr (instance : Z) (name : string)
| xrCreatePassthroughLayerFB (session passthrough purpose flags : Z).

(** What a call leaves in its result and its output parameters; a call
    reads the outputs it has. *)
Record XrResponse := mkResponse {
  result : XrResult;
  out_space : Z;
  out_location : XrSpaceLocation;
  out_frameState : XrFrameState;
  out_viewCountOutput : Z;
  out_views : list XrView;
  out_imageIndex : Z;
  out_layer : Z
}.

Inductive Signal :=
| referenceSpaceChanged
| sessionEnded
| xrOriginChanged.

(** What the manager does to its collaborators, in order. *)
Inductive Action :=
| Call (c : XrCall)
| Emit (s : Signal)
| AnimationDriver_setStep (ms : Z)
| AnimationDriver_advance
| InputManager_pollActions
| InputManager_updatePoses (time space : Z)
| InputManager_updateHandtracking (time space : Z) (aim : bool)
| SpaceExtension_updateAnchors (time space : Z)
| SpaceExtension_handleEvent (e : XrEventData)
| Camera_setPose (p : XrPosef)
| UpdateCameraNonMultiview (eye : Z)
    (layerView : XrCompositionLayerProjectionView)
| UpdateCameraMultiview (projectionLayerViewStartIndex count : Z)
| DoRender (subImage : XrSwapchainSubImage) (swapchainImage : Z * Z)
    (arraySize : Z)
| PostUpdateRequest.

(** The members of [QOpenXRManager] that the modelled functions read or
    write. Pointers to collaborators ([m_xrOrigin], [m_spaceExtension])
    are kept as their non-null test. *)
Record QOpenXRManager := mkManager {
  m_instance : Z;
  m_session : Z;
  m_sessionState : XrSessionState;
  m_sessionRunning : bool;
  m_viewConfigType : Z;
  m_environmentBlendMode : Z;
  m_appSpace : Z;
  m_viewSpace : Z;
  m_referenceSpace : XrReferenceSpaceType;
  m_requestedReferenceSpace : XrReferenceSpaceType;
  m_isEmulatingLocalFloor : bool;
  m_isFloorResetPending : bool;
  m_availableReferenceSpace : list XrReferenceSpaceType;
  m_enablePassthrough : bool;
  m_passthroughSupported : bool;
  m_passthroughFeature : Z;
  m_passthroughLayer : Z;
  m_views : list XrView;
  m_configViews : list XrViewConfigurationView;
  m_projectionLayerViews : list XrCompositionLayerProjectionView;
  m_swapchains : list Swapchain;
  m_multiviewRendering : bool;
  m_xrOrigin : bool;
  m_spaceExtension : bool;
  m_handtrackingExtensionSupported : bool;
  m_handtrackingAimExtensionSupported : bool;
  m_previousTime : Z
}.

Definition set_m_sessionState (v : XrSessionState) (m : QOpenXRManager)
  : QOpenXRManager :=
  {| m_instance := m_instance m; m_session := m_session m; m_sessionState
     := v; m_sessionRunning := m_sessionRunning m; m_viewConfigType :=
     m_viewConfigType m; m_environmentBlendMode := m_environmentBlendMode
     m; m_appSpace := m_appSpace m; m_viewSpace := m_viewSpace m;
     m_referenceSpace := m_referenceSpace m; m_requestedReferenceSpace :=
     m_requestedReferenceSpace m; m_isEmulatingLocalFloor :=
     m_isEmulatingLocalFloor m; m_isFloorResetPending :=
     m_isFloorResetPending m; m_availableReferenceSpace :=
     m_availableReferenceSpace m; m_enablePassthrough :=
     m_enablePassthrough m; m_passthroughSupported :=
     m_passthroughSupported m; m_passthroughFeature :=
     m_passthroughFeature m; m_passthroughLayer := m_passthroughLayer m;
     m_views := m_views m; m_configViews := m_configViews m;
     m_projectionLayerViews := m_projectionLayerViews m; m_swapchains :=
     m_swapchains m; m_multiviewRendering := m_multiviewRendering m;
     m_xrOrigin := m_xrOrigin m; m_spaceExtension := m_spaceExtension m;
     m_handtrackingExtensionSupported := m_handtrackingExtensionSupported
     m; m_handtrackingAimExtensionSupported :=
     m_handtrackingAimExtensionSupported m; m_previousTime :=
     m_previousTime m |}.

Definition set_m_sessionRunning (v : bool) (m : QOpenXRManager)
  : QOpenXRManager :=
  {| m_instance := m_instance m; m_session := m_session m; m_sessionState
     := m_sessionState m; m_sessionRunning := v; m_viewConfigType :=
     m_viewConfigType m; m_environmentBlendMode := m_environmentBlendMode
     m; m_appSpace := m_appSpace m; m_viewSpace := m_viewSpace m;
     m_referenceSpace := m_referenceSpace m; m_requestedReferenceSpace :=
     m_requestedReferenceSpace m; m_isEmulatingLocalFloor :=
     m_isEmulatingLocalFloor m; m_isFloorResetPending :=
     m_isFloorResetPending m; m_availableReferenceSpace :=
     m_availableReferenceSpace m; m_enablePassthrough :=
     m_enablePassthrough m; m_passthroughSupported :=
     m_passthroughSupported m; m_passthroughFeature :=
     m_passthroughFeature m; m_passthroughLayer := m_passthroughLayer m;
     m_views := m_views m; m_configViews := m_configViews m;
     m_projectionLayerViews := m_projectionLayerViews m; m_swapchains :=
     m_swapchains m; m_multiviewRendering := m_multiviewRendering m;
     m_xrOrigin := m_xrOrigin m; m_spaceExtension := m_spaceExtension m;
     m_handtrackingExtensionSupported := m_handtrackingExtensionSupported
     m; m_handtrackingAimExtensionSupported :=
     m_handtrackingAimExtensionSupported m; m_previousTime :=
     m_previousTime m |}.

Definition set_m_appSpace (v : Z) (m : QOpenXRManager)
  : QOpenXRManager :=
  {| m_instance := m_instance m; m_session := m_session m; m_sessionState
     := m_sessionState m; m_sessionRunning := m_sessionRunning m;
     m_viewConfigType := m_viewConfigType m; m_environmentBlendMode :=
     m_environmentBlendMode m; m_appSpace := v; m_viewSpace := m_viewSpace
     m; m_referenceSpace := m_referenceSpace m; m_requestedReferenceSpace
     := m_requestedReferenceSpace m; m_isEmulatingLocalFloor :=
     m_isEmulatingLocalFloor m; m_isFloorResetPending :=
     m_isFloorResetPending m; m_availableReferenceSpace :=
     m_availableReferenceSpace m; m_enablePassthrough :=
     m_enablePassthrough m; m_passthroughSupported :=
     m_passthroughSupported m; m_passthroughFeature :=
     m_passthroughFeature m; m_passthroughLayer := m_passthroughLayer m;
     m_views := m_views m; m_configViews := m_configViews m;
     m_projectionLayerViews := m_projectionLayerViews m; m_swapchains :=
     m_swapchains m; m_multiviewRendering := m_multiviewRendering m;
     m_xrOrigin := m_xrOrigin m; m_spaceExtension := m_spaceExtension m;
     m_handtrackingExtensionSupported := m_handtrackingExtensionSupported
     m; m_handtrackingAimExtensionSupported :=
     m_handtrackingAimExtensionSupported m; m_previousTime :=
     m_previousTime m |}.

Definition set_m_referenceSpace (v : XrReferenceSpaceType) (m : QOpenXRManager)
  : QOpenXRManager :=
  {| m_instance := m_instance m; m_session := m_session m; m_sessionState
     := m_sessionState m; m_sessionRunning := m_sessionRunning m;
     m_viewConfigType := m_viewConfigType m; m_environmentBlendMode :=
     m_environmentBlendMode m; m_appSpace := m_appSpace m; m_viewSpace :=
     m_viewSpace m; m_referenceSpace := v; m_requestedReferenceSpace :=
     m_requestedReferenceSpace m; m_isEmulatingLocalFloor :=
     m_isEmulatingLocalFloor m; m_isFloorResetPending :=
     m_isFloorResetPending m; m_availableReferenceSpace :=
     m_availableReferenceSpace m; m_enablePassthrough :=
     m_enablePassthrough m; m_passthroughSupported :=
     m_passthroughSupported m; m_passthroughFeature :=
     m_passthroughFeature m; m_passthroughLayer := m_passthroughLayer m;
     m_views := m_views m; m_configViews := m_configViews m;
     m_projectionLayerViews := m_projectionLayerViews m; m_swapchains :=
     m_swapchains m; m_multiviewRendering := m_multiviewRendering m;
     m_xrOrigin := m_xrOrigin m; m_spaceExtension := m_spaceExtension m;
     m_handtrackingExtensionSupported := m_handtrackingExtensionSupported
     m; m_handtrackingAimExtensionSupported :=
     m_handtrackingAimExtensionSupported m; m_previousTime :=
     m_previousTime m |}.

Definition set_m_requestedReferenceSpace (v : XrReferenceSpaceType) (m : QOpenXRManager)
  : QOpenXRManager :=
  {| m_instance := m_instance m; m_session := m_session m; m_sessionState
     := m_sessionState m; m_sessionRunning := m_sessionRunning m;
     m_viewConfigType := m_viewConfigType m; m_environmentBlendMode :=
     m_environmentBlendMode m; m_appSpace := m_appSpace m; m_viewSpace :=
     m_viewSpace m; m_referenceSpace := m_referenceSpace m;
     m_requestedReferenceSpace := v; m_isEmulatingLocalFloor :=
     m_isEmulatingLocalFloor m; m_isFloorResetPending :=
     m_isFloorResetPending m; m_availableReferenceSpace :=
     m_availableReferenceSpace m; m_enablePassthrough :=
     m_enablePassthrough m; m_passthroughSupported :=
     m_passthroughSupported m; m_passthroughFeature :=
     m_passthroughFeature m; m_passthroughLayer := m_passthroughLayer m;
     m_views := m_views m; m_configViews := m_configViews m;
     m_projectionLayerViews := m_projectionLayerViews m; m_swapchains :=
     m_swapchains m; m_multiviewRendering := m_multiviewRendering m;
     m_xrOrigin := m_xrOrigin m; m_spaceExtension := m_spaceExtension m;
     m_handtrackingExtensionSupported := m_handtrackingExtensionSupported
     m; m_handtrackingAimExtensionSupported :=
     m_handtrackingAimExtensionSupported m; m_previousTime :=
     m_previousTime m |}.

Definition set_m_isEmulatingLocalFloor (v : bool) (m : QOpenXRManager)
  : QOpenXRManager :=
  {| m_instance := m_instance m; m_session := m_session m; m_sessionState
     := m_sessionState m; m_sessionRunning := m_sessionRunning m;
     m_viewConfigType := m_viewConfigType m; m_environmentBlendMode :=
     m_environmentBlendMode m; m_appSpace := m_appSpace m; m_viewSpace :=
     m_viewSpace m; m_referenceSpace := m_referenceSpace m;
     m_requestedReferenceSpace := m_requestedReferenceSpace m;
     m_isEmulatingLocalFloor := v; m_isFloorResetPending :=
     m_isFloorResetPending m; m_availableReferenceSpace :=
     m_availableReferenceSpace m; m_enablePassthrough :=
     m_enablePassthrough m; m_passthroughSupported :=
     m_passthroughSupported m; m_passthroughFeature :=
     m_passthroughFeature m; m_passthroughLayer := m_passthroughLayer m;
     m_views := m_views m; m_configViews := m_configViews m;
     m_projectionLayerViews := m_projectionLayerViews m; m_swapchains :=
     m_swapchains m; m_multiviewRendering := m_multiviewRendering m;
     m_xrOrigin := m_xrOrigin m; m_spaceExtension := m_spaceExtension m;
     m_handtrackingExtensionSupported := m_handtrackingExtensionSupported
     m; m_handtrackingAimExtensionSupported :=
     m_handtrackingAimExtensionSupported m; m_previousTime :=
     m_previousTime m |}.

Definition set_m_isFloorResetPending (v : bool) (m : QOpenXRManager)
  : QOpenXRManager :=
  {| m_instance := m_instance m; m_session := m_session m; m_sessionState
     := m_sessionState m; m_sessionRunning := m_sessionRunning m;
     m_viewConfigType := m_viewConfigType m; m_environmentBlendMode :=
     m_environmentBlendMode m; m_appSpace := m_appSpace m; m_viewSpace :=
     m_viewSpace m; m_referenceSpace := m_referenceSpace m;
     m_requestedReferenceSpace := m_requestedReferenceSpace m;
     m_isEmulatingLocalFloor := m_isEmulatingLocalFloor m;
     m_isFloorResetPending := v; m_availableReferenceSpace :=
     m_availableReferenceSpace m; m_enablePassthrough :=
     m_enablePassthrough m; m_passthroughSupported :=
     m_passthroughSupported m; m_passthroughFeature :=
     m_passthroughFeature m; m_passthroughLayer := m_passthroughLayer m;
     m_views := m_views m; m_configViews := m_configViews m;
     m_projectionLayerViews := m_projectionLayerViews m; m_swapchains :=
     m_swapchains m; m_multiviewRendering := m_multiviewRendering m;
     m_xrOrigin := m_xrOrigin m; m_spaceExtension := m_spaceExtension m;
     m_handtrackingExtensionSupported := m_handtrackingExtensionSupported
     m; m_handtrackingAimExtensionSupported :=
     m_handtrackingAimExtensionSupported m; m_previousTime :=
     m_previousTime m |}.

Definition set_m_passthroughLayer (v : Z) (m : QOpenXRManager)
  : QOpenXRManager :=
  {| m_instance := m_instance m; m_session := m_session m; m_sessionState
     := m_sessionState m; m_sessionRunning := m_sessionRunning m;
     m_viewConfigType := m_viewConfigType m; m_environmentBlendMode :=
     m_environmentBlendMode m; m_appSpace := m_appSpace m; m_viewSpace :=
     m_viewSpace m; m_referenceSpace := m_referenceSpace m;
     m_requestedReferenceSpace := m_requestedReferenceSpace m;
     m_isEmulatingLocalFloor := m_isEmulatingLocalFloor m;
     m_isFloorResetPending := m_isFloorResetPending m;
     m_availableReferenceSpace := m_availableReferenceSpace m;
     m_enablePassthrough := m_enablePassthrough m; m_passthroughSupported
     := m_passthroughSupported m; m_passthroughFeature :=
     m_passthroughFeature m; m_passthroughLayer := v; m_views := m_views
     m; m_configViews := m_configViews m; m_projectionLayerViews :=
     m_projectionLayerViews m; m_swapchains := m_swapchains m;
     m_multiviewRendering := m_multiviewRendering m; m_xrOrigin :=
     m_xrOrigin m; m_spaceExtension := m_spaceExtension m;
     m_handtrackingExtensionSupported := m_handtrackingExtensionSupported
     m; m_handtrackingAimExtensionSupported :=
     m_handtrackingAimExtensionSupported m; m_previousTime :=
     m_previousTime m |}.

Definition set_m_views (v : list XrView) (m : QOpenXRManager)
  : QOpenXRManager :=
  {| m_instance := m_instance m; m_session := m_session m; m_sessionState
     := m_sessionState m; m_sessionRunning := m_sessionRunning m;
     m_viewConfigType := m_viewConfigType m; m_environmentBlendMode :=
     m_environmentBlendMode m; m_appSpace := m_appSpace m; m_viewSpace :=
     m_viewSpace m; m_referenceSpace := m_referenceSpace m;
     m_requestedReferenceSpace := m_requestedReferenceSpace m;
     m_isEmulatingLocalFloor := m_isEmulatingLocalFloor m;
     m_isFloorResetPending := m_isFloorResetPending m;
     m_availableReferenceSpace := m_availableReferenceSpace m;
     m_enablePassthrough := m_enablePassthrough m; m_passthroughSupported
     := m_passthroughSupported m; m_passthroughFeature :=
     m_passthroughFeature m; m_passthroughLayer := m_passthroughLayer m;
     m_views := v; m_configViews := m_configViews m;
     m_projectionLayerViews := m_projectionLayerViews m; m_swapchains :=
     m_swapchains m; m_multiviewRendering := m_multiviewRendering m;
     m_xrOrigin := m_xrOrigin m; m_spaceExtension := m_spaceExtension m;
     m_handtrackingExtensionSupported := m_handtrackingExtensionSupported
     m; m_handtrackingAimExtensionSupported :=
     m_handtrackingAimExtensionSupported m; m_previousTime :=
     m_previousTime m |}.

Definition set_m_projectionLayerViews (v : list XrCompositionLayerProjectionView) (m : QOpenXRManager)
  : QOpenXRManager :=
  {| m_instance := m_instance m; m_session := m_session m; m_sessionState
     := m_sessionState m; m_sessionRunning := m_sessionRunning m;
     m_viewConfigType := m_viewConfigType m; m_environmentBlendMode :=
     m_environmentBlendMode m; m_appSpace := m_appSpace m; m_viewSpace :=
     m_viewSpace m; m_referenceSpace := m_referenceSpace m;
     m_requestedReferenceSpace := m_requestedReferenceSpace m;
     m_isEmulatingLocalFloor := m_isEmulatingLocalFloor m;
     m_isFloorResetPending := m_isFloorResetPending m;
     m_availableReferenceSpace := m_availableReferenceSpace m;
     m_enablePassthrough := m_enablePassthrough m; m_passthroughSupported
     := m_passthroughSupported m; m_passthroughFeature :=
     m_passthroughFeature m; m_passthroughLayer := m_passthroughLayer m;
     m_views := m_views m; m_configViews := m_configViews m;
     m_projectionLayerViews := v; m_swapchains := m_swapchains m;
     m_multiviewRendering := m_multiviewRendering m; m_xrOrigin :=
     m_xrOrigin m; m_spaceExtension := m_spaceExtension m;
     m_handtrackingExtensionSupported := m_handtrackingExtensionSupported
     m; m_handtrackingAimExtensionSupported :=
     m_handtrackingAimExtensionSupported m; m_previousTime :=
     m_previousTime m |}.

Definition set_m_xrOrigin (v : bool) (m : QOpenXRManager)
  : QOpenXRManager :=
  {| m_instance := m_instance m; m_session := m_session m; m_sessionState
     := m_sessionState m; m_sessionRunning := m_sessionRunning m;
     m_viewConfigType := m_viewConfigType m; m_environmentBlendMode :=
     m_environmentBlendMode m; m_appSpace := m_appSpace m; m_viewSpace :=
     m_viewSpace m; m_referenceSpace := m_referenceSpace m;
     m_requestedReferenceSpace := m_requestedReferenceSpace m;
     m_isEmulatingLocalFloor := m_isEmulatingLocalFloor m;
     m_isFloorResetPending := m_isFloorResetPending m;
     m_availableReferenceSpace := m_availableReferenceSpace m;
     m_enablePassthrough := m_enablePassthrough m; m_passthroughSupported
     := m_passthroughSupported m; m_passthroughFeature :=
     m_passthroughFeature m; m_passthroughLayer := m_passthroughLayer m;
     m_views := m_views m; m_configViews := m_configViews m;
     m_projectionLayerViews := m_projectionLayerViews m; m_swapchains :=
     m_swapchains m; m_multiviewRendering := m_multiviewRendering m;
     m_xrOrigin := v; m_spaceExtension := m_spaceExtension m;
     m_handtrackingExtensionSupported := m_handtrackingExtensionSupported
     m; m_handtrackingAimExtensionSupported :=
     m_handtrackingAimExtensionSupported m; m_previousTime :=
     m_previousTime m |}.

Definition set_m_previousTime (v : Z) (m : QOpenXRManager)
  : QOpenXRManager :=
  {| m_instance := m_instance m; m_session := m_session m; m_sessionState
     := m_sessionState m; m_sessionRunning := m_sessionRunning m;
     m_viewConfigType := m_viewConfigType m; m_environmentBlendMode :=
     m_environmentBlendMode m; m_appSpace := m_appSpace m; m_viewSpace :=
     m_viewSpace m; m_referenceSpace := m_referenceSpace m;
     m_requestedReferenceSpace := m_requestedReferenceSpace m;
     m_isEmulatingLocalFloor := m_isEmulatingLocalFloor m;
     m_isFloorResetPending := m_isFloorResetPending m;
     m_availableReferenceSpace := m_availableReferenceSpace m;
     m_enablePassthrough := m_enablePassthrough m; m_passthroughSupported
     := m_passthroughSupported m; m_passthroughFeature :=
     m_passthroughFeature m; m_passthroughLayer := m_passthroughLayer m;
     m_views := m_views m; m_configViews := m_configViews m;
     m_projectionLayerViews := m_projectionLayerViews m; m_swapchains :=
     m_swapchains m; m_multiviewRendering := m_multiviewRendering m;
     m_xrOrigin := m_xrOrigin m; m_spaceExtension := m_spaceExtension m;
     m_handtrackingExtensionSupported := m_handtrackingExtensionSupported
     m; m_handtrackingAimExtensionSupported :=
     m_handtrackingAimExtensionSupported m; m_previousTime := v |}.

(** The manager together with its surroundings. *)
Record World := mkWorld {
  mgr : QOpenXRManager;
  events : list XrEventData;      (* the runtime's pending event queue *)
  responses : list XrResponse;    (* what the runtime will answer *)
  scene_origin : bool;            (* the imported scene has an XrOrigin *)
  log : list Action
}.

(** A computation either completes with a value and a new world or is
    cut short by a failed [Q_ASSERT] or a null dereference. *)
Definition M (A : Type) : Type := World -> option (A * World).

Definition ret {A} (a : A) : M A := fun w => Some (a, w).

Definition bind {A B} (c : M A) (k : A -> M B) : M B :=
  fun w => match c w with
           | Some (a, w') => k a w'
           | None => None
           end.

Notation "x <- c ;; k" := (bind c (fun x => k))
  (at level 100, c at next level, right associativity).
Notation "c ;;; k" := (bind c (fun _ => k))
  (at level 100, right associativity).

Definition abort {A} : M A := fun _ => None.

Definition Q_ASSERT (b : bool) : M unit := if b then ret tt else abort.

Definition this : M QOpenXRManager := fun w => Some (mgr w, w).

Definition modify (f : QOpenXRManager -> QOpenXRManager) : M unit :=
  fun w => Some (tt, {| mgr := f (mgr w); events := events w;
                        responses := responses w;
                        scene_origin := scene_origin w; log := log w |}).

Definition tell (a : Action) : M unit :=
  fun w => Some (tt, {| mgr := mgr w; events := events w;
                        responses := responses w;
                        scene_origin := scene_origin w;
                        log := log w ++ [a] |}).

Definition emit (s : Signal) : M unit := tell (Emit s).

Definition when (b : bool) (c : M unit) : M unit := if b then c else ret tt.

(** The answer to a call past the end of the script. *)
Definition noResponse : XrResponse :=
  {| result := XR_ERROR_RUNTIME_FAILURE; out_space := XR_NULL_HANDLE;
     out_location := {| locationFlags := 0; pose := identityPose |};
     out_frameState := {| predictedDisplayTime := 0;
                          predictedDisplayPeriod := 0;
                          shouldRender := XR_FALSE |};
     out_viewCountOutput := 0; out_views := []; out_imageIndex := 0;
     out_layer := XR_NULL_HANDLE |}.

(** A call to the runtime: logged, and answered by the next response of
    the script ([noResponse] past its end). *)
Definition call (c : XrCall) : M XrResponse :=
  fun w =>
    Some (hd noResponse (responses w),
          {| mgr := mgr w; events := events w;
             responses := tl (responses w);
             scene_origin := scene_origin w;
             log := log w ++ [Call c] |}).

Section Manager.

(** [OpenXRHelpers::checkXrResult] is declared in [qopenxrhelpers_p.h]
    and defined outside the sources: it reports whether the result
    counts as a success (and logs it otherwise). *)
Variable checkXrResult : XrResult -> bool.

Definition isReferenceSpaceAvailable (type : XrReferenceSpaceType)
  : M bool :=
  m <- this ;;
  ret (existsb (XrReferenceSpaceType_eqb type) (m_availableReferenceSpace m)).

Definition setupAppSpace : M bool :=
  m <- this ;;
  Q_ASSERT (negb (m_session m =? XR_NULL_HANDLE)) ;;;
  modify (set_m_isEmulatingLocalFloor false) ;;;
  requestedAvailable <-
    isReferenceSpaceAvailable (m_requestedReferenceSpace m) ;;
  stageAvailable <- isReferenceSpaceAvailable XR_REFERENCE_SPACE_TYPE_STAGE ;;
  newReferenceSpace <-
    (if requestedAvailable then ret (m_requestedReferenceSpace m)
     else if XrReferenceSpaceType_eqb (m_requestedReferenceSpace m)
               XR_REFERENCE_SPACE_TYPE_LOCAL_FLOOR_EXT
             && stageAvailable
     then
       modify (set_m_isEmulatingLocalFloor true) ;;;
       modify (set_m_isFloorResetPending true) ;;;
       ret XR_REFERENCE_SPACE_TYPE_LOCAL
     else
       (* qWarning("Requested reference space is not available") *)
       ret XR_REFERENCE_SPACE_TYPE_LOCAL) ;;
  (* App Space *)
  let referenceSpaceCreateInfo :=
    {| referenceSpaceType := newReferenceSpace;
       poseInReferenceSpace := identityPose |} in
  r <- call (xrCreateReferenceSpace (m_session m) referenceSpaceCreateInfo) ;;
  if negb (checkXrResult (result r)) then
    (* qWarning("Failed to create app space") *)
    ret false
  else
    let newAppSpace := out_space r in
    m <- this ;;
    when (negb (m_appSpace m =? XR_NULL_HANDLE))
      (_ <- call (xrDestroySpace (m_appSpace m)) ;; ret tt) ;;;
    modify (set_m_appSpace newAppSpace) ;;;
    modify (set_m_referenceSpace newReferenceSpace) ;;;
    (* only broadcast the reference space change if we are not emulating
       the local floor since we'll try and change the referenceSpace again
       once we have tracking *)
    m <- this ;;
    when (negb (m_isFloorResetPending m)) (emit referenceSpaceChanged) ;;;
    ret true.

Definition resetEmulatedFloorHeight (predictedDisplayTime : Z) : M bool :=
  m <- this ;;
  Q_ASSERT (m_isEmulatingLocalFloor m) ;;;
  modify (set_m_isFloorResetPending false) ;;;
  let createInfo :=
    {| referenceSpaceType := XR_REFERENCE_SPACE_TYPE_LOCAL;
       poseInReferenceSpace := identityPose |} in
  rl <- call (xrCreateReferenceSpace (m_session m) createInfo) ;;
  if negb (checkXrResult (result rl)) then
    (* qWarning("Failed to create local space ...") *)
    ret false
  else
    let localSpace := out_space rl in
    let createInfo :=
      {| referenceSpaceType := XR_REFERENCE_SPACE_TYPE_STAGE;
         poseInReferenceSpace := poseInReferenceSpace createInfo |} in
    rs <- call (xrCreateReferenceSpace (m_session m) createInfo) ;;
    if negb (checkXrResult (result rs)) then
      (* qWarning("Failed to create stage space ...") *)
      _ <- call (xrDestroySpace localSpace) ;;
      ret false
    else
      let stageSpace := out_space rs in
      rloc <- call (xrLocateSpace stageSpace localSpace
                      predictedDisplayTime) ;;
      if negb (checkXrResult (result rloc)) then
        (* qWarning("Failed to locate STAGE space in LOCAL space ...") *)
        _ <- call (xrDestroySpace localSpace) ;;
        _ <- call (xrDestroySpace stageSpace) ;;
        ret false
      else
        let stageLocation := out_location rloc in
        _ <- call (xrDestroySpace localSpace) ;;
        _ <- call (xrDestroySpace stageSpace) ;;
        let createInfo :=
          {| referenceSpaceType := XR_REFERENCE_SPACE_TYPE_LOCAL;
             poseInReferenceSpace :=
               set_position_y (y (position (pose stageLocation)))
                 (poseInReferenceSpace createInfo) |} in
        rn <- call (xrCreateReferenceSpace (m_session m) createInfo) ;;
        if negb (checkXrResult (result rn)) then
          (* qWarning("Failed to recreate emulated LOCAL_FLOOR play
             space with latest floor estimate") *)
          ret false
        else
          let newAppSpace := out_space rn in
          m <- this ;;
          _ <- call (xrDestroySpace (m_appSpace m)) ;;
          modify (set_m_appSpace newAppSpace) ;;;
          modify (set_m_referenceSpace
                    XR_REFERENCE_SPACE_TYPE_LOCAL_FLOOR_EXT) ;;;
          emit referenceSpaceChanged ;;;
          ret true.

Definition updateAppSpace (predictedDisplayTime : Z) : M unit :=
  (* If the requested reference space is not the current one, we need to
     re-create the app space now *)
  m <- this ;;
  proceed <-
    (if negb (XrReferenceSpaceType_eqb (m_requestedReferenceSpace m)
                (m_referenceSpace m))
        && negb (m_isFloorResetPending m)
     then
       ok <- setupAppSpace ;;
       if negb ok then
         (* If we can't set the requested reference space, use the
            current one *)
         m <- this ;;
         modify (set_m_requestedReferenceSpace (m_referenceSpace m)) ;;;
         ret false
       else ret true
     else ret true) ;;
  if negb proceed then ret tt
  else
    (* This happens when we setup the emulated LOCAL_FLOOR mode *)
    m <- this ;;
    if m_isFloorResetPending m then
      ok <- resetEmulatedFloorHeight predictedDisplayTime ;;
      when (negb ok)
        ((* It didn't work, so give up and use local space (which is
            already setup). *)
         modify (set_m_requestedReferenceSpace
                   XR_REFERENCE_SPACE_TYPE_LOCAL) ;;;
         emit referenceSpaceChanged)
    else ret tt.

(** The lambda [handleSessionStateChangedEvent] of [pollEvents]; the two
    output parameters are passed in and returned. *)
Definition handleSessionStateChangedEvent
    (session : Z) (state : XrSessionState) (time : Z)
    (exitRenderLoop requestRestart : bool) : M (bool * bool) :=
  modify (set_m_sessionState state) ;;;
  (* qDebug("XrEventDataSessionStateChanged: state %s->%s time=%lld") *)
  m <- this ;;
  if negb (session =? XR_NULL_HANDLE) && negb (session =? m_session m) then
    (* qDebug("XrEventDataSessionStateChanged for unknown session") *)
    ret (exitRenderLoop, requestRestart)
  else
    match m_sessionState m with
    | XR_SESSION_STATE_READY =>
        Q_ASSERT (negb (m_session m =? XR_NULL_HANDLE)) ;;;
        _ <- call (xrBeginSession (m_session m) (m_viewConfigType m)) ;;
        modify (set_m_sessionRunning true) ;;;
        ret (exitRenderLoop, requestRestart)
    | XR_SESSION_STATE_STOPPING =>
        Q_ASSERT (negb (m_session m =? XR_NULL_HANDLE)) ;;;
        modify (set_m_sessionRunning false) ;;;
        _ <- call (xrEndSession (m_session m)) ;;
        ret (exitRenderLoop, requestRestart)
    | XR_SESSION_STATE_EXITING =>
        (* Do not attempt to restart because user closed this session. *)
        ret (true, false)
    | XR_SESSION_STATE_LOSS_PENDING =>
        (* Poll for a new instance. *)
        ret (true, true)
    | _ => ret (exitRenderLoop, requestRestart)
    end.

(** What the runtime answers to [xrPollEvent]: with nothing queued
    [XR_EVENT_UNAVAILABLE]; otherwise the result is the next of the
    script and, when that is [XR_SUCCESS], the head of the queue is
    popped into the event buffer. *)
Definition pollRuntime (instance : Z) : M (XrResult * option XrEventData) :=
  fun w =>
    let log' := log w ++ [Call (xrPollEvent instance)] in
    match events w with
    | [] =>
        Some ((XR_EVENT_UNAVAILABLE, None),
              {| mgr := mgr w; events := []; responses := responses w;
                 scene_origin := scene_origin w; log := log' |})
    | e :: rest =>
        let xr := result (hd noResponse (responses w)) in
        if xr =? XR_SUCCESS then
          Some ((xr, Some e),
                {| mgr := mgr w; events := rest;
                   responses := tl (responses w);
                   scene_origin := scene_origin w; log := log' |})
        else
          Some ((xr, None),
                {| mgr := mgr w; events := e :: rest;
                   responses := tl (responses w);
                   scene_origin := scene_origin w; log := log' |})
    end.

(** The lambda [readNextEvent]: the event buffer when [xrPollEvent]
    reports [XR_SUCCESS], null on any other result. *)
Definition readNextEvent : M (option XrEventData) :=
  m <- this ;;
  answer <- pollRuntime (m_instance m) ;;
  let xr := fst answer in
  if xr =? XR_SUCCESS then
    (* qDebug("%d events lost") for XR_TYPE_EVENT_DATA_EVENTS_LOST *)
    ret (snd answer)
  else ret None.

(** The loop [while (event = readNextEvent())] of [pollEvents]; [queue]
    is the runtime's queue at the head of the loop, on which the loop
    recurses. *)
Fixpoint pollEvents_loop (queue : list XrEventData)
    (exitRenderLoop requestRestart : bool) : M (bool * bool) :=
  event <- readNextEvent ;;
  match queue, event with
  | _ :: rest, Some e =>
      match e with
      | XrEventDataInstanceLossPending lossTime =>
          (* qDebug("XrEventDataInstanceLossPending by %lld") *)
          ret (true, true)
      | XrEventDataSessionStateChanged session state time =>
          out <- handleSessionStateChangedEvent session state time
                   exitRenderLoop requestRestart ;;
          pollEvents_loop rest (fst out) (snd out)
      | XrEventDataInteractionProfileChanged =>
          pollEvents_loop rest exitRenderLoop requestRestart
      | XrEventDataSpaceSetStatusCompleteFB
      | XrEventDataSpaceQueryResultsAvailableFB
      | XrEventDataSpaceQueryCompleteFB
      | XrEventDataSceneCaptureCompleteFB =>
          (* Handle these events in the space extension *)
          m <- this ;;
          when (m_spaceExtension m) (tell (SpaceExtension_handleEvent e)) ;;;
          pollEvents_loop rest exitRenderLoop requestRestart
      | _ =>
          (* qDebug("Ignoring event type %d") *)
          pollEvents_loop rest exitRenderLoop requestRestart
      end
  | _, _ => ret (exitRenderLoop, requestRestart)
  end.

(** [pollEvents(&exitRenderLoop, &requestRestart)] *)
Definition pollEvents : M (bool * bool) :=
  fun w => pollEvents_loop (events w) false false w.

Definition createMetaQuestPassthroughLayer : M unit :=
  m <- this ;;
  _ <- call (xrGetInstanceProcAddr (m_instance m)
               "xrCreatePassthroughLayerFB"%string) ;;
  let flags :=
    if m_enablePassthrough m
    then XR_PASSTHROUGH_IS_RUNNING_AT_CREATION_BIT_FB else 0 in
  r <- call (xrCreatePassthroughLayerFB (m_session m)
               (m_passthroughFeature m)
               XR_PASSTHROUGH_LAYER_PURPOSE_RECONSTRUCTION_FB flags) ;;
  modify (set_m_passthroughLayer (out_layer r)).

(** [checkOrigin()]: looks for an XrOrigin in the imported scene when
    none is known yet. *)
Definition checkOrigin : M unit :=
  m <- this ;;
  if negb (m_xrOrigin m) then
    fun w =>
      (if scene_origin w
       then modify (set_m_xrOrigin true) ;;; emit xrOriginChanged
       else ret tt) w
  else ret tt.

(** [doRender(subImage, swapchainImage)]: one Qt Quick render pass into
    the image; the [frameReady] signal of a texture render target is part
    of it. *)
Definition doRender (subImage : XrSwapchainSubImage)
    (swapchainImage : Z * Z) : M unit :=
  m <- this ;;
  arraySize <-
    (if m_multiviewRendering m
     then match m_swapchains m !! 0%nat with
          | Some sc => ret (arraySize sc)
          | None => abort
          end
     else ret 1) ;;
  tell (DoRender subImage swapchainImage arraySize).

(** In [renderLayer]: "Before rendering individual views, advance the
    animation driver once according to the expected display time".
    Integer division truncates towards zero. *)
Definition advanceAnimationDriver
    (predictedDisplayTime predictedDisplayPeriod : Z) : M unit :=
  m <- this ;;
  let displayPeriodMS := Z.quot predictedDisplayPeriod 1000000 in
  let displayDeltaMS :=
    Z.quot (predictedDisplayTime - m_previousTime m) 1000000 in
  (if m_previousTime m =? 0 then
     tell (AnimationDriver_setStep displayPeriodMS)
   else
     (if displayDeltaMS >? displayPeriodMS
      then tell (AnimationDriver_setStep displayPeriodMS)
      else tell (AnimationDriver_setStep displayDeltaMS)) ;;;
     tell AnimationDriver_advance) ;;;
  modify (set_m_previousTime predictedDisplayTime).

(** [for (i = 0; i < n; i++) body(i)] *)
Fixpoint forM_ {A} (l : list A) (body : A -> M unit) : M unit :=
  match l with
  | [] => ret tt
  | a :: rest => body a ;;; forM_ rest body
  end.

Definition upto (n : Z) : list nat := seq 0 (Z.to_nat n).

(** [xrLocateViews] writes the located views over the head of
    [m_views]. *)
Definition writeViews (old new : list XrView) : list XrView :=
  firstn (length old) new ++ skipn (length new) old.

(** [m_projectionLayerViews[i].pose = m_views[i].pose] and the same for
    [fov]; with [subImage] given, it is stored first. *)
Definition updateProjectionLayerView (i : nat)
    (newSubImage : option XrSwapchainSubImage) : M unit :=
  m <- this ;;
  match m_projectionLayerViews m !! i, m_views m !! i with
  | Some pv, Some v =>
      let pv' :=
        {| pv_pose := view_pose v; pv_fov := view_fov v;
           subImage := match newSubImage with
                       | Some si => si
                       | None => subImage pv
                       end |} in
      modify (set_m_projectionLayerViews
                (<[i := pv']> (m_projectionLayerViews m)))
  | _, _ => abort
  end.

(** [renderLayer]; the projection layer it fills in is returned with the
    result. Frame capture ([QT_CONFIG(graphicsframecapture)]) is not
    configured. [m_xrOrigin->camera()] is a null dereference when no
    origin is known. *)
Definition renderLayer (predictedDisplayTime predictedDisplayPeriod : Z)
    (layerFlags : Z) : M (bool * XrCompositionLayer) :=
  m <- this ;;
  let viewCapacityInput := Z.of_nat (length (m_views m)) in
  (* Check if we need to update the app space before we use it *)
  updateAppSpace predictedDisplayTime ;;;
  m <- this ;;
  r <- call (xrLocateViews (m_session m) (m_viewConfigType m)
               predictedDisplayTime (m_appSpace m) viewCapacityInput) ;;
  modify (set_m_views (writeViews (m_views m) (out_views r))) ;;;
  let res := result r in
  let viewCountOutput := out_viewCountOutput r in
  if XR_UNQUALIFIED_SUCCESS res then
    Q_ASSERT (viewCountOutput =? viewCapacityInput) ;;;
    Q_ASSERT (viewCountOutput =? Z.of_nat (length (m_configViews m))) ;;;
    Q_ASSERT (viewCountOutput
              =? Z.of_nat (length (m_projectionLayerViews m))) ;;;
    (if m_multiviewRendering m
     then match m_swapchains m !! 0%nat with
          | Some sc => Q_ASSERT (viewCountOutput =? arraySize sc)
          | None => abort
          end
     else Q_ASSERT (viewCountOutput =? Z.of_nat (length (m_swapchains m)))) ;;;
    (* Check for XrOrigin *)
    checkOrigin ;;;
    (* Update the camera/head position *)
    rl <- call (xrLocateSpace (m_viewSpace m) (m_appSpace m)
                  predictedDisplayTime) ;;
    m <- this ;;
    (if checkXrResult (result rl)
     then if m_xrOrigin m
          then tell (Camera_setPose (pose (out_location rl)))
          else abort
     else ret tt) ;;;
    (* Set the hand positions *)
    tell (InputManager_updatePoses predictedDisplayTime (m_appSpace m)) ;;;
    (* Spatial Anchors *)
    when (m_spaceExtension m)
      (tell (SpaceExtension_updateAnchors predictedDisplayTime
               (m_appSpace m))) ;;;
    when (m_handtrackingExtensionSupported m)
      (tell (InputManager_updateHandtracking predictedDisplayTime
               (m_appSpace m) (m_handtrackingAimExtensionSupported m))) ;;;
    advanceAnimationDriver predictedDisplayTime predictedDisplayPeriod ;;;
    (if m_multiviewRendering m then
       match m_swapchains m !! 0%nat with
       | None => abort
       | Some swapchain =>
           (* Acquire the swapchain image array *)
           ra <- call (xrAcquireSwapchainImage (handle swapchain)) ;;
           let swapchainImageIndex := out_imageIndex ra in
           _ <- call (xrWaitSwapchainImage (handle swapchain)
                        XR_INFINITE_DURATION) ;;
           let swapchainImage := (handle swapchain, swapchainImageIndex) in
           forM_ (upto viewCountOutput)
             (fun i => updateProjectionLayerView i None) ;;;
           tell (UpdateCameraMultiview 0 viewCountOutput) ;;;
           m <- this ;;
           match m_projectionLayerViews m !! 0%nat with
           | Some pv0 => doRender (subImage pv0) swapchainImage
           | None => abort
           end ;;;
           (* release the swapchain image array *)
           _ <- call (xrReleaseSwapchainImage (handle swapchain)) ;;
           ret tt
       end
     else
       forM_ (upto viewCountOutput)
         (fun i =>
            (* Each view has a separate swapchain which is acquired,
               rendered to, and released. *)
            m <- this ;;
            match m_swapchains m !! i, m_projectionLayerViews m !! i with
            | Some viewSwapchain, Some pv =>
                ra <- call (xrAcquireSwapchainImage (handle viewSwapchain)) ;;
                let swapchainImageIndex := out_imageIndex ra in
                _ <- call (xrWaitSwapchainImage (handle viewSwapchain)
                             XR_INFINITE_DURATION) ;;
                let swapchainImage :=
                  (handle viewSwapchain, swapchainImageIndex) in
                updateProjectionLayerView i
                  (Some {| swapchain := handle viewSwapchain;
                           imageRectWidth := imageRectWidth (subImage pv);
                           imageRectHeight := imageRectHeight (subImage pv);
                           imageArrayIndex := 0 |}) ;;;
                m <- this ;;
                match m_projectionLayerViews m !! i with
                | Some pv' =>
                    tell (UpdateCameraNonMultiview (Z.of_nat i) pv') ;;;
                    doRender (subImage pv') swapchainImage
                | None => abort
                end ;;;
                _ <- call (xrReleaseSwapchainImage (handle viewSwapchain)) ;;
                ret tt
            | _, _ => abort
            end)) ;;;
    m <- this ;;
    ret (true,
         XrCompositionLayerProjection layerFlags (m_appSpace m)
           (m_projectionLayerViews m))
  else
    (* qDebug("xrLocateViews returned qualified success code: %s") *)
    ret (false, XrCompositionLayerProjection layerFlags XR_NULL_HANDLE []).

Definition renderFrame : M unit :=
  m <- this ;;
  Q_ASSERT (negb (m_session m =? XR_NULL_HANDLE)) ;;;
  rw <- call (xrWaitFrame (m_session m)) ;;
  let frameState := out_frameState rw in
  _ <- call (xrBeginFrame (m_session m)) ;;
  layers <-
    (if m_enablePassthrough m && m_passthroughSupported m then
       when (m_passthroughLayer m =? XR_NULL_HANDLE)
         createMetaQuestPassthroughLayer ;;;
       m <- this ;;
       ret [XrCompositionLayerPassthroughFB (m_passthroughLayer m)
              XR_COMPOSITION_LAYER_BLEND_TEXTURE_SOURCE_ALPHA_BIT
              XR_NULL_HANDLE]
     else ret []) ;;
  let layerFlags :=
    Z.lor (Z.lor XR_COMPOSITION_LAYER_BLEND_TEXTURE_SOURCE_ALPHA_BIT
                 XR_COMPOSITION_LAYER_CORRECT_CHROMATIC_ABERRATION_BIT)
          XR_COMPOSITION_LAYER_UNPREMULTIPLIED_ALPHA_BIT in
  layers <-
    (if shouldRender frameState =? XR_TRUE then
       rendered <- renderLayer (predictedDisplayTime frameState)
                     (predictedDisplayPeriod frameState) layerFlags ;;
       if fst rendered then ret (layers ++ [snd rendered]) else ret layers
     else ret layers) ;;
  m <- this ;;
  let frameEndInfo :=
    {| displayTime := predictedDisplayTime frameState;
       environmentBlendMode :=
         if negb (m_enablePassthrough m) then m_environmentBlendMode m
         else XR_ENVIRONMENT_BLEND_MODE_OPAQUE;
       layers := layers |} in
  _ <- call (xrEndFrame (m_session m) frameEndInfo) ;;
  ret tt.

Definition processXrEvents : M unit :=
  out <- pollEvents ;;
  let exitRenderLoop := fst out in
  when exitRenderLoop (emit sessionEnded) ;;;
  m <- this ;;
  when (m_sessionRunning m)
    (tell InputManager_pollActions ;;; renderFrame) ;;;
  tell PostUpdateRequest.

End Manager.

(** *** Observations on the log *)

(** The signals emitted, in order. *)
Definition emitted (l : list Action) : list Signal :=
  flat_map (fun a => match a with Emit s => [s] | _ => [] end) l.

(** The layer lists handed to [xrEndFrame], one per frame. *)
Definition submittedLayers (l : list Action)
  : list (list XrCompositionLayer) :=
  flat_map (fun a => match a with
                     | Call (xrEndFrame _ info) => [layers info]
                     | _ => []
                     end) l.

Definition isProjection (layer : XrCompositionLayer) : bool :=
  match layer with
  | XrCompositionLayerProjection _ _ _ => true
  | _ => false
  end.

Definition isDriverAction (a : Action) : bool :=
  match a with
  | AnimationDriver_setStep _ | AnimationDriver_advance => true
  | _ => false
  end.

Definition isRenderAction (a : Action) : bool :=
  match a with
  | DoRender _ _ _ => true
  | _ => false
  end.

(** The animation-driver commands and the render passes, in order. *)
Definition driverAndRender (l : list Action) : list Action :=
  List.filter (fun a => isDriverAction a || isRenderAction a) l.

(** The response the runtime gives to the [i]-th coming call. *)
Definition coming (w : World) (i : nat) : XrResponse :=
  nth i (responses w) noResponse.

(** [w'] has the driver-and-render trace and the previous frame time of
    [w]. *)
Definition same_trace (w w' : World) : Prop :=
  driverAndRender (log w') = driverAndRender (log w)
  /\ m_previousTime (mgr w') = m_previousTime (mgr w).

(** A computation that neither commands the animation driver, nor
    renders, nor touches the previous frame time. *)
Definition quiet {A} (c : M A) : Prop :=
  forall w a w', c w = Some (a, w') -> same_trace w w'.

(** A computation that only adds render passes to the trace. *)
Definition renders_only {A} (c : M A) : Prop :=
  forall w a w',
    c w = Some (a, w') ->
    exists rs,
      driverAndRender (log w') = driverAndRender (log w) ++ rs
      /\ Forall (fun a => isRenderAction a = true) rs
      /\ m_previousTime (mgr w') = m_previousTime (mgr w).


End OpenXR.

(** ** Concrete worlds

    A manager in the state [setupAppSpace] leaves it in when it arms the
    floor emulation, and runtimes that answer every call with success. *)

Module Examples.
Import OpenXR.

Definition checkXrResult (r : XrResult) : bool := r =? XR_SUCCESS.

Definition view0 : XrView := mkView identityPose (mkFov f0 f0 f0 f0).
Definition projectionView0 : XrCompositionLayerProjectionView :=
  mkProjectionView identityPose (mkFov f0 f0 f0 f0) (mkSubImage 0 100 100 0).

Definition manager : QOpenXRManager :=
  {| m_instance := 1; m_session := 2;
     m_sessionState := XR_SESSION_STATE_IDLE; m_sessionRunning := false;
     m_viewConfigType := 2; m_environmentBlendMode := 1;
     m_appSpace := 10; m_viewSpace := 11;
     m_referenceSpace := XR_REFERENCE_SPACE_TYPE_LOCAL;
     m_requestedReferenceSpace := XR_REFERENCE_SPACE_TYPE_LOCAL_FLOOR_EXT;
     m_isEmulatingLocalFloor := true; m_isFloorResetPending := true;
     m_availableReferenceSpace :=
       [XR_REFERENCE_SPACE_TYPE_VIEW; XR_REFERENCE_SPACE_TYPE_LOCAL;
        XR_REFERENCE_SPACE_TYPE_STAGE];
     m_enablePassthrough := false; m_passthroughSupported := false;
     m_passthroughFeature := 0; m_passthroughLayer := 0;
     m_views := [view0; view0];
     m_configViews := [mkConfigView 100 100; mkConfigView 100 100];
     m_projectionLayerViews := [projectionView0; projectionView0];
     m_swapchains := [mkSwapchain 20 1; mkSwapchain 21 1];
     m_multiviewRendering := false;
     m_xrOrigin := true; m_spaceExtension := false;
     m_handtrackingExtensionSupported := false;
     m_handtrackingAimExtensionSupported := false;
     m_previousTime := 0 |}.

(** A successful answer: the space or layer created is [h], the stage is
    located one unit above the local origin, the frame is due at 5 s with
    a period of 11.1 ms and [shouldRender] as given, two views are
    located. *)
Definition success (render : Z) (h : Z) : XrResponse :=
  {| result := XR_SUCCESS; out_space := h;
     out_location :=
       {| locationFlags := 3; pose := set_position_y f1 identityPose |};
     out_frameState := mkFrameState 5000000000 11111111 render;
     out_viewCountOutput := 2; out_views := [view0; view0];
     out_imageIndex := 1; out_layer := h |}.

Definition failure : XrResponse :=
  {| result := XR_ERROR_RUNTIME_FAILURE; out_space := 0;
     out_location := {| locationFlags := 0; pose := identityPose |};
     out_frameState := mkFrameState 0 0 0;
     out_viewCountOutput := 0; out_views := [];
     out_imageIndex := 0; out_layer := 0 |}.

Definition world (m : QOpenXRManager) (script : list XrResponse) : World :=
  {| mgr := m; events := []; responses := script; scene_origin := true;
     log := [] |}.

(** The same manager with the local space requested and in use, and no
    floor emulation. *)
Definition steady : QOpenXRManager :=
  set_m_isFloorResetPending false
    (set_m_isEmulatingLocalFloor false
       (set_m_requestedReferenceSpace XR_REFERENCE_SPACE_TYPE_LOCAL manager)).

Definition allSuccessful : list XrResponse :=
  map (success 1) [100; 101; 102; 103; 104; 105; 106; 107; 108; 109].

(** The first frame: no previous frame time is recorded. *)
Definition firstFrame : World := world steady allSuccessful.

(** A frame 5 ms after the previous one. *)
Definition laterFrame : World :=
  world (set_m_previousTime 4995000000 steady) allSuccessful.

(** The manager before the set-up: the floor-relative space requested,
    no emulation armed. *)
Definition floorRequested : QOpenXRManager :=
  set_m_isFloorResetPending false
    (set_m_isEmulatingLocalFloor false manager).

(** The stage space in use without emulation, and the floor-relative
    space requested at run time. *)
Definition floorRequestedOnStage : QOpenXRManager :=
  set_m_referenceSpace XR_REFERENCE_SPACE_TYPE_STAGE floorRequested.

(** The same manager after a set-up that armed the emulation and whose
    creation call failed. *)
Definition armedOnStage : QOpenXRManager :=
  set_m_isFloorResetPending true
    (set_m_isEmulatingLocalFloor true
       (set_m_requestedReferenceSpace XR_REFERENCE_SPACE_TYPE_STAGE
          floorRequestedOnStage)).

End Examples.

(** ** The particle randomizer

    [QPRand] of [src/quick3dparticles/qquick3dparticlerandomizer_p.h]: a
    list of pre-generated numbers, read by index. [QRandomGenerator] is
    Qt's: its type, its seeding and its [generateDouble] are parameters,
    and so are the two floating-point types and the conversion between
    them, since the numbers are only stored and returned. [int] values
    are integers in [Z], within the range in which the source does not
    overflow. [QList::at] asserts that the index is within the list and
    [%] by zero is undefined: both are failures here. *)

Module QPRand.

(** [enum UserType] *)
Inductive UserType :=
| Default
| WanderXPS
| WanderYPS
| WanderZPS
| WanderXPV
| WanderYPV
| WanderZPV
| WanderXAV
| WanderYAV
| WanderZAV
| AttractorDurationV
| AttractorPosVX
| AttractorPosVY
| AttractorPosVZ
| Shape1
| Shape2
| Shape3
| Shape4
| DeterministicSeparator
| LifeSpanV
| ScaleV
| RotXV
| RotYV
| RotZV
| RotXVV
| RotYVV
| RotZVV
| ColorRV
| ColorGV
| ColorBV
| ColorAV
| TDirPosXV
| TDirPosYV
| TDirPosZV
| TDirMagV
| VDirXV
| VDirYV
| VDirZV.

(** The enumerators are numbered from 0 in the order of declaration. *)
Definition UserType_value (user : UserType) : Z :=
  match user with
  | Default => 0
  | WanderXPS => 1
  | WanderYPS => 2
  | WanderZPS => 3
  | WanderXPV => 4
  | WanderYPV => 5
  | WanderZPV => 6
  | WanderXAV => 7
  | WanderYAV => 8
  | WanderZAV => 9
  | AttractorDurationV => 10
  | AttractorPosVX => 11
  | AttractorPosVY => 12
  | AttractorPosVZ => 13
  | Shape1 => 14
  | Shape2 => 15
  | Shape3 => 16
  | Shape4 => 17
  | DeterministicSeparator => 18
  | LifeSpanV => 19
  | ScaleV => 20
  | RotXV => 21
  | RotYV => 22
  | RotZV => 23
  | RotXVV => 24
  | RotYVV => 25
  | RotZVV => 26
  | ColorRV => 27
  | ColorGV => 28
  | ColorBV => 29
  | ColorAV => 30
  | TDirPosXV => 31
  | TDirPosYV => 32
  | TDirPosZV => 33
  | TDirMagV => 34
  | VDirXV => 35
  | VDirYV => 36
  | VDirZV => 37
  end.

(** The range of [int]. *)
Definition INT_MIN : Z := -2147483648.
Definition INT_MAX : Z := 2147483647.

Section Generator.

Variables QRandomGenerator double float : Type.

(** [QRandomGenerator::seed(quint32)] *)
Variable seed : QRandomGenerator -> Z -> QRandomGenerator.

(** [QRandomGenerator::generateDouble()] *)
Variable generateDouble : QRandomGenerator -> double * QRandomGenerator.

(** The conversion [float(double)] *)
Variable float_of_double : double -> float.

Record QPRand := mkQPRand {
  m_generator : QRandomGenerator;
  m_size : Z;
  m_index : Z;
  m_deterministic : bool;
  m_randomList : list float
}.

(** [QList<float>::at(i)] *)
Definition at_ (l : list float) (i : Z) : option float :=
  if i <? 0 then None else l !! Z.to_nat i.

(** [for (int i = 0; i < m_size; i++)
      m_randomList << float(m_generator.generateDouble());]
    with [n] rounds to go. *)
Fixpoint fill (n : nat) (g : QRandomGenerator) (l : list float)
  : QRandomGenerator * list float :=
  match n with
  | O => (g, l)
  | S n' =>
      let '(d, g) := generateDouble g in
      fill n' g (l ++ [float_of_double d])
  end.

(** [init(seed, size)]; [clear] empties the list and [reserve] does not
    change its contents. *)
Definition init (seed_ : Z) (size : Z) (r : QPRand) : QPRand :=
  let m_size := size in
  let g := seed (m_generator r) seed_ in
  let '(g, l) := fill (Z.to_nat m_size) g [] in
  {| m_generator := g; m_size := m_size; m_index := m_index r;
     m_deterministic := m_deterministic r; m_randomList := l |}.

Definition setDeterministic (deterministic : bool) (r : QPRand) : QPRand :=
  {| m_generator := m_generator r; m_size := m_size r;
     m_index := m_index r; m_deterministic := deterministic;
     m_randomList := m_randomList r |}.

(** [get()]: the next number of the list, returned with the object as
    the call leaves it. The index is stored before the list is read. *)
Definition get (r : QPRand) : option (float * QPRand) :=
  let m_index := if m_index r <? m_size r - 1 then m_index r + 1 else 0 in
  let r := {| m_generator := m_generator r; m_size := m_size r;
              m_index := m_index; m_deterministic := m_deterministic r;
              m_randomList := m_randomList r |} in
  match at_ (m_randomList r) m_index with
  | Some x => Some (x, r)
  | None => None
  end.

(** [a + b] on [int]: the sum when it is an [int]. An overflow of the
    signed addition is undefined; the model fails there. *)
Definition int_add (a b : Z) : option Z :=
  let sum := a + b in
  if (INT_MIN <=? sum) && (sum <=? INT_MAX) then Some sum else None.

(** [get(particleIndex, user)]; [%] truncates towards zero and is
    undefined for a divisor 0. *)
Definition get_user (particleIndex : Z) (user : UserType) (r : QPRand)
  : option (float * QPRand) :=
  if negb (m_deterministic r)
     && (UserType_value user >? UserType_value DeterministicSeparator)
  then get r
  else
    match int_add particleIndex (UserType_value user) with
    | None => None
    | Some sum =>
        if m_size r =? 0 then None
        else
          let i := Z.rem sum (m_size r) in
          match at_ (m_randomList r) i with
          | Some x => Some (x, r)
          | None => None
          end
    end.

(** [k] calls of [get()] in a row: the numbers returned, in order, and
    the object after the last call. *)
Fixpoint get_times (k : nat) (r : QPRand) : option (list float * QPRand) :=
  match k with
  | O => Some ([], r)
  | S k' =>
      match get r with
      | Some (x, r) =>
          match get_times k' r with
          | Some (xs, r) => Some (x :: xs, r)
          | None => None
          end
      | None => None
      end
  end.

End Generator.

Arguments mkQPRand {QRandomGenerator float}.
Arguments m_generator {QRandomGenerator float}.
Arguments m_size {QRandomGenerator float}.
Arguments m_index {QRandomGenerator float}.
Arguments m_deterministic {QRandomGenerator float}.
Arguments m_randomList {QRandomGenerator float}.
Arguments at_ {float}.
Arguments fill {QRandomGenerator double float}.
Arguments init {QRandomGenerator double float}.
Arguments setDeterministic {QRandomGenerator float}.
Arguments get {QRandomGenerator float}.
Arguments get_user {QRandomGenerator float}.
Arguments get_times {QRandomGenerator float}.

End QPRand.

(** ** What a computation of the manager does to the world

    Relations between the world before and the world after, which every
    completed run of a computation satisfies. *)

Module Effects.
Import OpenXR.

(** Every completed run of [c] takes the world along [R]. *)
Definition steps {A} (R : World -> World -> Prop) (c : M A) : Prop :=
  forall w a w', c w = Some (a, w') -> R w w'.

(** Every value [c] returns satisfies [P]. *)
Definition returns {A} (P : A -> Prop) (c : M A) : Prop :=
  forall w a w', c w = Some (a, w') -> P a.

(** The log has grown by at least [n] entries. *)
Definition grows (n : nat) (w w' : World) : Prop :=
  (length (log w) + n <= length (log w'))%nat.

(** No frame was ended, and the members the end of the frame reads are
    as they were. *)
Definition frame_kept (w w' : World) : Prop :=
  submittedLayers (log w') = submittedLayers (log w)
  /\ m_session (mgr w') = m_session (mgr w)
  /\ m_enablePassthrough (mgr w') = m_enablePassthrough (mgr w)
  /\ m_passthroughSupported (mgr w') = m_passthroughSupported (mgr w)
  /\ m_environmentBlendMode (mgr w') = m_environmentBlendMode (mgr w)
  /\ m_passthroughLayer (mgr w') = m_passthroughLayer (mgr w).

(** The actions other than the end of a frame and the signal that the
    session has ended. *)
Definition plain (a : Action) : Prop :=
  match a with
  | Call (xrEndFrame _ _) => False
  | Emit sessionEnded => False
  | _ => True
  end.

Definition isSessionEnded (a : Action) : bool :=
  match a with
  | Emit sessionEnded => true
  | _ => false
  end.

(** No [sessionEnded] was emitted. *)
Definition ended_kept (w w' : World) : Prop :=
  List.filter isSessionEnded (log w') = List.filter isSessionEnded (log w).

(** The calls on swapchain images and the render passes. *)
Definition isSwapchainAction (a : Action) : bool :=
  match a with
  | Call (xrAcquireSwapchainImage _) => true
  | Call (xrWaitSwapchainImage _ _) => true
  | Call (xrReleaseSwapchainImage _) => true
  | DoRender _ _ _ => true
  | _ => false
  end.

(** The calls on swapchain images and the render passes, in order. *)
Definition swapchainTrace (l : list Action) : list Action :=
  List.filter isSwapchainAction l.

(** One pass over the swapchain [sc]: an image is acquired and waited
    for, rendered into, and released. *)
Definition pass (sc : Swapchain) (imageIndex : Z)
    (target : XrSwapchainSubImage) (count : Z) : list Action :=
  [ Call (xrAcquireSwapchainImage (handle sc));
    Call (xrWaitSwapchainImage (handle sc) XR_INFINITE_DURATION);
    DoRender target (handle sc, imageIndex) count;
    Call (xrReleaseSwapchainImage (handle sc)) ].

(** No swapchain image was touched and nothing was rendered; the
    swapchains and the rendering mode are as they were. *)
Definition swap_kept (w w' : World) : Prop :=
  swapchainTrace (log w') = swapchainTrace (log w)
  /\ m_swapchains (mgr w') = m_swapchains (mgr w)
  /\ m_multiviewRendering (mgr w') = m_multiviewRendering (mgr w).

(** The swapchain trace has grown by [l]; the swapchains and the
    rendering mode are as they were. *)
Definition swapchain_adds (l : list Action) (w w' : World) : Prop :=
  swapchainTrace (log w') = swapchainTrace (log w) ++ l
  /\ m_swapchains (mgr w') = m_swapchains (mgr w)
  /\ m_multiviewRendering (mgr w') = m_multiviewRendering (mgr w).

End Effects.

(** * Theorems *)

(** ** Bit-level facts *)

Module U32Facts.

Lemma wrap_small z : 0 <= z < 2 ^ 32 -> U32.wrap z = z.
Proof. intros; unfold U32.wrap; now apply Z.mod_small. Qed.

Lemma not_spec a i :
  0 <= i -> Z.testbit (U32.not a) i = (i <? 32) && negb (Z.testbit a i).
Proof.
  intros Hi; unfold U32.not, U32.wrap.
  destruct (Z.ltb_spec i 32).
  - rewrite Z.mod_pow2_bits_low, Z.lnot_spec by lia. reflexivity.
  - rewrite Z.mod_pow2_bits_high by lia. reflexivity.
Qed.

(** [(1 << w) - 1] is the word with the [w] low bits set. *)
Lemma startValue_ones w :
  0 <= w <= 32 -> U32.wrap (Z.shiftl 1 w - 1) = Z.ones w.
Proof.
  intros Hw. rewrite Z.shiftl_1_l, Z.ones_equiv, Z.sub_1_r.
  apply wrap_small.
  assert (0 < 2 ^ w) by (apply Z.pow_pos_nonneg; lia).
  assert (2 ^ w <= 2 ^ 32) by (apply Z.pow_le_mono_r; lia).
  lia.
Qed.

Lemma shl_no_overflow a b w :
  0 <= b -> 0 <= w -> b + w <= 32 -> 0 <= a < 2 ^ w ->
  U32.shl a b = Z.shiftl a b.
Proof.
  intros Hb Hw Hbw Ha. unfold U32.shl. apply wrap_small.
  rewrite Z.shiftl_mul_pow2 by lia.
  assert (0 < 2 ^ b) by (apply Z.pow_pos_nonneg; lia).
  assert (2 ^ w * 2 ^ b <= 2 ^ 32).
  { rewrite <- Z.pow_add_r by lia. apply Z.pow_le_mono_r; lia. }
  nia.
Qed.

End U32Facts.

Module ShaderKeyFacts.
Import ShaderKeys.

Lemma getMaskTemplate_shiftl w p :
  0 <= w -> 0 <= offset p mod 32 -> offset p mod 32 + w <= 32 ->
  getMaskTemplate w p = Z.shiftl (Z.ones w) (offset p mod 32).
Proof.
  intros Hw Hb Hbw. unfold getMaskTemplate.
  rewrite U32Facts.startValue_ones by lia.
  apply (U32Facts.shl_no_overflow _ _ w); try lia.
  rewrite Z.ones_equiv.
  assert (0 < 2 ^ w) by (apply Z.pow_pos_nonneg; lia). lia.
Qed.

Lemma load_store_eq ds idx v :
  0 <= idx -> (Z.to_nat idx < length ds)%nat -> load (store ds idx v) idx = v.
Proof.
  intros Hidx Hlen. unfold load, store.
  rewrite list_lookup_insert_eq by assumption. reflexivity.
Qed.

(** The field written by [setValue] reads back as the value reduced
    modulo [2 ^ w], whatever the word held before. *)
Lemma field_readback target v w bit :
  0 <= w -> 0 <= bit -> bit + w <= 32 ->
  Z.shiftr
    (Z.land
       (Z.lor (Z.land target (U32.not (Z.shiftl (Z.ones w) bit)))
              (Z.shiftl (v mod 2 ^ w) bit))
       (Z.shiftl (Z.ones w) bit))
    bit
  = v mod 2 ^ w.
Proof.
  intros Hw Hbit Hbw.
  apply Z.bits_inj'. intros i Hi.
  rewrite Z.shiftr_spec, Z.land_spec, Z.lor_spec, Z.land_spec by lia.
  rewrite U32Facts.not_spec by lia.
  rewrite !Z.shiftl_spec by lia.
  replace (i + bit - bit) with i by lia.
  destruct (Z.ltb_spec i w).
  - rewrite Z.ones_spec_low by lia.
    rewrite andb_false_r, andb_false_r, andb_true_r. reflexivity.
  - rewrite Z.ones_spec_high by lia.
    rewrite andb_false_r.
    rewrite Z.mod_pow2_bits_high by lia. reflexivity.
Qed.

End ShaderKeyFacts.

Import ShaderKeys.

(** C2. For an unsigned property of declared width [w] (one of 1, 2, 4, 5,
    6, 8, 16) whose bit range lies within one 32-bit word of the data
    store, [setValue] with any 32-bit value [v] stores [v mod 2^w]: the
    property's field of the written word holds [v mod 2^w], and the
    subsequent [getValue] returns it. *)
Theorem setValue_truncates_to_width
    (w : Z) (p : QSSGShaderKeyPropertyBase) (ds : list Z) (v : Z) :
  In w [1; 2; 4; 5; 6; 8; 16] ->
  0 <= offset p ->
  offset p mod 32 + w <= 32 ->
  (Z.to_nat (getIdx p) < length ds)%nat ->
  0 <= v < 2 ^ 32 ->
  let ds' := Unsigned.setValue w p ds v in
  length ds' = length ds /\
  Unsigned.getValue w p ds' = v mod 2 ^ w /\
  load ds' (getIdx p)
  = Z.lor (Z.land (load ds (getIdx p)) (U32.not (Unsigned.getMask w p)))
          (Z.shiftl (v mod 2 ^ w) (offset p mod 32)).
Proof.
  intros Hw Hoff Hfit Hidx Hv ds'.
  assert (Hw' : 0 <= w <= 16).
  { simpl in Hw. intuition lia. }
  assert (Hbit : 0 <= offset p mod 32 < 32) by (apply Z.mod_pos_bound; lia).
  assert (Hget : Unsigned.getValue w p ds' = v mod 2 ^ w).
  { subst ds'. unfold Unsigned.getValue, Unsigned.setValue, Unsigned.getMask.
    cbv zeta.
    rewrite ShaderKeyFacts.load_store_eq;
      [| unfold getIdx; apply Z.div_pos; lia | assumption ].
    rewrite ShaderKeyFacts.getMaskTemplate_shiftl by lia.
    rewrite U32Facts.startValue_ones by lia.
    rewrite Z.land_ones by lia.
    rewrite (U32Facts.shl_no_overflow _ _ w); try lia.
    - unfold U32.shr. apply ShaderKeyFacts.field_readback; lia.
    - apply Z.mod_pos_bound. apply Z.pow_pos_nonneg; lia. }
  split; [| split].
  - subst ds'. unfold Unsigned.setValue, store. cbv zeta.
    apply length_insert.
  - exact Hget.
  - subst ds'. unfold Unsigned.setValue, Unsigned.getMask. cbv zeta.
    rewrite ShaderKeyFacts.load_store_eq;
      [| unfold getIdx; apply Z.div_pos; lia | assumption ].
    rewrite U32Facts.startValue_ones by lia.
    rewrite Z.land_ones by lia.
    rewrite (U32Facts.shl_no_overflow _ _ w);
      [ reflexivity | lia | lia | lia | ].
    apply Z.mod_pos_bound. apply Z.pow_pos_nonneg; lia.
Qed.

(** Width 2, value 5: the stored value is 1. *)
Lemma setValue_truncates_to_width_witness :
  Unsigned.getValue 2 (mkProp "alphaMode" 294)
    (Unsigned.setValue 2 (mkProp "alphaMode" 294) (repeat 0 10) 5) = 1.
Proof.
  pose proof (setValue_truncates_to_width 2 (mkProp "alphaMode" 294)
                (repeat 0 10) 5) as H.
  simpl in H.
  destruct H as (_ & H & _);
    [ right; left; reflexivity | lia | vm_compute; discriminate
    | vm_compute; lia | lia | ].
  exact H.
Defined.

(** ** Hash and equality of keys *)

Module KeyFacts.
Import ShaderKeys.

(** The comparison loop that stops at the first difference is the
    conjunction of the comparisons. *)
Lemma guarded_fold_forallb {A} (f : A -> bool) (l : list A) (b : bool) :
  fold_left (fun (retval : bool) a => if retval then f a else retval) l b
  = b && forallb f l.
Proof.
  revert b. induction l as [| a l IH]; intros b; simpl.
  - now rewrite andb_true_r.
  - rewrite IH. destruct b; simpl; [reflexivity |].
    reflexivity.
Qed.

Lemma in_indices idx :
  In idx indices <-> 0 <= idx < 10.
Proof. unfold indices. simpl. lia. Qed.

Lemma key_eq_true_iff (k other : QSSGShaderDefaultMaterialKey) :
  key_eq k other = true <->
  (forall idx, 0 <= idx < 10 ->
     load (m_dataBuffer k) idx = load (m_dataBuffer other) idx)
  /\ m_featureSetHash k = m_featureSetHash other.
Proof.
  unfold key_eq. rewrite guarded_fold_forallb, andb_true_l.
  rewrite andb_true_iff, forallb_forall, Z.eqb_eq.
  split; intros [Hw Hf]; (split; [| exact Hf ]).
  - intros idx Hidx. apply Z.eqb_eq, Hw, in_indices, Hidx.
  - intros idx Hidx. apply Z.eqb_eq, Hw, in_indices, Hidx.
Qed.

Lemma hash_words_ext (qHash : Z -> Z) (a b : list Z) (l : list Z) (r : Z) :
  (forall idx, In idx l -> load a idx = load b idx) ->
  fold_left (fun retval idx => Z.lxor retval (qHash (load a idx))) l r
  = fold_left (fun retval idx => Z.lxor retval (qHash (load b idx))) l r.
Proof.
  revert r. induction l as [| i l IH]; intros r H; simpl; [reflexivity |].
  rewrite (H i) by (left; reflexivity).
  apply IH. intros idx Hin. apply H. right. exact Hin.
Qed.

(** Flipping one bit changes the word. *)
Lemma lxor_bit_changes (v bit : Z) : 0 <= bit -> Z.lxor v (2 ^ bit) <> v.
Proof.
  intros Hbit Heq.
  assert (Hz : Z.lxor v (Z.lxor v (2 ^ bit)) = Z.lxor v v) by congruence.
  rewrite <- Z.lxor_assoc, Z.lxor_nilpotent, Z.lxor_0_l in Hz.
  assert (0 < 2 ^ bit) by (apply Z.pow_pos_nonneg; lia). lia.
Qed.

End KeyFacts.

(** C8. Two keys whose ten data words are pairwise equal and whose
    feature-set hashes are equal compare equal under [operator==] and
    have equal [hash()]; [hash()] is the XOR of the hashes of the ten
    words, XORed with the feature-set hash; and a key obtained from
    another by flipping a single bit of one data word compares unequal
    to it. *)
Theorem key_equality_and_hash
    (qHash : Z -> Z) (k other : QSSGShaderDefaultMaterialKey) :
  length (m_dataBuffer k) = DataBufferSize ->
  length (m_dataBuffer other) = DataBufferSize ->
  ((forall idx, 0 <= idx < 10 ->
      load (m_dataBuffer k) idx = load (m_dataBuffer other) idx) ->
   m_featureSetHash k = m_featureSetHash other ->
   key_eq k other = true /\ hash qHash k = hash qHash other)
  /\ hash qHash k
     = Z.lxor (fold_right (fun w acc => Z.lxor (qHash w) acc) 0
                 (m_dataBuffer k))
              (m_featureSetHash k)
  /\ (forall idx bit,
        0 <= idx < 10 -> 0 <= bit < 32 ->
        m_dataBuffer other
        = store (m_dataBuffer k) idx
            (Z.lxor (load (m_dataBuffer k) idx) (2 ^ bit)) ->
        key_eq k other = false).
Proof.
  intros Hlen Hlen'. split; [| split].
  - intros Hwords Hfeat. split.
    + apply KeyFacts.key_eq_true_iff. split; assumption.
    + unfold hash. rewrite Hfeat. f_equal.
      apply KeyFacts.hash_words_ext.
      intros idx Hin. apply Hwords, KeyFacts.in_indices, Hin.
  - destruct k as [buf fh]. simpl in *.
    do 10 (destruct buf as [| ? buf]; [discriminate Hlen |]).
    destruct buf; [| discriminate Hlen ].
    unfold hash, load. simpl.
    rewrite Z.lxor_0_r, !Z.lxor_assoc. reflexivity.
  - intros idx bit Hidx Hbit Hother.
    destruct (key_eq k other) eqn:E; [| reflexivity ].
    apply KeyFacts.key_eq_true_iff in E. destruct E as [Hwords _].
    specialize (Hwords idx Hidx). rewrite Hother in Hwords.
    unfold store, load in Hwords.
    rewrite list_lookup_insert_eq in Hwords
      by (rewrite Hlen; unfold DataBufferSize; lia).
    simpl in Hwords. symmetry in Hwords.
    apply KeyFacts.lxor_bit_changes in Hwords; [contradiction | lia].
Qed.

Lemma key_equality_and_hash_witness :
  key_eq (newKey 7) (newKey 7) = true
  /\ key_eq (newKey 7) (mkKey (store (repeat 0 10) 2 (Z.lxor 0 (2 ^ 9))) 7)
     = false.
Proof.
  destruct (key_equality_and_hash (fun w => w) (newKey 7) (newKey 7)
              eq_refl eq_refl) as (Heq & _ & _).
  destruct (key_equality_and_hash (fun w => w) (newKey 7)
              (mkKey (store (repeat 0 10) 2 (Z.lxor 0 (2 ^ 9))) 7)
              eq_refl eq_refl) as (_ & _ & Hflip).
  split.
  - apply Heq; reflexivity.
  - apply (Hflip 2 9); [lia | lia | reflexivity].
Defined.

(** ** The offset pass *)

Module LayoutFacts.
Import ShaderKeys ShaderKeys.Layout.

(** Every declared property lies within one word of the key. *)
Lemma properties_within_words :
  forallb withinWord (visited defaultMaterialKeyProperties) = true.
Proof. vm_compute. reflexivity. Qed.

(** Distinct declared properties have disjoint bit ranges. *)
Lemma properties_disjoint :
  pairwiseDisjoint (visited defaultMaterialKeyProperties) = true.
Proof. vm_compute. reflexivity. Qed.

(** The pass ends at bit 305, below the capacity asserted by [init]. *)
Lemma bits_consumed : snd (init declared) = 305 /\ 305 < 320.
Proof. split; [vm_compute; reflexivity | lia]. Qed.

(** The visitor moves exactly when the property would reach the last bit
    of the word or go beyond it. *)
Lemma moved_iff (t : PropType) (m_offset : Z) :
  0 <= m_offset -> m_offset + 32 < 2 ^ 32 ->
  moved t m_offset = true <-> m_offset mod 32 + BitWidth t > 31.
Proof.
  intros Hlo Hhi. unfold moved, OffsetVisitor_visit. simpl.
  assert (Hbit : 0 <= m_offset mod 32 < 32) by (apply Z.mod_pos_bound; lia).
  destruct (m_offset mod 32 + BitWidth t >? 31) eqn:E.
  - rewrite U32Facts.wrap_small by lia.
    rewrite negb_true_iff, Z.eqb_neq. split; lia.
  - rewrite Z.eqb_refl. simpl.
    rewrite Z.gtb_ltb in E. apply Z.ltb_ge in E. split; [discriminate | lia].
Qed.

End LayoutFacts.

Import ShaderKeys ShaderKeys.Layout.

(** C3. The offset pass gives every declared property a bit range within
    a single 32-bit word, gives distinct properties disjoint ranges and
    consumes 305 of the 320 bits; but it does not move a property exactly
    when it would cross a word boundary: [light10HasSpot], one bit wide,
    meets the running offset 31, where it would lie within word 0, and is
    moved to bit 32 all the same. *)
Theorem offset_pass_moves_property_that_fits :
  forallb withinWord (visited defaultMaterialKeyProperties) = true
  /\ pairwiseDisjoint (visited defaultMaterialKeyProperties) = true
  /\ snd (init declared) = 305
  /\ offset (nth 9 (m_lightSpotFlags defaultMaterialKeyProperties)
               (named "")) + BitWidth TBoolean = 31
  /\ crosses 31 (BitWidth TBoolean) = false
  /\ OffsetVisitor_visit TBoolean (named "light10HasSpot") 31
     = (mkProp "light10HasSpot" 32, 33)
  /\ nth 10 (m_lightSpotFlags defaultMaterialKeyProperties) (named "")
     = mkProp "light10HasSpot" 32.
Proof.
  split; [exact LayoutFacts.properties_within_words |].
  split; [exact LayoutFacts.properties_disjoint |].
  split; [exact (proj1 LayoutFacts.bits_consumed) |].
  repeat split; vm_compute; reflexivity.
Qed.

(** ** Serialisation *)

(** A key with plain flags, counts, swizzle bits, a texture channel and
    vertex attributes other than joint-and-weight survives the round
    trip. *)
Example round_trip_of_flags_and_numbers :
  let ps := defaultMaterialKeyProperties in
  let ks := m_dataBuffer (newKey 0) in
  let ks := Boolean.setValue (m_hasLighting ps) ks true in
  let ks := Unsigned.setValue 4 (m_lightCount ps) ks 3 in
  let ks := Unsigned.setValue 16 (m_boneCount ps) ks 1234 in
  let ks := TextureSwizzle.setBitValue
              (nth 2 (m_textureSwizzle ps) (named ""))
              TextureSwizzle.L8toR8 true ks in
  let ks := TextureChannel.setTextureChannel
              (nth 1 (m_textureChannels ps) (named ""))
              TextureChannel.B ks in
  let ks := AlphaMode.setAlphaMode (m_alphaMode ps) ks
              MaterialAlphaMode.Blend in
  let ks := VertexAttribute.setBitValue (m_vertexAttributes ps)
              VertexAttribute.Tangent ks true in
  roundTrip (mkKey ks 0) = mkKey ks 0.
Proof. vm_compute. reflexivity. Qed.

(** C1. The round trip through [toString] and [fromString] does not
    reproduce every flag that is set: the key whose only set flag is
    [Enabled] of the diffuse image map serialises it as
    [diffuseMap={enabled=true;;;;;}] and reads it back as not enabled,
    and the vertex attribute [JointAndWeight], written after the closing
    brace, is read back as false too. *)
Theorem round_trip_loses_image_map_and_joint_weight :
  let ps := defaultMaterialKeyProperties in
  let k1 := mkKey (ImageMap.setEnabled diffuseMap
                     (m_dataBuffer (newKey 0)) true) 0 in
  let k2 := mkKey (VertexAttribute.setBitValue (m_vertexAttributes ps)
                     VertexAttribute.JointAndWeight
                     (m_dataBuffer (newKey 0)) true) 0 in
  (ImageMap.isEnabled diffuseMap (m_dataBuffer k1) = true
   /\ QByteArray.indexOf (toString k1 "" ps) "diffuseMap={enabled=true;;;;;}"
      <> -1
   /\ ImageMap.isEnabled diffuseMap (m_dataBuffer (roundTrip k1)) = false
   /\ roundTrip k1 = newKey 0)
  /\ (VertexAttribute.getBitValue (m_vertexAttributes ps)
        VertexAttribute.JointAndWeight (m_dataBuffer k2) = true
      /\ QByteArray.indexOf (toString k2 "" ps)
           "vertexAttributes={;;;;;;}joint&weight=true}" <> -1
      /\ VertexAttribute.getBitValue (m_vertexAttributes ps)
           VertexAttribute.JointAndWeight (m_dataBuffer (roundTrip k2))
         = false
      /\ roundTrip k2 = newKey 0).
Proof.
  vm_compute. repeat split; try reflexivity; discriminate.
Qed.

(** ** The event pump *)

Import OpenXR.

(** C10. A session-state-changed event whose session handle is neither
    null nor the manager's own performs no session action: no call is
    made to the runtime, the session-running flag and the two outputs
    keep their values, and only the recorded session state is updated to
    the event's state. *)
Theorem foreign_session_event_only_records_state
    (w : World) (session : Z) (state : XrSessionState) (time : Z)
    (exitRenderLoop requestRestart : bool) :
  session <> XR_NULL_HANDLE ->
  session <> m_session (mgr w) ->
  exists w',
    handleSessionStateChangedEvent session state time
      exitRenderLoop requestRestart w
    = Some ((exitRenderLoop, requestRestart), w')
    /\ log w' = log w
    /\ responses w' = responses w
    /\ m_sessionRunning (mgr w') = m_sessionRunning (mgr w)
    /\ m_sessionState (mgr w') = state
    /\ mgr w' = set_m_sessionState state (mgr w).
Proof.
  intros Hnull Hother.
  unfold handleSessionStateChangedEvent, bind, modify, this, ret. simpl.
  apply Z.eqb_neq in Hnull, Hother.
  rewrite Hnull, Hother. simpl.
  eexists. split; [reflexivity |]. simpl. repeat split.
Qed.

Lemma foreign_session_event_only_records_state_witness :
  exists w',
    handleSessionStateChangedEvent 7 XR_SESSION_STATE_READY 0 false false
      (Examples.world Examples.manager [])
    = Some ((false, false), w')
    /\ log w' = []
    /\ m_sessionRunning (mgr w') = false.
Proof.
  destruct (foreign_session_event_only_records_state
              (Examples.world Examples.manager [])
              7 XR_SESSION_STATE_READY 0 false false)
    as (w' & Hrun & Hlog & _ & Hrunning & _).
  - discriminate.
  - simpl. discriminate.
  - exists w'. repeat split; assumption.
Defined.

(** A session-state-changed event for another session, in state Ready,
    does not begin the session: the session-state table does not hold for
    every event the pump processes. *)
Lemma ready_event_of_other_session_begins_nothing :
  exists w',
    handleSessionStateChangedEvent 7 XR_SESSION_STATE_READY 0 false false
      (Examples.world Examples.manager [])
    = Some ((false, false), w')
    /\ m_session (mgr w') = 2
    /\ ~ In (Call (xrBeginSession 2 2)) (log w')
    /\ m_sessionRunning (mgr w') = false.
Proof.
  eexists. split; [reflexivity |]. simpl.
  split; [reflexivity |]. split; [| reflexivity ]. intros [].
Qed.

(** C4 (amended). For a session-state-changed event whose session handle
    is null or the manager's own: Ready, with a valid session handle,
    begins the session and sets the session running; Stopping, with a
    valid session handle, clears the running flag and ends the session;
    Exiting sets exit without restart; LossPending sets exit with
    restart; every other state makes no call and leaves the running flag
    and the outputs as they were. The state is recorded in all cases. *)
Theorem session_state_table
    (w : World) (session : Z) (state : XrSessionState) (time : Z)
    (exitRenderLoop requestRestart : bool) :
  session = XR_NULL_HANDLE \/ session = m_session (mgr w) ->
  (state = XR_SESSION_STATE_READY \/ state = XR_SESSION_STATE_STOPPING ->
   m_session (mgr w) <> XR_NULL_HANDLE) ->
  exists w',
    handleSessionStateChangedEvent session state time
      exitRenderLoop requestRestart w
    = Some (match state with
            | XR_SESSION_STATE_EXITING => (true, false)
            | XR_SESSION_STATE_LOSS_PENDING => (true, true)
            | _ => (exitRenderLoop, requestRestart)
            end, w')
    /\ m_sessionState (mgr w') = state
    /\ log w' =
       log w ++
       match state with
       | XR_SESSION_STATE_READY =>
           [Call (xrBeginSession (m_session (mgr w))
                    (m_viewConfigType (mgr w)))]
       | XR_SESSION_STATE_STOPPING =>
           [Call (xrEndSession (m_session (mgr w)))]
       | _ => []
       end
    /\ m_sessionRunning (mgr w') =
       match state with
       | XR_SESSION_STATE_READY => true
       | XR_SESSION_STATE_STOPPING => false
       | _ => m_sessionRunning (mgr w)
       end.
Proof.
  intros Hsession Hvalid.
  assert (Hguard :
            negb (session =? XR_NULL_HANDLE)
            && negb (session =? m_session (mgr w)) = false).
  { destruct Hsession as [-> | ->].
    - reflexivity.
    - rewrite Z.eqb_refl. apply andb_false_r. }
  unfold handleSessionStateChangedEvent, bind, modify, this, ret. simpl.
  rewrite Hguard.
  destruct state; simpl;
    try (eexists; split; [reflexivity |]; simpl;
         rewrite ?app_nil_r; repeat split; reflexivity).
  - (* Ready *)
    assert (Hs : (m_session (mgr w) =? XR_NULL_HANDLE) = false)
      by (apply Z.eqb_neq, Hvalid; left; reflexivity).
    unfold Q_ASSERT, call, bind, ret, modify. simpl. rewrite Hs. simpl.
    eexists; split; [reflexivity |]; simpl; repeat split; reflexivity.
  - (* Stopping *)
    assert (Hs : (m_session (mgr w) =? XR_NULL_HANDLE) = false)
      by (apply Z.eqb_neq, Hvalid; right; reflexivity).
    unfold Q_ASSERT, call, bind, ret, modify. simpl. rewrite Hs. simpl.
    eexists; split; [reflexivity |]; simpl; repeat split; reflexivity.
Qed.

Lemma session_state_table_witness :
  exists w',
    handleSessionStateChangedEvent 2 XR_SESSION_STATE_READY 0 false false
      (Examples.world Examples.manager [Examples.success 1 0])
    = Some ((false, false), w')
    /\ log w' = [Call (xrBeginSession 2 2)]
    /\ m_sessionRunning (mgr w') = true.
Proof.
  destruct (session_state_table
              (Examples.world Examples.manager [Examples.success 1 0])
              2 XR_SESSION_STATE_READY 0 false false)
    as (w' & Hrun & _ & Hlog & Hrunning).
  - right. reflexivity.
  - intros _. simpl. discriminate.
  - exists w'. repeat split; assumption.
Defined.

(** When the poll succeeds, the pump hands a session-state-changed event
    at the head of the queue to the handler, with the outputs as they
    stand, and goes on with the rest of the queue. *)
Lemma pollEvents_dispatches_session_event
    (w : World) (session : Z) (state : XrSessionState) (time : Z)
    (rest : list XrEventData) :
  events w = XrEventDataSessionStateChanged session state time :: rest ->
  result (coming w 0) = XR_SUCCESS ->
  pollEvents w
  = (readNextEvent ;;;
     out <- handleSessionStateChangedEvent session state time false false ;;
     pollEvents_loop rest (fst out) (snd out)) w.
Proof.
  intros Hev Hok. unfold pollEvents. rewrite Hev.
  cbn [pollEvents_loop].
  unfold bind at 1 3, readNextEvent, bind at 1 3, this, bind, pollRuntime.
  rewrite Hev. cbn [mgr events].
  replace (hd noResponse (responses w)) with (coming w 0)
    by (unfold coming; destruct (responses w); reflexivity).
  rewrite Hok. reflexivity.
Qed.

(** ** Floor emulation *)

Lemma emitted_app (l l' : list Action) :
  emitted (l ++ l') = emitted l ++ emitted l'.
Proof. unfold emitted. apply flat_map_app. Qed.

Lemma XrReferenceSpaceType_eqb_refl (t : XrReferenceSpaceType) :
  XrReferenceSpaceType_eqb t t = true.
Proof. destruct t; simpl; auto using Z.eqb_refl. Qed.

(** Runs the monadic code of the manager on a symbolic world. *)
Ltac run :=
  cbv [updateAppSpace resetEmulatedFloorHeight setupAppSpace
       isReferenceSpaceAvailable bind ret this modify tell emit when call
       Q_ASSERT abort]; simpl.

(** When the floor-relative space is requested and the runtime offers
    the stage space but not the floor-relative one, [setupAppSpace] arms
    the emulation before it creates the un-adjusted local space; it
    emits nothing, and when the creation succeeds the local space is the
    one in use. *)
Lemma setupAppSpace_arms_emulation
    (checkXrResult : XrResult -> bool) (w : World) :
  m_session (mgr w) <> XR_NULL_HANDLE ->
  m_requestedReferenceSpace (mgr w) = XR_REFERENCE_SPACE_TYPE_LOCAL_FLOOR_EXT ->
  existsb (XrReferenceSpaceType_eqb XR_REFERENCE_SPACE_TYPE_LOCAL_FLOOR_EXT)
    (m_availableReferenceSpace (mgr w)) = false ->
  existsb (XrReferenceSpaceType_eqb XR_REFERENCE_SPACE_TYPE_STAGE)
    (m_availableReferenceSpace (mgr w)) = true ->
  exists w',
    setupAppSpace checkXrResult w
    = Some (checkXrResult (result (coming w 0)), w')
    /\ m_isFloorResetPending (mgr w') = true
    /\ m_isEmulatingLocalFloor (mgr w') = true
    /\ emitted (log w') = emitted (log w)
    /\ m_requestedReferenceSpace (mgr w')
       = XR_REFERENCE_SPACE_TYPE_LOCAL_FLOOR_EXT
    /\ m_session (mgr w') = m_session (mgr w)
    /\ if checkXrResult (result (coming w 0))
       then m_referenceSpace (mgr w') = XR_REFERENCE_SPACE_TYPE_LOCAL
            /\ m_appSpace (mgr w') = out_space (coming w 0)
       else m_referenceSpace (mgr w') = m_referenceSpace (mgr w)
            /\ m_appSpace (mgr w') = m_appSpace (mgr w).
Proof.
  intros Hsession Hreq Hfloor Hstage.
  assert (Hnth : coming w 0 = hd noResponse (responses w))
    by (unfold coming; destruct (responses w); reflexivity).
  rewrite Hnth. clear Hnth.
  apply Z.eqb_neq in Hsession.
  run. rewrite Hsession. simpl. rewrite Hreq, Hfloor. simpl.
  rewrite Hstage. simpl.
  destruct (checkXrResult (result (hd noResponse (responses w)))); simpl;
    destruct (m_appSpace (mgr w) =? XR_NULL_HANDLE); simpl;
    (eexists; split; [reflexivity |]; simpl;
     rewrite ?emitted_app; simpl; rewrite ?app_nil_r;
     repeat split; try reflexivity; assumption).
Qed.

(** [updateAppSpace] does nothing once the space requested is the one in
    use and no floor reset is pending. *)
Lemma updateAppSpace_idle
    (checkXrResult : XrResult -> bool) (w : World) (t : Z) :
  m_isFloorResetPending (mgr w) = false ->
  m_requestedReferenceSpace (mgr w) = m_referenceSpace (mgr w) ->
  updateAppSpace checkXrResult t w = Some (tt, w).
Proof.
  intros Hp Hreq. run.
  rewrite Hreq, XrReferenceSpaceType_eqb_refl, Hp. simpl.
  rewrite Hp. reflexivity.
Qed.

Lemma XrReferenceSpaceType_differ (a b : XrReferenceSpaceType) :
  a <> b -> XrReferenceSpaceType_eqb a b = false.
Proof.
  intros Hne. destruct (XrReferenceSpaceType_eqb a b) eqn:E; [| reflexivity ].
  exfalso. apply Hne.
  destruct a, b; simpl in E; try discriminate E; try reflexivity.
  apply Z.eqb_eq in E. congruence.
Qed.

(** With no floor reset pending and the local space requested while
    another space is in use, [updateAppSpace] sets up the local space:
    when its creation succeeds the local space is in use from then on
    and [referenceSpaceChanged] is emitted; when it fails the space in
    use stays and becomes the one requested. *)
Lemma updateAppSpace_switches_to_local
    (checkXrResult : XrResult -> bool) (w : World) (t : Z) :
  m_isFloorResetPending (mgr w) = false ->
  m_requestedReferenceSpace (mgr w) = XR_REFERENCE_SPACE_TYPE_LOCAL ->
  m_referenceSpace (mgr w) <> XR_REFERENCE_SPACE_TYPE_LOCAL ->
  m_session (mgr w) <> XR_NULL_HANDLE ->
  exists w',
    updateAppSpace checkXrResult t w = Some (tt, w')
    /\ m_isFloorResetPending (mgr w') = false
    /\ if checkXrResult (result (coming w 0))
       then m_referenceSpace (mgr w') = XR_REFERENCE_SPACE_TYPE_LOCAL
            /\ m_requestedReferenceSpace (mgr w')
               = XR_REFERENCE_SPACE_TYPE_LOCAL
            /\ m_appSpace (mgr w') = out_space (coming w 0)
            /\ emitted (log w') = emitted (log w) ++ [referenceSpaceChanged]
       else m_referenceSpace (mgr w') = m_referenceSpace (mgr w)
            /\ m_requestedReferenceSpace (mgr w') = m_referenceSpace (mgr w)
            /\ m_appSpace (mgr w') = m_appSpace (mgr w)
            /\ emitted (log w') = emitted (log w).
Proof.
  intros Hp Hreq Hother Hsession. unfold coming.
  apply Z.eqb_neq in Hsession.
  assert (Hne : XrReferenceSpaceType_eqb XR_REFERENCE_SPACE_TYPE_LOCAL
                  (m_referenceSpace (mgr w)) = false)
    by (apply XrReferenceSpaceType_differ; congruence).
  assert (Hnth : nth 0 (responses w) noResponse
                 = hd noResponse (responses w))
    by (destruct (responses w); reflexivity).
  rewrite Hnth. clear Hnth.
  run.
  repeat (progress (rewrite ?Hreq, ?Hne, ?Hp, ?Hsession; simpl)).
  destruct (existsb (XrReferenceSpaceType_eqb XR_REFERENCE_SPACE_TYPE_LOCAL)
              (m_availableReferenceSpace (mgr w))); simpl;
    destruct (checkXrResult (result (hd noResponse (responses w))));
    simpl; repeat (progress (rewrite ?Hp; simpl));
    destruct (m_appSpace (mgr w) =? XR_NULL_HANDLE); simpl;
    repeat (progress (rewrite ?Hp; simpl));
    (eexists; split; [reflexivity |]; simpl;
     rewrite ?emitted_app; simpl; rewrite ?app_nil_r;
     repeat split; try reflexivity; try assumption).
Qed.

(** The update in which the floor reset fails: the pending flag is
    cleared, the local space is requested, one [referenceSpaceChanged] is
    emitted, and the space in use is left as it is. *)
Lemma failed_floor_reset_step
    (checkXrResult : XrResult -> bool) (w : World)
    (predictedDisplayTime : Z) :
  m_isFloorResetPending (mgr w) = true ->
  m_isEmulatingLocalFloor (mgr w) = true ->
  checkXrResult (result (coming w 0))
  && checkXrResult (result (coming w 1))
  && checkXrResult (result (coming w 2)) = false ->
  let localSpace := out_space (coming w 0) in
  let stageSpace := out_space (coming w 1) in
  let createLocal :=
    Call (xrCreateReferenceSpace (m_session (mgr w))
            (mkCreateInfo XR_REFERENCE_SPACE_TYPE_LOCAL identityPose)) in
  let createStage :=
    Call (xrCreateReferenceSpace (m_session (mgr w))
            (mkCreateInfo XR_REFERENCE_SPACE_TYPE_STAGE identityPose)) in
  exists w',
    updateAppSpace checkXrResult predictedDisplayTime w = Some (tt, w')
    /\ m_isFloorResetPending (mgr w') = false
    /\ m_requestedReferenceSpace (mgr w') = XR_REFERENCE_SPACE_TYPE_LOCAL
    /\ m_referenceSpace (mgr w') = m_referenceSpace (mgr w)
    /\ m_appSpace (mgr w') = m_appSpace (mgr w)
    /\ m_session (mgr w') = m_session (mgr w)
    /\ emitted (log w') = emitted (log w) ++ [referenceSpaceChanged]
    /\ log w'
       = log w
         ++ (if negb (checkXrResult (result (coming w 0)))
             then [createLocal]
             else if negb (checkXrResult (result (coming w 1)))
             then [createLocal; createStage; Call (xrDestroySpace localSpace)]
             else [createLocal; createStage;
                   Call (xrLocateSpace stageSpace localSpace
                           predictedDisplayTime);
                   Call (xrDestroySpace localSpace);
                   Call (xrDestroySpace stageSpace)])
         ++ [Emit referenceSpaceChanged].
Proof.
  intros Hpending Hemulating Hfail localSpace stageSpace createLocal
    createStage.
  subst localSpace stageSpace createLocal createStage.
  unfold coming in *.
  run. rewrite Hpending, andb_false_r. simpl.
  rewrite Hpending. simpl. rewrite Hemulating. simpl.
  destruct (responses w) as [| r1 [| r2 [| r3 rest]]]; simpl in *;
    repeat
      match goal with
      | |- context [checkXrResult ?r] =>
          let E := fresh "E" in
          destruct (checkXrResult r) eqn:E; simpl in *; try discriminate
      end;
    (eexists; split; [reflexivity |]; simpl;
     repeat (split; [first [ reflexivity | assumption
                           | rewrite !emitted_app; simpl;
                             rewrite ?app_nil_r; reflexivity ] |]);
     rewrite <- ?app_assoc; reflexivity).
Qed.

(** C6. When the floor emulation is pending and creating the temporary
    local space, creating the temporary stage space or locating the
    stage space fails during [updateAppSpace], the manager clears the
    pending flag, requests the local space and emits one
    [referenceSpaceChanged], leaving the space in use as it is. With the
    un-adjusted local space in use every later [updateAppSpace] does
    nothing at all: the fallback is permanent and notified once. With
    another space in use - the state in which [setupAppSpace] leaves the
    manager when it arms the emulation and its creation call then fails -
    the manager is not on the local space: the next [updateAppSpace]
    sets up the local space and emits a second [referenceSpaceChanged]
    when the creation succeeds, and keeps the other space for good when
    it fails. *)
Theorem failed_floor_reset_notifies_again_off_local
    (checkXrResult : XrResult -> bool) (w : World)
    (predictedDisplayTime : Z) :
  m_isFloorResetPending (mgr w) = true ->
  m_isEmulatingLocalFloor (mgr w) = true ->
  checkXrResult (result (coming w 0))
  && checkXrResult (result (coming w 1))
  && checkXrResult (result (coming w 2)) = false ->
  let localSpace := out_space (coming w 0) in
  let stageSpace := out_space (coming w 1) in
  let createLocal :=
    Call (xrCreateReferenceSpace (m_session (mgr w))
            (mkCreateInfo XR_REFERENCE_SPACE_TYPE_LOCAL identityPose)) in
  let createStage :=
    Call (xrCreateReferenceSpace (m_session (mgr w))
            (mkCreateInfo XR_REFERENCE_SPACE_TYPE_STAGE identityPose)) in
  exists w',
    updateAppSpace checkXrResult predictedDisplayTime w = Some (tt, w')
    /\ m_isFloorResetPending (mgr w') = false
    /\ m_requestedReferenceSpace (mgr w') = XR_REFERENCE_SPACE_TYPE_LOCAL
    /\ m_referenceSpace (mgr w') = m_referenceSpace (mgr w)
    /\ m_appSpace (mgr w') = m_appSpace (mgr w)
    /\ log w'
       = log w
         ++ (if negb (checkXrResult (result (coming w 0)))
             then [createLocal]
             else if negb (checkXrResult (result (coming w 1)))
             then [createLocal; createStage; Call (xrDestroySpace localSpace)]
             else [createLocal; createStage;
                   Call (xrLocateSpace stageSpace localSpace
                           predictedDisplayTime);
                   Call (xrDestroySpace localSpace);
                   Call (xrDestroySpace stageSpace)])
         ++ [Emit referenceSpaceChanged]
    /\ emitted (log w') = emitted (log w) ++ [referenceSpaceChanged]
    /\ (m_referenceSpace (mgr w) = XR_REFERENCE_SPACE_TYPE_LOCAL ->
        forall w2 t2,
          mgr w2 = mgr w' ->
          updateAppSpace checkXrResult t2 w2 = Some (tt, w2))
    /\ (m_referenceSpace (mgr w) <> XR_REFERENCE_SPACE_TYPE_LOCAL ->
        m_session (mgr w) <> XR_NULL_HANDLE ->
        forall w2 t2,
          mgr w2 = mgr w' ->
          exists w3,
            updateAppSpace checkXrResult t2 w2 = Some (tt, w3)
            /\ m_isFloorResetPending (mgr w3) = false
            /\ if checkXrResult (result (coming w2 0))
               then m_referenceSpace (mgr w3) = XR_REFERENCE_SPACE_TYPE_LOCAL
                    /\ m_appSpace (mgr w3) = out_space (coming w2 0)
                    /\ emitted (log w3)
                       = emitted (log w2) ++ [referenceSpaceChanged]
               else m_referenceSpace (mgr w3) = m_referenceSpace (mgr w)
                    /\ m_requestedReferenceSpace (mgr w3)
                       = m_referenceSpace (mgr w)
                    /\ m_appSpace (mgr w3) = m_appSpace (mgr w)
                    /\ emitted (log w3) = emitted (log w2)).
Proof.
  intros Hpending Hemulating Hfail localSpace stageSpace createLocal
    createStage.
  destruct (failed_floor_reset_step checkXrResult w predictedDisplayTime
              Hpending Hemulating Hfail)
    as (w' & Hrun & Hp' & Hreq' & Href' & Happ' & Hses' & Hemit' & Hlog').
  exists w'. repeat (split; [assumption |]). split.
  - intros Hlocal w2 t2 Hw2.
    apply updateAppSpace_idle; rewrite Hw2; congruence.
  - intros Hother Hsession w2 t2 Hw2.
    destruct (updateAppSpace_switches_to_local checkXrResult w2 t2)
      as (w3 & Hrun3 & Hp3 & Hcases); rewrite ?Hw2; try congruence.
    exists w3. split; [exact Hrun3 |]. split; [exact Hp3 |].
    rewrite Hw2 in Hcases.
    destruct (checkXrResult (result (coming w2 0)));
      [ destruct Hcases as (A & B & C & D)
      | destruct Hcases as (A & B & C & D) ];
      repeat split; congruence.
Qed.

Lemma failed_floor_reset_notifies_again_off_local_witness :
  exists wS w1 w3,
    updateAppSpace Examples.checkXrResult 5000000000
      (Examples.world Examples.floorRequestedOnStage [Examples.failure])
    = Some (tt, wS)
    /\ mgr wS = Examples.armedOnStage
    /\ updateAppSpace Examples.checkXrResult 5000000000
         (Examples.world Examples.armedOnStage
            [Examples.success 1 100; Examples.success 1 101;
             Examples.failure])
       = Some (tt, w1)
    /\ m_referenceSpace (mgr w1) = XR_REFERENCE_SPACE_TYPE_STAGE
    /\ emitted (log w1) = [referenceSpaceChanged]
    /\ updateAppSpace Examples.checkXrResult 5000000000
         (Examples.world (mgr w1) [Examples.success 1 102])
       = Some (tt, w3)
    /\ m_referenceSpace (mgr w3) = XR_REFERENCE_SPACE_TYPE_LOCAL
    /\ emitted (log w3) = [referenceSpaceChanged].
Proof.
  destruct (failed_floor_reset_notifies_again_off_local
              Examples.checkXrResult
              (Examples.world Examples.armedOnStage
                 [Examples.success 1 100; Examples.success 1 101;
                  Examples.failure])
              5000000000)
    as (w1 & Hrun & _ & _ & Href & _ & _ & Hemit & _ & Hagain);
    [ reflexivity | reflexivity | reflexivity |].
  destruct (Hagain ltac:(discriminate) ltac:(discriminate)
              (Examples.world (mgr w1) [Examples.success 1 102])
              5000000000 eq_refl)
    as (w3 & Hrun3 & _ & Href3 & _ & Hemit3).
  eexists. exists w1, w3.
  split; [vm_compute; reflexivity |].
  split; [reflexivity |].
  repeat split; assumption.
Defined.

(** The update in which the floor reset succeeds. *)
Lemma floor_reset_step
    (checkXrResult : XrResult -> bool) (w : World)
    (predictedDisplayTime : Z) :
  m_isFloorResetPending (mgr w) = true ->
  m_isEmulatingLocalFloor (mgr w) = true ->
  checkXrResult (result (coming w 0)) = true ->
  checkXrResult (result (coming w 1)) = true ->
  checkXrResult (result (coming w 2)) = true ->
  checkXrResult (result (coming w 5)) = true ->
  let localSpace := out_space (coming w 0) in
  let stageSpace := out_space (coming w 1) in
  let stageLocation := out_location (coming w 2) in
  let session := m_session (mgr w) in
  exists w' createInfo,
    updateAppSpace checkXrResult predictedDisplayTime w = Some (tt, w')
    /\ log w' =
       log w ++
       [ Call (xrCreateReferenceSpace session
                 (mkCreateInfo XR_REFERENCE_SPACE_TYPE_LOCAL identityPose));
         Call (xrCreateReferenceSpace session
                 (mkCreateInfo XR_REFERENCE_SPACE_TYPE_STAGE identityPose));
         Call (xrLocateSpace stageSpace localSpace predictedDisplayTime);
         Call (xrDestroySpace localSpace);
         Call (xrDestroySpace stageSpace);
         Call (xrCreateReferenceSpace session createInfo);
         Call (xrDestroySpace (m_appSpace (mgr w)));
         Emit referenceSpaceChanged ]
    /\ referenceSpaceType createInfo = XR_REFERENCE_SPACE_TYPE_LOCAL
    /\ y (position (poseInReferenceSpace createInfo))
       = y (position (pose stageLocation))
    /\ m_appSpace (mgr w') = out_space (coming w 5)
    /\ m_referenceSpace (mgr w') = XR_REFERENCE_SPACE_TYPE_LOCAL_FLOOR_EXT
    /\ m_isFloorResetPending (mgr w') = false
    /\ m_requestedReferenceSpace (mgr w') = m_requestedReferenceSpace (mgr w).
Proof.
  intros Hpending Hemulating H0 H1 H2 H5. unfold coming in *.
  run. rewrite Hpending, andb_false_r. simpl.
  rewrite Hpending. simpl. rewrite Hemulating. simpl.
  destruct (responses w) as [| r0 [| r1 [| r2 [| r3 [| r4 [| r5 rest]]]]]];
    simpl in *;
    repeat (progress (rewrite ?H0, ?H1, ?H2, ?H5; simpl));
    (do 2 eexists; split; [reflexivity |]; simpl;
     rewrite <- !app_assoc; simpl; repeat split; reflexivity).
Qed.

(** With the request differing from the space in use and no reset
    pending, [updateAppSpace] starts with [setupAppSpace]: after a
    successful set-up that leaves the reset pending it goes on as the
    update after that set-up does; after a failed one it makes the space
    in use the one requested and returns. *)
Lemma updateAppSpace_after_setup
    (checkXrResult : XrResult -> bool) (w w1 : World) (t : Z) (ok : bool) :
  m_requestedReferenceSpace (mgr w) <> m_referenceSpace (mgr w) ->
  m_isFloorResetPending (mgr w) = false ->
  setupAppSpace checkXrResult w = Some (ok, w1) ->
  m_isFloorResetPending (mgr w1) = true ->
  updateAppSpace checkXrResult t w
  = if ok then updateAppSpace checkXrResult t w1
    else Some (tt, {| mgr := set_m_requestedReferenceSpace
                               (m_referenceSpace (mgr w1)) (mgr w1);
                      events := events w1; responses := responses w1;
                      scene_origin := scene_origin w1; log := log w1 |}).
Proof.
  intros Hne Hp Hsetup Hp1.
  apply XrReferenceSpaceType_differ in Hne.
  assert (Hafter :
            updateAppSpace checkXrResult t w1
            = (ok <- resetEmulatedFloorHeight checkXrResult t ;;
               when (negb ok)
                 (modify (set_m_requestedReferenceSpace
                            XR_REFERENCE_SPACE_TYPE_LOCAL) ;;;
                  emit referenceSpaceChanged)) w1).
  { unfold updateAppSpace. unfold bind at 1, this at 1.
    rewrite Hp1. cbn [negb]. rewrite andb_false_r.
    unfold bind at 1, ret at 1. cbn [negb].
    unfold bind at 1, this at 1. rewrite Hp1. reflexivity. }
  rewrite Hafter.
  unfold updateAppSpace. unfold bind at 1, this at 1.
  rewrite Hne, Hp. cbn [negb andb].
  unfold bind at 1. unfold bind at 1. rewrite Hsetup.
  destruct ok; cbn [negb].
  - unfold ret at 1. cbn [negb].
    unfold bind at 1, this at 1. rewrite Hp1. reflexivity.
  - reflexivity.
Qed.

(** C7. When the floor-relative space is requested and the runtime
    offers the stage space but not the floor-relative one,
    [setupAppSpace] arms the emulation and emits nothing; when its
    creation call succeeds the un-adjusted local space is in use. A
    request made at run time is served by [updateAppSpace], which goes
    on with the armed emulation in the same update after a successful
    set-up and returns after a failed one. In the update that finds the
    emulation armed, if the temporary local and stage spaces are
    created, the stage space is located in the local space and the app
    space is recreated, then the new app space is a local space whose
    origin pose carries the located stage-in-local Y translation, the
    reference space reported becomes the floor-relative type and
    [referenceSpaceChanged] is emitted once; with the floor-relative
    space still requested, every later [updateAppSpace] does nothing. *)
Theorem floor_emulation_bakes_located_height
    (checkXrResult : XrResult -> bool) (w : World) :
  m_session (mgr w) <> XR_NULL_HANDLE ->
  m_requestedReferenceSpace (mgr w) = XR_REFERENCE_SPACE_TYPE_LOCAL_FLOOR_EXT ->
  existsb (XrReferenceSpaceType_eqb XR_REFERENCE_SPACE_TYPE_LOCAL_FLOOR_EXT)
    (m_availableReferenceSpace (mgr w)) = false ->
  existsb (XrReferenceSpaceType_eqb XR_REFERENCE_SPACE_TYPE_STAGE)
    (m_availableReferenceSpace (mgr w)) = true ->
  let created := checkXrResult (result (coming w 0)) in
  exists w1,
    setupAppSpace checkXrResult w = Some (created, w1)
    /\ emitted (log w1) = emitted (log w)
    /\ (created = true ->
        m_referenceSpace (mgr w1) = XR_REFERENCE_SPACE_TYPE_LOCAL
        /\ m_appSpace (mgr w1) = out_space (coming w 0))
    /\ (m_referenceSpace (mgr w) <> XR_REFERENCE_SPACE_TYPE_LOCAL_FLOOR_EXT ->
        m_isFloorResetPending (mgr w) = false ->
        forall t,
          if created
          then updateAppSpace checkXrResult t w
               = updateAppSpace checkXrResult t w1
          else exists w1',
                 updateAppSpace checkXrResult t w = Some (tt, w1')
                 /\ m_isFloorResetPending (mgr w1')
                    = m_isFloorResetPending (mgr w1)
                 /\ m_isEmulatingLocalFloor (mgr w1')
                    = m_isEmulatingLocalFloor (mgr w1)
                 /\ m_requestedReferenceSpace (mgr w1')
                    = m_referenceSpace (mgr w)
                 /\ m_referenceSpace (mgr w1') = m_referenceSpace (mgr w)
                 /\ emitted (log w1') = emitted (log w))
    /\ forall w2 predictedDisplayTime,
         m_isFloorResetPending (mgr w2) = m_isFloorResetPending (mgr w1) ->
         m_isEmulatingLocalFloor (mgr w2)
         = m_isEmulatingLocalFloor (mgr w1) ->
         checkXrResult (result (coming w2 0)) = true ->
         checkXrResult (result (coming w2 1)) = true ->
         checkXrResult (result (coming w2 2)) = true ->
         checkXrResult (result (coming w2 5)) = true ->
         let localSpace := out_space (coming w2 0) in
         let stageSpace := out_space (coming w2 1) in
         let stageLocation := out_location (coming w2 2) in
         let session := m_session (mgr w2) in
         exists w' createInfo,
           updateAppSpace checkXrResult predictedDisplayTime w2
           = Some (tt, w')
           /\ log w' =
              log w2 ++
              [ Call (xrCreateReferenceSpace session
                        (mkCreateInfo XR_REFERENCE_SPACE_TYPE_LOCAL
                           identityPose));
                Call (xrCreateReferenceSpace session
                        (mkCreateInfo XR_REFERENCE_SPACE_TYPE_STAGE
                           identityPose));
                Call (xrLocateSpace stageSpace localSpace
                        predictedDisplayTime);
                Call (xrDestroySpace localSpace);
                Call (xrDestroySpace stageSpace);
                Call (xrCreateReferenceSpace session createInfo);
                Call (xrDestroySpace (m_appSpace (mgr w2)));
                Emit referenceSpaceChanged ]
           /\ referenceSpaceType createInfo = XR_REFERENCE_SPACE_TYPE_LOCAL
           /\ y (position (poseInReferenceSpace createInfo))
              = y (position (pose stageLocation))
           /\ m_appSpace (mgr w') = out_space (coming w2 5)
           /\ m_referenceSpace (mgr w')
              = XR_REFERENCE_SPACE_TYPE_LOCAL_FLOOR_EXT
           /\ m_isFloorResetPending (mgr w') = false
           /\ (m_requestedReferenceSpace (mgr w2)
               = XR_REFERENCE_SPACE_TYPE_LOCAL_FLOOR_EXT ->
               forall w3 t3,
                 mgr w3 = mgr w' ->
                 updateAppSpace checkXrResult t3 w3 = Some (tt, w3)).
Proof.
  intros Hsession Hreq Hfloor Hstage created.
  destruct (setupAppSpace_arms_emulation checkXrResult w
              Hsession Hreq Hfloor Hstage)
    as (w1 & Hsetup & Hp1 & He1 & Hemit1 & Hreq1 & Hses1 & Hcases).
  fold created in Hsetup, Hcases.
  exists w1. split; [exact Hsetup |]. split; [exact Hemit1 |]. split.
  { intros Hok. rewrite Hok in Hcases. exact Hcases. }
  split.
  - intros Hother Hp t.
    pose proof (updateAppSpace_after_setup checkXrResult w w1 t created
                  ltac:(congruence) Hp Hsetup Hp1) as Hupdate.
    destruct created; [exact Hupdate |].
    eexists. split; [exact Hupdate |]. cbn [mgr log].
    destruct Hcases as [Href1 _]. rewrite Href1.
    repeat split; try reflexivity; try exact Hemit1.
    destruct (mgr w1); exact Href1.
  - intros w2 t Hp2 He2 H0 H1 H2 H5
      localSpace stageSpace stageLocation session.
    destruct (floor_reset_step checkXrResult w2 t)
      as (w' & info & Hrun & Hlog & Htype & Hy & Happ & Href & Hp' & Hreq');
      try assumption; try congruence.
    exists w', info.
    repeat (split; [assumption |]).
    intros Hreq2 w3 t3 Hw3. apply updateAppSpace_idle; rewrite Hw3.
    + exact Hp'.
    + rewrite Hreq', Hreq2, Href. reflexivity.
Qed.

Lemma floor_emulation_bakes_located_height_witness :
  exists w1 w' createInfo,
    setupAppSpace Examples.checkXrResult
      (Examples.world Examples.floorRequested [Examples.success 1 100])
    = Some (true, w1)
    /\ updateAppSpace Examples.checkXrResult 5000000000
         (Examples.world (mgr w1)
            (map (Examples.success 1) [101; 102; 103; 104; 105; 106; 107]))
       = Some (tt, w')
    /\ In (Call (xrCreateReferenceSpace 2 createInfo)) (log w')
    /\ y (position (poseInReferenceSpace createInfo)) = f1
    /\ m_appSpace (mgr w') = 106
    /\ m_referenceSpace (mgr w') = XR_REFERENCE_SPACE_TYPE_LOCAL_FLOOR_EXT
    /\ emitted (log w') = [referenceSpaceChanged].
Proof.
  destruct (floor_emulation_bakes_located_height Examples.checkXrResult
              (Examples.world Examples.floorRequested
                 [Examples.success 1 100]))
    as (w1 & Hsetup & _ & _ & _ & Hframe);
    [ discriminate | reflexivity | reflexivity | reflexivity |].
  destruct (Hframe
              (Examples.world (mgr w1)
                 (map (Examples.success 1)
                    [101; 102; 103; 104; 105; 106; 107]))
              5000000000 eq_refl eq_refl eq_refl eq_refl eq_refl eq_refl)
    as (w' & info & Hrun & Hlog & _ & Hy & Happ & Href & _).
  assert (Hsession : m_session (mgr w1) = 2).
  { vm_compute in Hsetup. injection Hsetup as <-. reflexivity. }
  exists w1, w', info. split; [exact Hsetup |]. split; [exact Hrun |].
  rewrite Hlog. cbn [Examples.world mgr log]. rewrite Hsession.
  cbn [app emitted flat_map].
  repeat split; try assumption.
  cbn. tauto.
Defined.

(** The claim without the proviso that the app space is recreated: the
    emulation is armed by the set-up and the stage space is located in
    the local space, but the creation of the adjusted space fails; the
    reference space reported stays the local one, on the space the
    set-up created, and the local space is requested. *)
Lemma located_floor_height_is_lost_when_recreation_fails :
  exists w1 w',
    setupAppSpace Examples.checkXrResult
      (Examples.world Examples.floorRequested [Examples.success 1 100])
    = Some (true, w1)
    /\ updateAppSpace Examples.checkXrResult 5000000000
         (Examples.world (mgr w1)
            [Examples.success 1 101; Examples.success 1 102;
             Examples.success 1 103; Examples.success 1 104;
             Examples.success 1 105; Examples.failure])
       = Some (tt, w')
    /\ In (Call (xrLocateSpace 102 101 5000000000)) (log w')
    /\ Examples.checkXrResult (result (Examples.success 1 103)) = true
    /\ m_referenceSpace (mgr w') = XR_REFERENCE_SPACE_TYPE_LOCAL
    /\ m_referenceSpace (mgr w') <> XR_REFERENCE_SPACE_TYPE_LOCAL_FLOOR_EXT
    /\ m_appSpace (mgr w') = 100
    /\ m_requestedReferenceSpace (mgr w') = XR_REFERENCE_SPACE_TYPE_LOCAL.
Proof.
  do 2 eexists. split; [vm_compute; reflexivity |].
  split; [vm_compute; reflexivity |].
  cbn [log mgr]. repeat split; try reflexivity; try discriminate.
  cbn. tauto.
Qed.

(** ** The frame *)

Lemma submittedLayers_app (l l' : list Action) :
  submittedLayers (l ++ l') = submittedLayers l ++ submittedLayers l'.
Proof. unfold submittedLayers. apply flat_map_app. Qed.



(** *** What a computation adds to the driver-and-render trace *)

Lemma driverAndRender_app (l l' : list Action) :
  driverAndRender (l ++ l') = driverAndRender l ++ driverAndRender l'.
Proof. unfold driverAndRender. apply List.filter_app. Qed.

Lemma bind_Some {A B} (c : M A) (k : A -> M B) (w : World) r :
  bind c k w = Some r ->
  exists a w1, c w = Some (a, w1) /\ k a w1 = Some r.
Proof.
  unfold bind. destruct (c w) as [[a w1] |]; [| discriminate ].
  intros H. exists a, w1. split; [reflexivity | exact H].
Qed.

Lemma same_trace_refl w : same_trace w w.
Proof. split; reflexivity. Qed.

Lemma same_trace_trans w1 w2 w3 :
  same_trace w1 w2 -> same_trace w2 w3 -> same_trace w1 w3.
Proof. intros [A1 B1] [A2 B2]. split; congruence. Qed.

Lemma quiet_ret {A} (a : A) : quiet (ret a).
Proof. intros w a' w' H. inversion H; subst. apply same_trace_refl. Qed.

Lemma quiet_abort {A} : quiet (@abort A).
Proof. intros w a w' H. discriminate. Qed.

Lemma quiet_this : quiet this.
Proof. intros w a w' H. inversion H; subst. apply same_trace_refl. Qed.

Lemma quiet_bind {A B} (c : M A) (k : A -> M B) :
  quiet c -> (forall a, quiet (k a)) -> quiet (bind c k).
Proof.
  intros Hc Hk w b w' H.
  apply bind_Some in H. destruct H as (a & w1 & H1 & H2).
  eapply same_trace_trans; [eapply Hc | eapply Hk]; eassumption.
Qed.

Lemma quiet_modify f :
  (forall m, m_previousTime (f m) = m_previousTime m) -> quiet (modify f).
Proof.
  intros Hf w a w' H. inversion H; subst. split; simpl; auto.
Qed.

Lemma quiet_tell a :
  isDriverAction a || isRenderAction a = false -> quiet (tell a).
Proof.
  intros Ha w u w' H. inversion H; subst. split; simpl; auto.
  rewrite driverAndRender_app. simpl. rewrite Ha. apply app_nil_r.
Qed.

Lemma quiet_call c : quiet (call c).
Proof.
  intros w a w' H. inversion H; subst. split; simpl; auto.
  rewrite driverAndRender_app. simpl. apply app_nil_r.
Qed.

Lemma quiet_Q_ASSERT b : quiet (Q_ASSERT b).
Proof. destruct b; [apply quiet_ret | apply quiet_abort]. Qed.

Lemma quiet_when b c : quiet c -> quiet (when b c).
Proof. intros Hc. destruct b; [exact Hc | apply quiet_ret]. Qed.

Lemma quiet_checkOrigin : quiet checkOrigin.
Proof.
  intros w a w' H. unfold checkOrigin, bind, this in H.
  destruct (m_xrOrigin (mgr w)); simpl in H.
  - inversion H; subst. apply same_trace_refl.
  - destruct (scene_origin w); inversion H; subst.
    + split; simpl; auto.
      rewrite driverAndRender_app. simpl. apply app_nil_r.
    + apply same_trace_refl.
Qed.

(** Decomposes a computation into its steps, each of which is quiet. *)
Ltac quiet_step :=
  match goal with
  | |- quiet (bind _ _) => apply quiet_bind; [| intro ]
  | |- quiet (ret _) => apply quiet_ret
  | |- quiet abort => apply quiet_abort
  | |- quiet this => apply quiet_this
  | |- quiet (modify _) => apply quiet_modify; intro; reflexivity
  | |- quiet (emit _) => apply quiet_tell; reflexivity
  | |- quiet (tell _) => apply quiet_tell; reflexivity
  | |- quiet (call _) => apply quiet_call
  | |- quiet (Q_ASSERT _) => apply quiet_Q_ASSERT
  | |- quiet (when _ _) => apply quiet_when
  | |- quiet checkOrigin => apply quiet_checkOrigin
  | |- quiet (if ?b then _ else _) => destruct b
  | |- quiet (match ?x with _ => _ end) => destruct x
  end.

Lemma quiet_setupAppSpace checkXrResult : quiet (setupAppSpace checkXrResult).
Proof. unfold setupAppSpace, isReferenceSpaceAvailable. repeat quiet_step. Qed.

Lemma quiet_resetEmulatedFloorHeight checkXrResult t :
  quiet (resetEmulatedFloorHeight checkXrResult t).
Proof. unfold resetEmulatedFloorHeight. repeat quiet_step. Qed.

Lemma quiet_updateAppSpace checkXrResult t :
  quiet (updateAppSpace checkXrResult t).
Proof.
  unfold updateAppSpace.
  repeat first [ apply quiet_setupAppSpace
               | apply quiet_resetEmulatedFloorHeight
               | quiet_step ].
Qed.

Lemma quiet_then {A B} (c : M A) (k : A -> M B) (w : World) r :
  quiet c -> bind c k w = Some r ->
  exists a w1, same_trace w w1 /\ k a w1 = Some r.
Proof.
  intros Hq H. apply bind_Some in H. destruct H as (a & w1 & Hc & Hk).
  exists a, w1. split; [eapply Hq; eassumption | exact Hk].
Qed.

Lemma quiet_renders_only {A} (c : M A) : quiet c -> renders_only c.
Proof.
  intros Hq w a w' H. destruct (Hq w a w' H) as [Hl Hp].
  exists []. rewrite app_nil_r. repeat split; auto.
Qed.

Lemma renders_only_bind {A B} (c : M A) (k : A -> M B) :
  renders_only c -> (forall a, renders_only (k a)) -> renders_only (bind c k).
Proof.
  intros Hc Hk w b w' H.
  apply bind_Some in H. destruct H as (a & w1 & H1 & H2).
  destruct (Hc _ _ _ H1) as (rs1 & L1 & F1 & P1).
  destruct (Hk a _ _ _ H2) as (rs2 & L2 & F2 & P2).
  exists (rs1 ++ rs2). rewrite L2, L1, app_assoc.
  repeat split; [apply Forall_app; split; assumption | congruence].
Qed.

Lemma renders_only_doRender subImage swapchainImage :
  renders_only (doRender subImage swapchainImage).
Proof.
  unfold doRender.
  apply renders_only_bind; [apply quiet_renders_only, quiet_this | intro m].
  apply renders_only_bind.
  - apply quiet_renders_only. repeat quiet_step.
  - intros n w u w' H. inversion H; subst. simpl.
    exists [DoRender subImage swapchainImage n].
    rewrite driverAndRender_app. repeat split. repeat constructor.
Qed.

Lemma quiet_updateProjectionLayerView i newSubImage :
  quiet (updateProjectionLayerView i newSubImage).
Proof. unfold updateProjectionLayerView. repeat quiet_step. Qed.

Lemma renders_only_forM_ {A} (l : list A) (body : A -> M unit) :
  (forall a, renders_only (body a)) -> renders_only (forM_ l body).
Proof.
  intros Hbody. induction l as [| a l IH]; simpl.
  - apply quiet_renders_only, quiet_ret.
  - apply renders_only_bind; [apply Hbody | intros _; exact IH].
Qed.

Ltac renders_step :=
  match goal with
  | |- renders_only (doRender _ _) => apply renders_only_doRender
  | |- renders_only (forM_ _ _) => apply renders_only_forM_; intro
  | |- renders_only (updateProjectionLayerView _ _) =>
      apply quiet_renders_only, quiet_updateProjectionLayerView
  | |- renders_only (bind _ _) => apply renders_only_bind; [| intro ]
  | |- renders_only (if ?b then _ else _) => destruct b
  | |- renders_only (match ?x with _ => _ end) => destruct x
  | |- renders_only _ => apply quiet_renders_only; repeat quiet_step
  end.

(** The animation block of [renderLayer]. *)
Lemma advanceAnimationDriver_trace t p (w w' : World) :
  advanceAnimationDriver t p w = Some (tt, w') ->
  let prev := m_previousTime (mgr w) in
  let periodMS := Z.quot p 1000000 in
  let deltaMS := Z.quot (t - prev) 1000000 in
  driverAndRender (log w')
  = driverAndRender (log w)
    ++ (if prev =? 0
        then [AnimationDriver_setStep periodMS]
        else [AnimationDriver_setStep (Z.min deltaMS periodMS);
              AnimationDriver_advance])
  /\ m_previousTime (mgr w') = t.
Proof.
  unfold advanceAnimationDriver, bind, this, tell, modify, ret. simpl.
  destruct (m_previousTime (mgr w) =? 0); simpl.
  - intros H. inversion H; subst; simpl.
    rewrite driverAndRender_app. split; reflexivity.
  - rewrite Z.gtb_ltb.
    destruct (Z.ltb_spec (Z.quot p 1000000)
                (Z.quot (t - m_previousTime (mgr w)) 1000000));
      simpl; intros Hrun; inversion Hrun; subst; simpl;
      rewrite !driverAndRender_app, <- app_assoc; simpl;
      (split; [| reflexivity ]); do 3 f_equal; lia.
Qed.

(** Peels a quiet first step off the computation in [H], keeping in
    [Hacc] that the trace is the one the frame started with. *)
Ltac peel H Hacc :=
  apply quiet_then in H;
  [ let a := fresh "a" in
    let w1 := fresh "w" in
    let Hs := fresh "Hs" in
    destruct H as (a & w1 & Hs & H);
    apply (same_trace_trans _ _ _ Hacc) in Hs;
    clear Hacc; rename Hs into Hacc
  | solve [ apply quiet_updateAppSpace | repeat quiet_step ] ].

(** On the first rendered frame (no previous frame time) the driver's
    step is set and the clock is not advanced, although
    min(elapsed, period) is 11 ms. *)
Lemma first_frame_does_not_advance_clock :
  exists layer w',
    renderLayer Examples.checkXrResult 5000000000 11111111 7
      Examples.firstFrame
    = Some ((true, layer), w')
    /\ Z.min (Z.quot (5000000000 - 0) 1000000) (Z.quot 11111111 1000000) = 11
    /\ List.filter isDriverAction (log w') = [AnimationDriver_setStep 11]
    /\ ~ In AnimationDriver_advance (log w').
Proof.
  eexists. eexists. split; [vm_compute; reflexivity |].
  split; [reflexivity |]. split; [reflexivity |].
  simpl. intros H.
  repeat (destruct H as [H | H]; [discriminate H |]). exact H.
Qed.

(** C9 (amended). On every frame in which the views are located and
    rendered, before any view is rendered the animation driver's step is
    set, in whole milliseconds, to min(elapsed time since the previous
    frame, predicted display period) and the clock is advanced once; on
    the first such frame, when no previous frame time is recorded, the
    step is set to the predicted display period and the clock is not
    advanced. The step never exceeds the predicted display period, and
    the frame's display time becomes the previous frame time. *)
Theorem animation_step_is_clamped_delta
    (checkXrResult : XrResult -> bool) (w w' : World)
    (predictedDisplayTime predictedDisplayPeriod layerFlags : Z)
    (layer : XrCompositionLayer) :
  renderLayer checkXrResult predictedDisplayTime predictedDisplayPeriod
    layerFlags w = Some ((true, layer), w') ->
  let prev := m_previousTime (mgr w) in
  let periodMS := Z.quot predictedDisplayPeriod 1000000 in
  let deltaMS := Z.quot (predictedDisplayTime - prev) 1000000 in
  let step := if prev =? 0 then periodMS else Z.min deltaMS periodMS in
  exists renders,
    driverAndRender (log w')
    = driverAndRender (log w)
      ++ AnimationDriver_setStep step
         :: (if prev =? 0 then [] else [AnimationDriver_advance])
      ++ renders
    /\ Forall (fun a => isRenderAction a = true) renders
    /\ step <= periodMS
    /\ m_previousTime (mgr w') = predictedDisplayTime.
Proof.
  intros H prev periodMS deltaMS step.
  pose proof (same_trace_refl w) as Hacc.
  unfold renderLayer in H.
  repeat peel H Hacc.
  match type of H with
  | context [XR_UNQUALIFIED_SUCCESS ?res] =>
      destruct (XR_UNQUALIFIED_SUCCESS res); [| discriminate H ]
  end.
  repeat peel H Hacc.
  apply bind_Some in H. destruct H as ([] & wa & Hanim & H).
  apply advanceAnimationDriver_trace in Hanim.
  destruct Hanim as [Htrace Hprev].
  destruct Hacc as [Hlog0 Hprev0].
  rewrite Hprev0 in Htrace. fold prev periodMS deltaMS in Htrace.
  apply bind_Some in H. destruct H as (u & wr & Hrender & H).
  assert (Hr : exists rs,
             driverAndRender (log wr) = driverAndRender (log wa) ++ rs
             /\ Forall (fun a => isRenderAction a = true) rs
             /\ m_previousTime (mgr wr) = m_previousTime (mgr wa)).
  { match type of Hrender with
    | ?c wa = _ =>
        assert (RO : renders_only c) by (repeat renders_step);
        exact (RO _ _ _ Hrender)
    end. }
  destruct Hr as (rs & Hlogr & Hrs & Hprevr).
  unfold bind, this, ret in H. inversion H; subst w'.
  exists rs. split; [| split; [exact Hrs | split ]].
  - rewrite Hlogr, Htrace, Hlog0. subst step prev.
    rewrite <- app_assoc.
    destruct (m_previousTime (mgr w) =? 0); reflexivity.
  - subst step. destruct (prev =? 0); lia.
  - congruence.
Qed.

Lemma animation_step_is_clamped_delta_witness :
  exists w' layer renders,
    renderLayer Examples.checkXrResult 5000000000 11111111 7
      Examples.laterFrame = Some ((true, layer), w')
    /\ driverAndRender (log w')
       = AnimationDriver_setStep 5 :: AnimationDriver_advance :: renders.
Proof.
  assert (E : exists layer w',
             renderLayer Examples.checkXrResult 5000000000 11111111 7
               Examples.laterFrame = Some ((true, layer), w'))
    by (vm_compute; eauto).
  destruct E as (layer & w' & E).
  destruct (animation_step_is_clamped_delta Examples.checkXrResult
              Examples.laterFrame w' 5000000000 11111111 7 layer E)
    as (renders & Hlog & _).
  exists w', layer, renders. split; [exact E | exact Hlog].
Defined.

(** * Further properties of the shader keys *)

Module BitFieldFacts.
Import ShaderKeys.

Lemma bit_bounds (p : QSSGShaderKeyPropertyBase) :
  0 <= offset p mod 32 < 32.
Proof. apply Z.mod_pos_bound. lia. Qed.

Lemma idx_nonneg (p : QSSGShaderKeyPropertyBase) :
  0 <= offset p -> 0 <= getIdx p.
Proof. intros H. unfold getIdx. apply Z.div_pos; lia. Qed.

(** A word below [2^32] has no bit from 32 on. *)
Lemma testbit_high (x i : Z) :
  0 <= x < 2 ^ 32 -> 32 <= i -> Z.testbit x i = false.
Proof.
  intros Hx Hi. rewrite <- (Z.mod_small x (2 ^ 32)) by exact Hx.
  apply Z.mod_pow2_bits_high. lia.
Qed.

Lemma wrap_range (x : Z) : 0 <= U32.wrap x < 2 ^ 32.
Proof. unfold U32.wrap. apply Z.mod_pos_bound. lia. Qed.

Lemma wrap_testbit (x i : Z) :
  0 <= i -> Z.testbit (U32.wrap x) i = (i <? 32) && Z.testbit x i.
Proof.
  intros Hi. unfold U32.wrap. destruct (Z.ltb_spec i 32).
  - rewrite Z.mod_pow2_bits_low by lia. reflexivity.
  - rewrite Z.mod_pow2_bits_high by lia. reflexivity.
Qed.

(** The word [setValue] writes, bit by bit: the field holds the value,
    the other bits below 32 are kept and nothing is set from bit 32
    on. *)
Lemma written_word_testbit (target v w bit i : Z) :
  0 <= w -> 0 <= bit -> bit + w <= 32 -> 0 <= i ->
  Z.testbit
    (Z.lor (Z.land target (U32.not (Z.shiftl (Z.ones w) bit)))
           (Z.shiftl (v mod 2 ^ w) bit)) i
  = if (bit <=? i) && (i <? bit + w) then Z.testbit v (i - bit)
    else (i <? 32) && Z.testbit target i.
Proof.
  intros Hw Hbit Hfit Hi.
  rewrite Z.lor_spec, Z.land_spec, U32Facts.not_spec by lia.
  rewrite !Z.shiftl_spec by lia.
  destruct (Z.leb_spec bit i); simpl.
  - destruct (Z.ltb_spec i (bit + w)); simpl.
    + rewrite Z.ones_spec_low by lia. simpl.
      rewrite andb_false_r, andb_false_r. simpl.
      rewrite Z.mod_pow2_bits_low by lia. reflexivity.
    + rewrite Z.ones_spec_high by lia.
      rewrite Z.mod_pow2_bits_high by lia.
      rewrite orb_false_r. simpl. rewrite andb_true_r. apply andb_comm.
  - rewrite (Z.testbit_neg_r _ (i - bit)) by lia.
    rewrite (Z.testbit_neg_r _ (i - bit)) by lia.
    rewrite orb_false_r. simpl. rewrite andb_true_r. apply andb_comm.
Qed.

(** What [Unsigned.setValue] stores, for a field within one word. *)
Lemma setValue_word (w : Z) (p : QSSGShaderKeyPropertyBase) (ds : list Z)
    (v : Z) :
  0 <= w -> offset p mod 32 + w <= 32 ->
  Unsigned.setValue w p ds v
  = store ds (getIdx p)
      (Z.lor (Z.land (load ds (getIdx p))
                (U32.not (Z.shiftl (Z.ones w) (offset p mod 32))))
             (Z.shiftl (v mod 2 ^ w) (offset p mod 32))).
Proof.
  intros Hw Hfit. pose proof (bit_bounds p) as Hbit.
  unfold Unsigned.setValue, Unsigned.getMask. cbv zeta.
  rewrite ShaderKeyFacts.getMaskTemplate_shiftl by lia.
  rewrite U32Facts.startValue_ones by lia.
  rewrite Z.land_ones by lia.
  rewrite (U32Facts.shl_no_overflow _ _ w);
    [ reflexivity | lia | lia | lia | ].
  apply Z.mod_pos_bound. apply Z.pow_pos_nonneg; lia.
Qed.

(** What [Unsigned.getValue] reads, bit by bit. *)
Lemma getValue_testbit (w : Z) (p : QSSGShaderKeyPropertyBase)
    (ds : list Z) (i : Z) :
  0 <= w -> offset p mod 32 + w <= 32 -> 0 <= i ->
  Z.testbit (Unsigned.getValue w p ds) i
  = (i <? w) && Z.testbit (load ds (getIdx p)) (i + offset p mod 32).
Proof.
  intros Hw Hfit Hi. pose proof (bit_bounds p) as Hbit.
  unfold Unsigned.getValue, Unsigned.getMask, U32.shr. cbv zeta.
  rewrite ShaderKeyFacts.getMaskTemplate_shiftl by lia.
  rewrite Z.shiftr_spec, Z.land_spec, Z.shiftl_spec by lia.
  replace (i + offset p mod 32 - offset p mod 32) with i by lia.
  destruct (Z.ltb_spec i w).
  - rewrite Z.ones_spec_low by lia. now rewrite andb_true_r.
  - rewrite Z.ones_spec_high by lia. now rewrite andb_false_r.
Qed.

Lemma getValue_range (w : Z) (p : QSSGShaderKeyPropertyBase) (ds : list Z) :
  0 <= w -> offset p mod 32 + w <= 32 ->
  0 <= Unsigned.getValue w p ds < 2 ^ w.
Proof.
  intros Hw Hfit.
  assert (Hmod : Unsigned.getValue w p ds mod 2 ^ w
                 = Unsigned.getValue w p ds).
  { apply Z.bits_inj'. intros i Hi.
    destruct (Z.ltb_spec i w).
    - rewrite Z.mod_pow2_bits_low by lia. reflexivity.
    - rewrite Z.mod_pow2_bits_high by lia.
      rewrite getValue_testbit by lia.
      destruct (Z.ltb_spec i w); [lia | reflexivity]. }
  rewrite <- Hmod. apply Z.mod_pos_bound. apply Z.pow_pos_nonneg; lia.
Qed.

Lemma load_store_ne (ds : list Z) (i j v : Z) :
  0 <= i -> 0 <= j -> i <> j -> load (store ds i v) j = load ds j.
Proof.
  intros Hi Hj Hne. unfold load, store.
  rewrite list_lookup_insert_ne by lia. reflexivity.
Qed.

End BitFieldFacts.

Import ShaderKeys.

(** X1. Writing a property leaves every property with a disjoint bit
    range as it was: [getValue] of the other property is unchanged. Both
    properties lie within one word each, in words the store has. *)
Theorem setValue_keeps_disjoint_property
    (wp wq : Z) (p q : QSSGShaderKeyPropertyBase) (ds : list Z) (v : Z) :
  0 <= wp -> 0 <= wq -> 0 <= offset p -> 0 <= offset q ->
  offset p mod 32 + wp <= 32 ->
  offset q mod 32 + wq <= 32 ->
  offset p + wp <= offset q \/ offset q + wq <= offset p ->
  (Z.to_nat (getIdx p) < length ds)%nat ->
  (Z.to_nat (getIdx q) < length ds)%nat ->
  Unsigned.getValue wq q (Unsigned.setValue wp p ds v)
  = Unsigned.getValue wq q ds.
Proof.
  intros Hwp Hwq Hp Hq Hfp Hfq Hdisj _ _.
  pose proof (BitFieldFacts.bit_bounds p) as Hbp.
  pose proof (BitFieldFacts.bit_bounds q) as Hbq.
  pose proof (BitFieldFacts.idx_nonneg p Hp) as Hip.
  pose proof (BitFieldFacts.idx_nonneg q Hq) as Hiq.
  apply Z.bits_inj'. intros i Hi.
  rewrite !BitFieldFacts.getValue_testbit by lia.
  destruct (Z.ltb_spec i wq); [| reflexivity ]. simpl.
  rewrite BitFieldFacts.setValue_word by lia.
  destruct (Z.eq_dec (getIdx p) (getIdx q)) as [Heq | Hne].
  - rewrite <- Heq.
    destruct (Nat.lt_ge_cases (Z.to_nat (getIdx p)) (length ds)) as [Hin | Hout].
    + rewrite ShaderKeyFacts.load_store_eq by assumption.
      rewrite BitFieldFacts.written_word_testbit by lia.
      assert (Hrange :
                (offset p mod 32 <=? i + offset q mod 32)
                && (i + offset q mod 32 <? offset p mod 32 + wp) = false).
      { unfold getIdx in Heq.
        pose proof (Z.div_mod (offset p) 32 ltac:(lia)).
        pose proof (Z.div_mod (offset q) 32 ltac:(lia)).
        apply andb_false_iff.
        destruct (Z.leb_spec (offset p mod 32) (i + offset q mod 32));
          [right; apply Z.ltb_ge; lia | left; reflexivity]. }
      rewrite Hrange.
      destruct (Z.ltb_spec (i + offset q mod 32) 32); [reflexivity | lia].
    + unfold store. rewrite list_insert_ge by lia. reflexivity.
  - rewrite BitFieldFacts.load_store_ne by assumption. reflexivity.
Qed.

Lemma setValue_keeps_disjoint_property_witness :
  Unsigned.getValue 4 (mkProp "lightCount" 2)
    (Unsigned.setValue 1 (mkProp "hasIbl" 1) [60] 1)
  = Unsigned.getValue 4 (mkProp "lightCount" 2) [60].
Proof.
  apply (setValue_keeps_disjoint_property 1 4 (mkProp "hasIbl" 1)
           (mkProp "lightCount" 2) [60] 1);
    [ lia | lia | simpl; lia | simpl; lia
    | vm_compute; discriminate | vm_compute; discriminate
    | simpl; lia | vm_compute; lia | vm_compute; lia ].
Defined.

(** X2. The last write wins: a second [setValue] of the same property
    gives the store a single [setValue] of the second value gives. *)
Theorem setValue_overwrites
    (w : Z) (p : QSSGShaderKeyPropertyBase) (ds : list Z) (v1 v2 : Z) :
  0 <= w -> 0 <= offset p -> offset p mod 32 + w <= 32 ->
  (Z.to_nat (getIdx p) < length ds)%nat ->
  Unsigned.setValue w p (Unsigned.setValue w p ds v1) v2
  = Unsigned.setValue w p ds v2.
Proof.
  intros Hw Hp Hfit _.
  pose proof (BitFieldFacts.bit_bounds p) as Hbit.
  pose proof (BitFieldFacts.idx_nonneg p Hp) as Hidx.
  rewrite !BitFieldFacts.setValue_word by lia.
  destruct (Nat.lt_ge_cases (Z.to_nat (getIdx p)) (length ds)) as [Hin | Hout].
  - rewrite ShaderKeyFacts.load_store_eq by assumption.
    unfold store. rewrite list_insert_insert_eq. f_equal.
    apply Z.bits_inj'. intros i Hi.
    rewrite (BitFieldFacts.written_word_testbit (load ds (getIdx p)) v2
               w (offset p mod 32) i) by lia.
    match goal with
    | |- Z.testbit (Z.lor (Z.land ?t _) _) _ = _ =>
        rewrite (BitFieldFacts.written_word_testbit t v2
                   w (offset p mod 32) i) by lia
    end.
    destruct ((offset p mod 32 <=? i) && (i <? offset p mod 32 + w)) eqn:E;
      [reflexivity |].
    rewrite (BitFieldFacts.written_word_testbit (load ds (getIdx p)) v1
               w (offset p mod 32) i) by lia.
    rewrite E. destruct (i <? 32); reflexivity.
  - unfold store. repeat rewrite (list_insert_ge ds) by lia. reflexivity.
Qed.

Lemma setValue_overwrites_witness :
  Unsigned.setValue 2 (mkProp "alphaMode" 294)
    (Unsigned.setValue 2 (mkProp "alphaMode" 294) (repeat 0 10) 3) 1
  = Unsigned.setValue 2 (mkProp "alphaMode" 294) (repeat 0 10) 1.
Proof.
  apply (setValue_overwrites 2 (mkProp "alphaMode" 294) (repeat 0 10) 3 1);
    [ lia | simpl; lia | vm_compute; discriminate | vm_compute; lia ].
Defined.

(** X3. Writing back the value just read changes nothing, provided the
    words of the store are 32-bit values. *)
Theorem setValue_of_getValue_is_identity
    (w : Z) (p : QSSGShaderKeyPropertyBase) (ds : list Z) :
  0 <= w -> 0 <= offset p -> offset p mod 32 + w <= 32 ->
  (Z.to_nat (getIdx p) < length ds)%nat ->
  Forall (fun word => 0 <= word < 2 ^ 32) ds ->
  Unsigned.setValue w p ds (Unsigned.getValue w p ds) = ds.
Proof.
  intros Hw Hp Hfit _ Hwords.
  pose proof (BitFieldFacts.bit_bounds p) as Hbit.
  rewrite BitFieldFacts.setValue_word by lia.
  unfold store, load.
  destruct (ds !! Z.to_nat (getIdx p)) as [t |] eqn:Hlook; simpl.
  - apply list_insert_id. rewrite Hlook. f_equal.
    assert (Ht : 0 <= t < 2 ^ 32).
    { rewrite Forall_forall in Hwords. apply Hwords.
      eapply list_elem_of_lookup_2, Hlook. }
    apply Z.bits_inj'. intros i Hi.
    rewrite BitFieldFacts.written_word_testbit by lia.
    destruct (Z.leb_spec (offset p mod 32) i); simpl.
    + destruct (Z.ltb_spec i (offset p mod 32 + w)); simpl.
      * rewrite BitFieldFacts.getValue_testbit by lia.
        unfold load. rewrite Hlook. simpl.
        replace (i - offset p mod 32 + offset p mod 32) with i by lia.
        destruct (Z.ltb_spec (i - offset p mod 32) w); [reflexivity | lia].
      * destruct (Z.ltb_spec i 32); [reflexivity |].
        rewrite (BitFieldFacts.testbit_high t i Ht) by lia. reflexivity.
    + destruct (Z.ltb_spec i 32); [reflexivity | lia].
  - apply list_insert_ge. apply lookup_ge_None. exact Hlook.
Qed.

Lemma setValue_of_getValue_is_identity_witness :
  Unsigned.setValue 4 (mkProp "lightCount" 2) [61]
    (Unsigned.getValue 4 (mkProp "lightCount" 2) [61]) = [61].
Proof.
  apply (setValue_of_getValue_is_identity 4 (mkProp "lightCount" 2) [61]);
    [ lia | simpl; lia | vm_compute; discriminate | vm_compute; lia
    | repeat constructor; lia ].
Defined.

(** X4. [setValue] keeps the words of the store 32-bit values, for every
    value, every width and every offset within the store. *)
Theorem setValue_keeps_words_32_bit
    (w : Z) (p : QSSGShaderKeyPropertyBase) (ds : list Z) (v : Z) :
  (Z.to_nat (getIdx p) < length ds)%nat ->
  Forall (fun word => 0 <= word < 2 ^ 32) ds ->
  Forall (fun word => 0 <= word < 2 ^ 32) (Unsigned.setValue w p ds v).
Proof.
  intros _ Hwords. unfold Unsigned.setValue, store. cbv zeta.
  rewrite Forall_forall in *. intros x Hx.
  apply list_elem_of_lookup in Hx. destruct Hx as [i Hi].
  destruct (Nat.eq_dec i (Z.to_nat (getIdx p))) as [-> | Hne].
  - apply list_lookup_insert_Some in Hi.
    destruct Hi as [(_ & <- & _) | (Hne & _)]; [| congruence ].
    match goal with
    | |- 0 <= Z.lor ?a ?b < _ =>
        assert (Hmod : U32.wrap (Z.lor a b) = Z.lor a b)
    end.
    { apply Z.bits_inj'. intros j Hj.
      rewrite BitFieldFacts.wrap_testbit by lia.
      destruct (Z.ltb_spec j 32); [reflexivity |]. simpl.
      rewrite Z.lor_spec, Z.land_spec, U32Facts.not_spec by lia.
      unfold U32.shl. rewrite BitFieldFacts.wrap_testbit by lia.
      destruct (Z.ltb_spec j 32); [lia |]. simpl.
      now rewrite andb_false_r. }
    rewrite <- Hmod. apply BitFieldFacts.wrap_range.
  - rewrite list_lookup_insert_ne in Hi by congruence.
    apply Hwords. eapply list_elem_of_lookup_2, Hi.
Qed.

Lemma setValue_keeps_words_32_bit_witness :
  Forall (fun word => 0 <= word < 2 ^ 32)
    (Unsigned.setValue 16 (mkProp "boneCount" 271) (repeat 0 10) 70000).
Proof.
  apply (setValue_keeps_words_32_bit 16 (mkProp "boneCount" 271)
           (repeat 0 10) 70000);
    [ vm_compute; lia | repeat constructor; lia ].
Defined.

Module FlagFacts.
Import ShaderKeys.

(** Testing a value against a single-bit mask reads that bit. *)
Lemma land_pow2_eqb (x j : Z) :
  0 <= j -> (Z.land x (2 ^ j) =? 0) = negb (Z.testbit x j).
Proof.
  intros Hj.
  assert (H : Z.land x (2 ^ j) = if Z.testbit x j then 2 ^ j else 0).
  { apply Z.bits_inj'. intros i Hi.
    rewrite Z.land_spec, Z.pow2_bits_eqb by lia.
    destruct (Z.eqb_spec j i) as [-> | Hne].
    - destruct (Z.testbit x i); simpl.
      + rewrite Z.pow2_bits_eqb, Z.eqb_refl by lia. reflexivity.
      + rewrite Z.bits_0. reflexivity.
    - rewrite andb_false_r.
      destruct (Z.testbit x j).
      + rewrite Z.pow2_bits_eqb by lia.
        symmetry. apply Z.eqb_neq. exact Hne.
      + rewrite Z.bits_0. reflexivity. }
  rewrite H. destruct (Z.testbit x j); simpl; [| reflexivity ].
  apply Z.eqb_neq. assert (0 < 2 ^ j) by (apply Z.pow_pos_nonneg; lia). lia.
Qed.

(** The value read after a write, bit by bit. *)
Lemma getValue_setValue_testbit (w : Z) (p : QSSGShaderKeyPropertyBase)
    (ds : list Z) (v i : Z) :
  0 <= w -> 0 <= offset p -> offset p mod 32 + w <= 32 ->
  (Z.to_nat (getIdx p) < length ds)%nat -> 0 <= i ->
  Z.testbit (Unsigned.getValue w p (Unsigned.setValue w p ds v)) i
  = (i <? w) && Z.testbit v i.
Proof.
  intros Hw Hp Hfit Hin Hi. pose proof (BitFieldFacts.bit_bounds p) as Hb.
  rewrite BitFieldFacts.getValue_testbit by lia.
  destruct (Z.ltb_spec i w); [| reflexivity ]. simpl.
  rewrite BitFieldFacts.setValue_word by lia.
  rewrite ShaderKeyFacts.load_store_eq
    by (try apply BitFieldFacts.idx_nonneg; assumption).
  rewrite BitFieldFacts.written_word_testbit by lia.
  destruct (Z.leb_spec (offset p mod 32) (i + offset p mod 32)); [| lia ].
  destruct (Z.ltb_spec (i + offset p mod 32) (offset p mod 32 + w));
    [| lia ].
  simpl. f_equal. lia.
Qed.

(** Setting or clearing the flag [2^j] of a [w]-bit property and then
    reading the flag [2^j']: the written flag reads as written, any other
    flag as before. This is the body shared by the [setBitValue] and
    [getBitValue] members of the image-map, swizzle and vertex-attribute
    properties. *)
Lemma flag_written_then_read (w : Z) (p : QSSGShaderKeyPropertyBase)
    (ks : list Z) (j j' : Z) (b : bool) :
  0 <= offset p -> offset p mod 32 + w <= 32 ->
  (Z.to_nat (getIdx p) < length ks)%nat ->
  0 <= j < w -> 0 <= j' < w ->
  let theValue := Unsigned.getValue w p ks in
  let theValue' :=
    if b then Z.lor theValue (2 ^ j)
    else Z.land theValue (U32.not (2 ^ j)) in
  negb (Z.land (Unsigned.getValue w p (Unsigned.setValue w p ks theValue'))
          (2 ^ j') =? 0)
  = if j' =? j then b
    else negb (Z.land (Unsigned.getValue w p ks) (2 ^ j') =? 0).
Proof.
  intros Hp Hfit Hin Hj Hj' theValue theValue'.
  pose proof (BitFieldFacts.bit_bounds p) as Hb.
  rewrite !land_pow2_eqb, !negb_involutive by lia.
  rewrite getValue_setValue_testbit by lia.
  destruct (Z.ltb_spec j' w); [| lia ]. simpl.
  subst theValue'. destruct b.
  - rewrite Z.lor_spec, Z.pow2_bits_eqb by lia.
    rewrite (Z.eqb_sym j j').
    destruct (j' =? j); [apply orb_true_r | apply orb_false_r].
  - rewrite Z.land_spec, U32Facts.not_spec, Z.pow2_bits_eqb by lia.
    rewrite (Z.eqb_sym j j').
    destruct (Z.ltb_spec j' 32); [| lia ].
    destruct (j' =? j); simpl; [apply andb_false_r | apply andb_true_r].
Qed.

End FlagFacts.

(** X5. A boolean property reads back as written. *)
Theorem Boolean_getValue_of_setValue
    (p : QSSGShaderKeyPropertyBase) (ds : list Z) (b : bool) :
  0 <= offset p ->
  (Z.to_nat (getIdx p) < length ds)%nat ->
  Boolean.getValue p (Boolean.setValue p ds b) = b.
Proof.
  intros Hp Hin. pose proof (BitFieldFacts.bit_bounds p) as Hb.
  unfold Boolean.getValue, Boolean.setValue, Boolean.getMask,
    Boolean.BitWidth.
  rewrite ShaderKeyFacts.getMaskTemplate_shiftl by lia.
  change (Z.ones 1) with 1. rewrite Z.shiftl_1_l.
  destruct b;
    rewrite ShaderKeyFacts.load_store_eq
      by (try apply BitFieldFacts.idx_nonneg; assumption);
    rewrite FlagFacts.land_pow2_eqb, negb_involutive by lia.
  - rewrite Z.lor_spec, Z.pow2_bits_eqb, Z.eqb_refl by lia.
    apply orb_true_r.
  - rewrite Z.land_spec, U32Facts.not_spec, Z.pow2_bits_eqb, Z.eqb_refl
      by lia.
    simpl. now rewrite andb_false_r, andb_false_r.
Qed.

Lemma Boolean_getValue_of_setValue_witness :
  Boolean.getValue (mkProp "hasIbl" 1)
    (Boolean.setValue (mkProp "hasIbl" 1) [0] true) = true.
Proof.
  apply (Boolean_getValue_of_setValue (mkProp "hasIbl" 1) [0] true);
    [ simpl; lia | vm_compute; lia ].
Defined.

(** X6. On a store of 32-bit words a boolean property is an unsigned
    property of width 1: [setValue] writes what
    [QSSGShaderKeyUnsigned<1>::setValue] writes for 1 or 0, and
    [getValue] is the test of what [QSSGShaderKeyUnsigned<1>::getValue]
    reads. *)
Theorem Boolean_is_Unsigned_of_width_1
    (p : QSSGShaderKeyPropertyBase) (ds : list Z) (b : bool) :
  0 <= offset p ->
  (Z.to_nat (getIdx p) < length ds)%nat ->
  Forall (fun word => 0 <= word < 2 ^ 32) ds ->
  Boolean.setValue p ds b = Unsigned.setValue 1 p ds (Z.b2z b)
  /\ Boolean.getValue p ds = negb (Unsigned.getValue 1 p ds =? 0).
Proof.
  intros Hp _ Hwords. pose proof (BitFieldFacts.bit_bounds p) as Hb.
  assert (Ht : 0 <= load ds (getIdx p) < 2 ^ 32).
  { unfold load. destruct (ds !! Z.to_nat (getIdx p)) eqn:E; simpl.
    - rewrite Forall_forall in Hwords. apply Hwords.
      eapply list_elem_of_lookup_2, E.
    - lia. }
  split.
  - rewrite BitFieldFacts.setValue_word by lia.
    unfold Boolean.setValue, Boolean.getMask, Boolean.BitWidth.
    rewrite ShaderKeyFacts.getMaskTemplate_shiftl by lia.
    destruct b; f_equal; apply Z.bits_inj'; intros i Hi;
      rewrite BitFieldFacts.written_word_testbit by lia.
    + rewrite Z.lor_spec, Z.shiftl_spec by lia.
      destruct (Z.leb_spec (offset p mod 32) i); simpl.
      * destruct (Z.ltb_spec i (offset p mod 32 + 1)); simpl.
        -- replace (i - offset p mod 32) with 0 by lia.
           apply orb_true_r.
        -- rewrite Z.ones_spec_high by lia. rewrite orb_false_r.
           destruct (Z.ltb_spec i 32); [reflexivity |].
           apply BitFieldFacts.testbit_high; assumption.
      * rewrite (Z.testbit_neg_r (Z.ones 1)) by lia. rewrite orb_false_r.
        destruct (Z.ltb_spec i 32); [reflexivity | lia].
    + rewrite Z.land_spec, U32Facts.not_spec, Z.shiftl_spec by lia.
      destruct (Z.leb_spec (offset p mod 32) i); simpl.
      * destruct (Z.ltb_spec i (offset p mod 32 + 1)); simpl.
        -- replace (i - offset p mod 32) with 0 by lia. simpl.
           now rewrite andb_false_r, andb_false_r.
        -- rewrite Z.ones_spec_high by lia. simpl.
           rewrite andb_true_r. apply andb_comm.
      * rewrite (Z.testbit_neg_r (Z.ones 1)) by lia. simpl.
        rewrite andb_true_r. apply andb_comm.
  - unfold Boolean.getValue, Unsigned.getValue, Boolean.getMask,
      Unsigned.getMask, Boolean.BitWidth, U32.shr. cbv zeta.
    rewrite ShaderKeyFacts.getMaskTemplate_shiftl by lia.
    change (Z.ones 1) with 1. rewrite Z.shiftl_1_l.
    f_equal.
    rewrite FlagFacts.land_pow2_eqb by lia.
    destruct (Z.testbit (load ds (getIdx p)) (offset p mod 32)) eqn:E; simpl.
    + symmetry. apply Z.eqb_neq. intros H0.
      assert (Hbit : Z.testbit
                (Z.shiftr (Z.land (load ds (getIdx p))
                             (2 ^ (offset p mod 32)))
                   (offset p mod 32)) 0 = false)
        by (rewrite H0; apply Z.bits_0).
      rewrite Z.shiftr_spec, Z.land_spec, Z.pow2_bits_eqb in Hbit by lia.
      rewrite !Z.add_0_l, E, Z.eqb_refl in Hbit. discriminate.
    + symmetry. apply Z.eqb_eq. apply Z.bits_inj'. intros i Hi.
      rewrite Z.shiftr_spec, Z.land_spec, Z.pow2_bits_eqb, Z.bits_0 by lia.
      destruct (Z.eqb_spec (offset p mod 32) (i + offset p mod 32))
        as [Heq | Hne].
      * rewrite <- Heq, E. reflexivity.
      * apply andb_false_r.
Qed.

Lemma Boolean_is_Unsigned_of_width_1_witness :
  Boolean.setValue (mkProp "hasIbl" 1) [5] true
  = Unsigned.setValue 1 (mkProp "hasIbl" 1) [5] 1.
Proof.
  apply (Boolean_is_Unsigned_of_width_1 (mkProp "hasIbl" 1) [5] true).
  - simpl. lia.
  - vm_compute. lia.
  - repeat constructor; lia.
Defined.

(** X7. Setting or clearing one flag of an image-map, texture-swizzle or
    vertex-attribute property makes that flag read as written and leaves
    every other flag of the property as it was. *)
Theorem setBitValue_then_getBitValue
    (p : QSSGShaderKeyPropertyBase) (ks : list Z) (j j' : Z) (b : bool) :
  0 <= offset p ->
  (Z.to_nat (getIdx p) < length ks)%nat ->
  0 <= j -> 0 <= j' ->
  (offset p mod 32 + 6 <= 32 -> j < 6 -> j' < 6 ->
   ImageMap.getBitValue p (2 ^ j') (ImageMap.setBitValue p (2 ^ j) b ks)
   = if j' =? j then b else ImageMap.getBitValue p (2 ^ j') ks)
  /\ (offset p mod 32 + 5 <= 32 -> j < 5 -> j' < 5 ->
      TextureSwizzle.getBitValue p (2 ^ j')
        (TextureSwizzle.setBitValue p (2 ^ j) b ks)
      = if j' =? j then b else TextureSwizzle.getBitValue p (2 ^ j') ks)
  /\ (offset p mod 32 + 8 <= 32 -> j < 8 -> j' < 8 ->
      VertexAttribute.getBitValue p (2 ^ j')
        (VertexAttribute.setBitValue p (2 ^ j) ks b)
      = if j' =? j then b else VertexAttribute.getBitValue p (2 ^ j') ks).
Proof.
  intros Hp Hin Hj Hj'. repeat split; intros Hfit Hlt Hlt'.
  - apply (FlagFacts.flag_written_then_read 6 p ks j j' b); lia.
  - apply (FlagFacts.flag_written_then_read 5 p ks j j' b); lia.
  - apply (FlagFacts.flag_written_then_read 8 p ks j j' b); lia.
Qed.

Lemma setBitValue_then_getBitValue_witness :
  ImageMap.getBitValue Layout.diffuseMap ImageMap.Enabled
    (ImageMap.setBitValue Layout.diffuseMap ImageMap.Identity true
       (repeat 0 10))
  = ImageMap.getBitValue Layout.diffuseMap ImageMap.Enabled (repeat 0 10).
Proof.
  destruct (setBitValue_then_getBitValue Layout.diffuseMap (repeat 0 10)
              5 0 true) as (H & _ & _);
    [ vm_compute; discriminate | vm_compute; lia | lia | lia | ].
  apply H; [vm_compute; discriminate | lia | lia].
Defined.

(** * Further properties of the offset pass *)

Module OffsetFacts.
Import ShaderKeys.

(** One visit: the property keeps its name, is placed at or after the
    running offset and at most 31 bits later, ends before bit 31 of its
    word, and the running offset moves to its end. *)
Lemma visit_step (t : PropType) (p : QSSGShaderKeyPropertyBase) (m : Z) :
  1 <= BitWidth t <= 31 -> 0 <= m -> m + 62 < 2 ^ 32 ->
  name (fst (OffsetVisitor_visit t p m)) = name p
  /\ m <= offset (fst (OffsetVisitor_visit t p m)) <= m + 31
  /\ offset (fst (OffsetVisitor_visit t p m)) mod 32 + BitWidth t <= 31
  /\ snd (OffsetVisitor_visit t p m)
     = offset (fst (OffsetVisitor_visit t p m)) + BitWidth t.
Proof.
  intros Hw Hm Hfit. unfold OffsetVisitor_visit. cbv zeta.
  pose proof (Z.mod_pos_bound m 32 ltac:(lia)) as Hb.
  pose proof (Z.div_mod m 32 ltac:(lia)) as Hdm.
  change (2 ^ 32) with 4294967296 in Hfit.
  destruct (Z.gtb_spec (m mod 32 + BitWidth t) 31) as [Hmove | Hstay];
    cbn [fst snd setOffset offset name].
  - rewrite (U32Facts.wrap_small (m + (32 - m mod 32)))
      by (change (2 ^ 32) with 4294967296; lia).
    rewrite U32Facts.wrap_small by (change (2 ^ 32) with 4294967296; lia).
    replace (m + (32 - m mod 32)) with ((m / 32 + 1) * 32) by lia.
    rewrite Z.mod_mul by lia.
    repeat split; lia.
  - rewrite U32Facts.wrap_small by (change (2 ^ 32) with 4294967296; lia).
    repeat split; lia.
Qed.

Lemma visitArray_cons {V} (visit : Visitor V) (t : PropType)
    (p : QSSGShaderKeyPropertyBase) (rest : list QSSGShaderKeyPropertyBase)
    (v : V) :
  visitArray visit t (p :: rest) v
  = (fst (visit t p v)
       :: fst (visitArray visit t rest (snd (visit t p v))),
     snd (visitArray visit t rest (snd (visit t p v)))).
Proof.
  cbn [visitArray]. destruct (visit t p v) as [p' v'].
  cbn [fst snd]. destruct (visitArray visit t rest v') as [rest' v''].
  reflexivity.
Qed.

(** The pass over an array, by induction on it. *)
Lemma array_layout (t : PropType) (ps : list QSSGShaderKeyPropertyBase)
    (m : Z) :
  1 <= BitWidth t <= 31 -> 0 <= m ->
  m + 62 * Z.of_nat (length ps) < 2 ^ 32 ->
  map name (fst (visitArray OffsetVisitor_visit t ps m)) = map name ps
  /\ Forall (fun p => offset p mod 32 + BitWidth t <= 31
                      /\ m <= offset p
                      /\ offset p + BitWidth t
                         <= snd (visitArray OffsetVisitor_visit t ps m))
       (fst (visitArray OffsetVisitor_visit t ps m))
  /\ (forall (i j : nat) a b,
        fst (visitArray OffsetVisitor_visit t ps m) !! i = Some a ->
        fst (visitArray OffsetVisitor_visit t ps m) !! j = Some b ->
        (i < j)%nat -> offset a + BitWidth t <= offset b)
  /\ m <= snd (visitArray OffsetVisitor_visit t ps m)
       <= m + 62 * Z.of_nat (length ps).
Proof.
  intros Hw. revert m.
  induction ps as [| p rest IH]; intros m Hm Hfit.
  - cbn. repeat split; try lia; [constructor |].
    intros i j a b Hi. rewrite lookup_nil in Hi. discriminate.
  - rewrite visitArray_cons. cbn [fst snd map length] in *.
    destruct (visit_step t p m Hw Hm ltac:(lia))
      as (Hname & Hplace & Hword & Hnext).
    destruct (OffsetVisitor_visit t p m) as [p' m'].
    cbn [fst snd] in *. subst m'.
    destruct (IH (offset p' + BitWidth t) ltac:(lia) ltac:(lia))
      as (Hnames & Hall & Hsorted & Hend).
    split; [f_equal; assumption |].
    split.
    { constructor; [lia |].
      eapply Forall_impl; [exact Hall |].
      cbv beta. intros q Hq. lia. }
    split; [| lia ].
    intros i j a b Hi Hj Hij.
    destruct j as [| j]; [lia |]. cbn in Hj.
    destruct i as [| i]; cbn in Hi.
    + injection Hi as <-.
      rewrite Forall_forall in Hall.
      pose proof (Hall b (list_elem_of_lookup_2 _ _ _ Hj)). lia.
    + apply (Hsorted i j a b Hi Hj). lia.
Qed.

End OffsetFacts.

(** X8. For any array of properties of one type whose width is between 1
    and 31 bits, visited from any running offset (without wrap-around of
    the 32-bit offset), the offset pass keeps the names, places every
    property within bits 0..30 of a single word (bit 31 of a word is never
    assigned), places them in increasing, non-overlapping order at or
    after the running offset, and spends at most 62 bits per property. *)
Theorem offset_pass_lays_out_any_array
    (t : PropType) (ps : list QSSGShaderKeyPropertyBase) (m_offset : Z) :
  1 <= BitWidth t <= 31 -> 0 <= m_offset ->
  m_offset + 62 * Z.of_nat (length ps) < 2 ^ 32 ->
  let ps' := fst (visitArray OffsetVisitor_visit t ps m_offset) in
  let m_offset' := snd (visitArray OffsetVisitor_visit t ps m_offset) in
  map name ps' = map name ps
  /\ Forall (fun p => offset p mod 32 + BitWidth t <= 31
                      /\ m_offset <= offset p
                      /\ offset p + BitWidth t <= m_offset') ps'
  /\ (forall (i j : nat) a b,
        ps' !! i = Some a -> ps' !! j = Some b -> (i < j)%nat ->
        offset a + BitWidth t <= offset b)
  /\ m_offset <= m_offset' <= m_offset + 62 * Z.of_nat (length ps).
Proof.
  intros Hw Hm Hfit. cbv zeta.
  exact (OffsetFacts.array_layout t ps m_offset Hw Hm Hfit).
Qed.

Lemma offset_pass_lays_out_any_array_witness :
  map offset
    (fst (visitArray OffsetVisitor_visit TImageMap
            (map named ["a"; "b"; "c"; "d"; "e"; "f"]%string) 0))
  = [0; 6; 12; 18; 24; 32]
  /\ snd (visitArray OffsetVisitor_visit TImageMap
            (map named ["a"; "b"; "c"; "d"; "e"; "f"]%string) 0) <= 372.
Proof.
  split; [vm_compute; reflexivity |].
  destruct (offset_pass_lays_out_any_array TImageMap
              (map named ["a"; "b"; "c"; "d"; "e"; "f"]%string) 0)
    as (_ & _ & _ & _ & Hend);
    [ vm_compute; split; discriminate | lia | vm_compute; reflexivity
    | exact Hend ].
Defined.

(** * Further properties of the serialisation *)

Module StringFacts.
Import QByteArray.

Lemma append_assoc (a b c : string) :
  String.append (String.append a b) c = String.append a (String.append b c).
Proof. induction a as [| x a IH]; simpl; [reflexivity | now rewrite IH]. Qed.

Lemma length_append (a b : string) :
  String.length (String.append a b)
  = (String.length a + String.length b)%nat.
Proof. induction a as [| x a IH]; simpl; [reflexivity | now rewrite IH]. Qed.

Lemma prefix_append (n rest : string) :
  String.prefix n (String.append n rest) = true.
Proof.
  induction n as [| x n IH]; simpl.
  - destruct rest; reflexivity.
  - destruct (ascii_dec x x) as [_ | Hne]; [exact IH | contradiction].
Qed.

(** A string that starts with the needle has it at position 0. *)
Lemma indexOf_prefix (n rest : string) :
  indexOf (String.append n rest) n = 0.
Proof.
  unfold indexOf.
  destruct (String.append n rest) as [| c s] eqn:E.
  - destruct n; [reflexivity | discriminate].
  - cbn [String.index]. rewrite <- E, prefix_append. reflexivity.
Qed.

Lemma get_append_right (n s : string) (k : nat) :
  String.get (String.length n + k) (String.append n s) = String.get k s.
Proof. induction n as [| x n IH]; simpl; [reflexivity | exact IH]. Qed.

Lemma substring_append_right (n s : string) (k m : nat) :
  String.substring (String.length n + k) m (String.append n s)
  = String.substring k m s.
Proof. induction n as [| x n IH]; simpl; [reflexivity | exact IH]. Qed.

Lemma substring_all (s : string) (m : nat) :
  (String.length s <= m)%nat -> String.substring 0 m s = s.
Proof.
  revert m. induction s as [| c s IH]; intros m Hm.
  - destruct m; reflexivity.
  - destruct m as [| m]; simpl in *; [lia |].
    rewrite IH by lia. reflexivity.
Qed.

Lemma substring_append_left (s t : string) :
  String.substring 0 (String.length s) (String.append s t) = s.
Proof.
  induction s as [| c s IH]; simpl.
  - destruct t; reflexivity.
  - now rewrite IH.
Qed.

(** Reading past a prefix. *)
Lemma at_append_right (n s : string) (k : Z) :
  0 <= k -> at_ (String.append n s) (size n + k) = at_ s k.
Proof.
  intros Hk. unfold at_, size.
  destruct (Z.ltb_spec (Z.of_nat (String.length n) + k) 0); [lia |].
  destruct (Z.ltb_spec k 0); [lia |].
  replace (Z.to_nat (Z.of_nat (String.length n) + k))
    with (String.length n + Z.to_nat k)%nat by lia.
  rewrite get_append_right. reflexivity.
Qed.

Lemma mid_append_right (n s : string) (k len : Z) :
  0 <= k -> mid (String.append n s) (size n + k) len = mid s k len.
Proof.
  intros Hk. unfold mid, size.
  destruct (Z.ltb_spec (Z.of_nat (String.length n) + k) 0); [lia |].
  destruct (Z.ltb_spec k 0); [lia |]. simpl.
  destruct (len <? 0); [reflexivity |].
  replace (Z.to_nat (Z.of_nat (String.length n) + k))
    with (String.length n + Z.to_nat k)%nat by lia.
  apply substring_append_right.
Qed.

(** What [getBoolValue] reads in what [internalToString] wrote into an
    empty array. *)
Lemma getBoolValue_internalToString (n : string) (b : bool) :
  ShaderKeys.getBoolValue
    (ShaderKeys.internalToString_bool EmptyString n b) n = b.
Proof.
  unfold ShaderKeys.getBoolValue, ShaderKeys.internalToString_bool.
  destruct b.
  - cbn [String.append]. rewrite indexOf_prefix. cbn [Z.ltb Z.compare].
    rewrite Z.add_0_l.
    rewrite <- (Z.add_0_r (size n)) at 1.
    rewrite at_append_right by lia. cbn [negb].
    replace (size n + 1) with (size n + 1) by reflexivity.
    rewrite mid_append_right by lia. reflexivity.
  - unfold indexOf. destruct n as [| c n]; reflexivity.
Qed.

End StringFacts.

Module FieldFacts.
Import ShaderKeys.

(** [getValue] after [setValue] is the value reduced to the width. *)
Lemma getValue_setValue (w : Z) (p : QSSGShaderKeyPropertyBase)
    (ds : list Z) (v : Z) :
  0 <= w -> 0 <= offset p -> offset p mod 32 + w <= 32 ->
  (Z.to_nat (getIdx p) < length ds)%nat ->
  Unsigned.getValue w p (Unsigned.setValue w p ds v) = v mod 2 ^ w.
Proof.
  intros Hw Hp Hfit Hin. apply Z.bits_inj'. intros i Hi.
  rewrite FlagFacts.getValue_setValue_testbit by assumption.
  destruct (Z.ltb_spec i w).
  - rewrite Z.mod_pow2_bits_low by lia. reflexivity.
  - rewrite Z.mod_pow2_bits_high by lia. reflexivity.
Qed.

Lemma setValue_length (w : Z) (p : QSSGShaderKeyPropertyBase)
    (ds : list Z) (v : Z) :
  length (Unsigned.setValue w p ds v) = length ds.
Proof.
  unfold Unsigned.setValue, store. cbv zeta. apply length_insert.
Qed.

(** A boolean property reads back as written. *)
Lemma Boolean_readback (p : QSSGShaderKeyPropertyBase) (ds : list Z)
    (b : bool) :
  0 <= offset p ->
  (Z.to_nat (getIdx p) < length ds)%nat ->
  Boolean.getValue p (Boolean.setValue p ds b) = b.
Proof.
  intros Hp Hin. pose proof (BitFieldFacts.bit_bounds p) as Hb.
  unfold Boolean.getValue, Boolean.setValue, Boolean.getMask,
    Boolean.BitWidth.
  rewrite ShaderKeyFacts.getMaskTemplate_shiftl by lia.
  change (Z.ones 1) with 1. rewrite Z.shiftl_1_l.
  destruct b;
    rewrite ShaderKeyFacts.load_store_eq
      by (try apply BitFieldFacts.idx_nonneg; assumption);
    rewrite FlagFacts.land_pow2_eqb, negb_involutive by lia.
  - rewrite Z.lor_spec, Z.pow2_bits_eqb, Z.eqb_refl by lia.
    apply orb_true_r.
  - rewrite Z.land_spec, U32Facts.not_spec, Z.pow2_bits_eqb, Z.eqb_refl
      by lia.
    simpl. now rewrite andb_false_r, andb_false_r.
Qed.

End FieldFacts.

(** X9. A boolean property serialised on its own and parsed back has the
    value it had: [fromString] applied to what [toString] wrote into an
    empty array sets the property, in any store that has its word, to the
    value it has in the serialised store. *)
Theorem Boolean_toString_fromString
    (p : QSSGShaderKeyPropertyBase) (inKeySet target : list Z) :
  0 <= offset p ->
  (Z.to_nat (getIdx p) < length target)%nat ->
  Boolean.getValue p
    (fromString_Boolean p (toString_Boolean p EmptyString inKeySet) target)
  = Boolean.getValue p inKeySet.
Proof.
  intros Hp Hin. unfold fromString_Boolean, toString_Boolean. cbv zeta.
  rewrite StringFacts.getBoolValue_internalToString.
  apply FieldFacts.Boolean_readback; assumption.
Qed.

Lemma Boolean_toString_fromString_witness :
  Boolean.getValue (mkProp "hasIbl" 1)
    (fromString_Boolean (mkProp "hasIbl" 1)
       (toString_Boolean (mkProp "hasIbl" 1) EmptyString [2]) [0])
  = Boolean.getValue (mkProp "hasIbl" 1) [2].
Proof.
  apply (Boolean_toString_fromString (mkProp "hasIbl" 1) [2] [0]);
    [ simpl; lia | vm_compute; lia ].
Defined.

(** X10. A texture-channel property serialised on its own and parsed back
    has the channel it had. *)
Theorem TextureChannel_toString_fromString
    (p : QSSGShaderKeyPropertyBase) (inKeySet target : list Z) :
  0 <= offset p -> offset p mod 32 + 2 <= 32 ->
  (Z.to_nat (getIdx p) < length target)%nat ->
  TextureChannel.getTextureChannel p
    (TextureChannel.fromString p
       (TextureChannel.toString p EmptyString inKeySet) target)
  = TextureChannel.getTextureChannel p inKeySet.
Proof.
  intros Hp Hfit Hin.
  unfold TextureChannel.getTextureChannel, TextureChannel.fromString,
    TextureChannel.toString, TextureChannel.getTextureChannel,
    QByteArray.append_char.
  cbv zeta. cbn [String.append].
  rewrite StringFacts.append_assoc. cbn [String.append].
  rewrite StringFacts.indexOf_prefix. cbn [Z.leb Z.compare].
  rewrite Z.add_0_l.
  rewrite <- (Z.add_0_r (QByteArray.size (name p))) at 1.
  rewrite !StringFacts.at_append_right by lia.
  pose proof (BitFieldFacts.getValue_range 2 p inKeySet ltac:(lia) Hfit)
    as Hrange.
  change (2 ^ 2) with 4 in Hrange.
  assert (Hcases : Unsigned.getValue 2 p inKeySet = 0
                   \/ Unsigned.getValue 2 p inKeySet = 1
                   \/ Unsigned.getValue 2 p inKeySet = 2
                   \/ Unsigned.getValue 2 p inKeySet = 3) by lia.
  destruct Hcases as [-> | [-> | [-> | ->]]];
    repeat match goal with
           | |- context [Ascii.eqb ?a ?b] =>
               let r := eval vm_compute in (Ascii.eqb a b) in
               change (Ascii.eqb a b) with r
           end;
    cbn [negb];
    rewrite FieldFacts.getValue_setValue by (assumption || lia);
    reflexivity.
Qed.

Lemma TextureChannel_toString_fromString_witness :
  TextureChannel.getTextureChannel (mkProp "opacityMap_channel" 4)
    (TextureChannel.fromString (mkProp "opacityMap_channel" 4)
       (TextureChannel.toString (mkProp "opacityMap_channel" 4)
          EmptyString [32]) [0])
  = TextureChannel.getTextureChannel (mkProp "opacityMap_channel" 4) [32].
Proof.
  apply (TextureChannel_toString_fromString
           (mkProp "opacityMap_channel" 4) [32] [0]);
    [ simpl; lia | vm_compute; discriminate | vm_compute; lia ].
Defined.

Module NumberFacts.
Import QByteArray.

(** The digits of a decimal numeral, read with an accumulator. *)
Lemma digits_value_acc (d : Decimal.uint) (acc : positive) :
  digits_value (Z.pos acc) (NilEmpty.string_of_uint d)
  = Z.pos (Pos.of_uint_acc d acc).
Proof.
  revert acc.
  induction d as [| d IH | d IH | d IH | d IH | d IH | d IH | d IH | d IH
                  | d IH | d IH ]; intros acc;
    cbn [NilEmpty.string_of_uint digits_value Pos.of_uint_acc];
    [ reflexivity | .. ];
    rewrite <- IH; f_equal;
    match goal with
    | |- context [nat_of_ascii ?c] =>
        let n := eval vm_compute in (Z.of_nat (nat_of_ascii c)) in
        change (Z.of_nat (nat_of_ascii c)) with n
    end; lia.
Qed.

Lemma digits_value_of_uint (d : Decimal.uint) :
  digits_value 0 (NilEmpty.string_of_uint d) = Z.of_N (Pos.of_uint d).
Proof.
  induction d as [| d IH | d IH | d IH | d IH | d IH | d IH | d IH | d IH
                  | d IH | d IH ];
    cbn [NilEmpty.string_of_uint digits_value Pos.of_uint];
    [ reflexivity | exact IH | .. ];
    cbn [Z.of_N]; rewrite <- digits_value_acc; f_equal.
Qed.

Lemma span_isDigit_of_uint (d : Decimal.uint) :
  span isDigit (NilEmpty.string_of_uint d)
  = size (NilEmpty.string_of_uint d).
Proof.
  unfold size.
  induction d as [| d IH | d IH | d IH | d IH | d IH | d IH | d IH | d IH
                  | d IH | d IH ];
    cbn [NilEmpty.string_of_uint span String.length];
    [ reflexivity | .. ];
    match goal with
    | |- context [isDigit ?c] =>
        change (isDigit c) with true
    end; cbv iota; rewrite IH; lia.
Qed.

(** [toInt] reads back what [number] printed, for a value that fits an
    [int]. *)
Lemma toInt_number (v : Z) :
  0 <= v <= 2147483647 -> toInt (number v) = v.
Proof.
  intros Hv.
  assert (Hval : digits_value 0 (number v) = v).
  { unfold number.
    rewrite <- (Z2N.id v) at 2 by lia.
    rewrite <- (DecimalN.Unsigned.of_to (Z.to_N v)) at 2.
    unfold N.of_uint.
    destruct (N.to_uint (Z.to_N v)); try apply digits_value_of_uint.
    reflexivity. }
  unfold toInt. rewrite Hval.
  destruct (Z.leb_spec v 2147483647); [| lia ].
  destruct (number v); [| reflexivity ].
  simpl in Hval. exact Hval.
Qed.

Lemma span_isDigit_number (v : Z) :
  span isDigit (number v) = size (number v).
Proof.
  unfold number.
  destruct (N.to_uint (Z.to_N v)); try apply span_isDigit_of_uint.
  reflexivity.
Qed.

End NumberFacts.

Module ScanFacts.
Import QByteArray.

(** The scan over digits stops at the first character that is none. *)
Lemma span_stops (a : string) (c : ascii) (r : string) :
  span isDigit a = size a -> isDigit c = false ->
  span isDigit (String.append a (String c r)) = size a.
Proof.
  unfold size. induction a as [| x a IH]; intros Ha Hc.
  - cbn [String.append span]. rewrite Hc. reflexivity.
  - cbn [String.append span String.length] in *.
    assert (Hnonneg : 0 <= span isDigit a).
    { clear. induction a as [| y a IH]; cbn [span]; [lia |].
      destruct (isDigit y); lia. }
    destruct (isDigit x); [| lia ].
    rewrite IH; [lia | lia | exact Hc].
Qed.

End ScanFacts.

(** X11. A numeric property of up to 31 bits that is serialised and
    followed by a character that is no digit - in the string of a key,
    the [;] before the next entry - is parsed back to the value it had.
    Every character [fromString] reads for it lies within the string:
    the [=] after the name, and the character at which the scan over
    the digits stops. *)
Theorem Unsigned_toString_fromString
    (w : Z) (p : QSSGShaderKeyPropertyBase) (inKeySet target : list Z)
    (next : ascii) (rest : string) :
  0 <= w <= 31 -> 0 <= offset p -> offset p mod 32 + w <= 32 ->
  (Z.to_nat (getIdx p) < length target)%nat ->
  QByteArray.isDigit next = false ->
  let text :=
    String.append (toString_Unsigned w p EmptyString inKeySet)
      (String next rest) in
  let strOffset := QByteArray.indexOf text (name p) in
  let s :=
    QByteArray.right text
      (QByteArray.size text - strOffset - QByteArray.size (name p) - 1) in
  Unsigned.getValue w p (fromString_Unsigned w p text target)
  = Unsigned.getValue w p inKeySet
  /\ 0 <= strOffset + QByteArray.size (name p) < QByteArray.size text
  /\ 0 <= QByteArray.span QByteArray.isDigit s < QByteArray.size s.
Proof.
  intros Hw Hp Hfit Hin Hnext text strOffset s.
  pose proof (BitFieldFacts.getValue_range w p inKeySet ltac:(lia) Hfit)
    as Hrange.
  assert (Hint : 2 ^ w <= 2 ^ 31) by (apply Z.pow_le_mono_r; lia).
  change (2 ^ 31) with 2147483648 in Hint.
  set (v := Unsigned.getValue w p inKeySet) in *.
  set (digits := QByteArray.number v).
  assert (Htext : text
                  = String.append (name p)
                      (String "="
                         (String.append digits (String next rest)))).
  { subst text. unfold toString_Unsigned, internalToString. cbv zeta.
    fold v. fold digits. cbn [String.append].
    rewrite StringFacts.append_assoc. reflexivity. }
  assert (Hoffset : strOffset = 0)
    by (subst strOffset; rewrite Htext; apply StringFacts.indexOf_prefix).
  assert (Hsize : QByteArray.size text
                  = QByteArray.size (name p) + 1
                    + QByteArray.size digits + 1 + QByteArray.size rest).
  { rewrite Htext. unfold QByteArray.size.
    rewrite StringFacts.length_append. cbn [String.length].
    rewrite StringFacts.length_append. cbn [String.length]. lia. }
  assert (Hs : s = String.append digits (String next rest)).
  { subst s. rewrite Hoffset, Hsize. rewrite Htext at 1.
    unfold QByteArray.right.
    set (n := QByteArray.size (name p) + 1 + QByteArray.size digits + 1
              + QByteArray.size rest - 0 - QByteArray.size (name p) - 1).
    assert (Hn : n = QByteArray.size digits + 1 + QByteArray.size rest)
      by (subst n; lia).
    unfold QByteArray.size in *.
    destruct (Z.ltb_spec n 0); [lia |].
    rewrite StringFacts.length_append. cbn [String.length].
    rewrite StringFacts.length_append. cbn [String.length].
    destruct (Z.leb_spec
                (Z.of_nat
                   (String.length (name p)
                    + S (String.length digits + S (String.length rest))))
                n); [lia |].
    replace (Z.to_nat
               (Z.of_nat
                  (String.length (name p)
                   + S (String.length digits + S (String.length rest)))
                - n))
      with (String.length (name p) + 1)%nat by lia.
    rewrite StringFacts.substring_append_right.
    cbn [String.substring].
    apply StringFacts.substring_all.
    rewrite StringFacts.length_append. cbn [String.length]. lia. }
  assert (Hspan : QByteArray.span QByteArray.isDigit s
                  = QByteArray.size digits).
  { rewrite Hs. apply ScanFacts.span_stops; [| exact Hnext ].
    apply NumberFacts.span_isDigit_number. }
  split; [| split ].
  - unfold fromString_Unsigned. cbv zeta.
    fold text. fold strOffset. fold s.
    rewrite Hoffset. cbn [Z.leb Z.compare]. rewrite Z.add_0_l.
    rewrite Htext at 1.
    rewrite <- (Z.add_0_r (QByteArray.size (name p))) at 1.
    rewrite StringFacts.at_append_right by lia.
    change (QByteArray.at_
              (String "=" (String.append digits (String next rest))) 0)
      with "="%char.
    cbn [Ascii.eqb Bool.eqb negb].
    replace (QByteArray.right text
               (QByteArray.size text - 0 - QByteArray.size (name p) - 1))
      with s by (subst s; rewrite Hoffset; reflexivity).
    rewrite Hspan, Hs.
    unfold QByteArray.left.
    destruct (Z.ltb_spec (QByteArray.size digits) 0);
      [unfold QByteArray.size in *; lia |].
    unfold QByteArray.size. rewrite Nat2Z.id.
    rewrite StringFacts.substring_append_left.
    subst digits.
    rewrite NumberFacts.toInt_number by lia.
    rewrite U32Facts.wrap_small by (change (2 ^ 32) with 4294967296; lia).
    rewrite FieldFacts.getValue_setValue by (assumption || lia).
    apply Z.mod_small. exact Hrange.
  - rewrite Hoffset, Hsize. unfold QByteArray.size. lia.
  - rewrite Hspan, Hs. unfold QByteArray.size.
    rewrite StringFacts.length_append. cbn [String.length]. lia.
Qed.

Lemma Unsigned_toString_fromString_witness :
  Unsigned.getValue 16 (mkProp "boneCount" 271)
    (fromString_Unsigned 16 (mkProp "boneCount" 271)
       (String.append
          (toString_Unsigned 16 (mkProp "boneCount" 271) EmptyString
             (Unsigned.setValue 16 (mkProp "boneCount" 271) (repeat 0 10)
                1234))
          ";isDoubleSided=true")
       (repeat 0 10))
  = Unsigned.getValue 16 (mkProp "boneCount" 271)
      (Unsigned.setValue 16 (mkProp "boneCount" 271) (repeat 0 10) 1234).
Proof.
  apply (Unsigned_toString_fromString 16 (mkProp "boneCount" 271)
           (Unsigned.setValue 16 (mkProp "boneCount" 271) (repeat 0 10)
              1234)
           (repeat 0 10) ";"%char "isDoubleSided=true");
    [ lia | simpl; lia | vm_compute; discriminate | vm_compute; lia
    | reflexivity ].
Defined.

Module ParseFacts.
Import QByteArray ShaderKeys.

Lemma substring_long (s : string) (k m m' : nat) :
  (String.length s <= m)%nat -> (String.length s <= m')%nat ->
  String.substring k m s = String.substring k m' s.
Proof.
  revert s. induction k as [| k IH]; intros s Hm Hm'.
  - rewrite !StringFacts.substring_all by assumption. reflexivity.
  - destruct s as [| c s]; [reflexivity |]. cbn [String.substring].
    cbn [String.length] in *. apply IH; lia.
Qed.

(** [mid] with a length that reaches the end of the array. *)
Lemma mid_to_end (s : string) (k len : Z) :
  size s <= len -> mid s k len = mid s k (size s).
Proof.
  intros Hlen. unfold mid, size in *.
  destruct (Z.ltb_spec k 0); [reflexivity |].
  destruct (Z.ltb_spec len 0); [lia |].
  destruct (Z.ltb_spec (Z.of_nat (String.length s)) 0); [lia |].
  cbn [orb]. apply substring_long; lia.
Qed.

Lemma size_append (a b : string) :
  size (String.append a b) = size a + size b.
Proof. unfold size. rewrite StringFacts.length_append. lia. Qed.

Lemma size_nonneg (s : string) : 0 <= size s.
Proof. unfold size. lia. Qed.

(** The part of the array after the name, from [k] on. *)
Lemma from_after_name (n s : string) (k : Z) :
  0 <= k -> from (String.append n s) (size n + k) = from s k.
Proof.
  intros Hk. unfold from.
  rewrite StringFacts.mid_append_right by assumption.
  apply mid_to_end. rewrite size_append. pose proof (size_nonneg n). lia.
Qed.

End ParseFacts.

Module FieldListFacts.
Import QByteArray ShaderKeys.

Lemma append_nil_r (s : string) : String.append s EmptyString = s.
Proof. induction s as [| c s IH]; simpl; [reflexivity | now rewrite IH]. Qed.

(** [internalToString] appends the text of the flag to the array. *)
Lemma internalToString_bool_acc (acc n : string) (b : bool) :
  internalToString_bool acc n b
  = String.append acc (internalToString_bool EmptyString n b).
Proof.
  unfold internalToString_bool. destruct b; cbn [String.append].
  - reflexivity.
  - symmetry. apply append_nil_r.
Qed.

(** The text of a flag has only characters that [f] accepts, when the
    text of the set flag has. *)
Lemma flag_text (f : ascii -> bool) (n : string) (b : bool) :
  span f (internalToString_bool EmptyString n true)
  = size (internalToString_bool EmptyString n true) ->
  span f (internalToString_bool EmptyString n b)
  = size (internalToString_bool EmptyString n b).
Proof. destruct b; [trivial | reflexivity]. Qed.

Lemma span_nonneg (f : ascii -> bool) (s : string) : 0 <= span f s.
Proof.
  induction s as [| c s IH]; cbn [span]; [lia |].
  destruct (f c); lia.
Qed.

Lemma span_le_size (f : ascii -> bool) (s : string) : span f s <= size s.
Proof.
  unfold size. induction s as [| c s IH]; cbn [span String.length]; [lia |].
  destruct (f c); lia.
Qed.

(** A field of accepted characters followed by an accepted separator. *)
Lemma span_field_sep (f : ascii -> bool) (F : string) (c : ascii)
    (Y : string) :
  span f F = size F -> f c = true ->
  span f (String.append F (String c Y)) = size F + 1 + span f Y.
Proof.
  unfold size. induction F as [| x F IH]; intros HF Hc.
  - cbn [String.append span String.length]. rewrite Hc. lia.
  - cbn [String.append span String.length] in *.
    pose proof (span_le_size f F) as Hle. unfold size in Hle.
    destruct (f x); [| lia ].
    rewrite IH by (assumption || lia). lia.
Qed.

(** A field of accepted characters followed by a rejected one. *)
Lemma span_field_stop (f : ascii -> bool) (F : string) (c : ascii)
    (Y : string) :
  span f F = size F -> f c = false ->
  span f (String.append F (String c Y)) = size F.
Proof.
  unfold size. induction F as [| x F IH]; intros HF Hc.
  - cbn [String.append span String.length]. rewrite Hc. reflexivity.
  - cbn [String.append span String.length] in *.
    pose proof (span_le_size f F) as Hle. unfold size in Hle.
    destruct (f x); [| lia ].
    rewrite IH by (assumption || lia). lia.
Qed.

Lemma substring_field (F : string) (c : ascii) (Y : string) (m : nat) :
  String.substring 0 (String.length F + S m) (String.append F (String c Y))
  = String.append F (String c (String.substring 0 m Y)).
Proof.
  induction F as [| x F IH]; cbn [String.append String.length Nat.add].
  - reflexivity.
  - cbn [String.substring]. rewrite IH. reflexivity.
Qed.

(** Taking a field, its separator and [m] more characters. *)
Lemma mid_field_sep (F : string) (c : ascii) (Y : string) (m : Z) :
  0 <= m ->
  mid (String.append F (String c Y)) 0 (size F + 1 + m)
  = String.append F (String c (mid Y 0 m)).
Proof.
  intros Hm. unfold mid, size.
  destruct (Z.ltb_spec (Z.of_nat (String.length F) + 1 + m) 0); [lia |].
  destruct (Z.ltb_spec m 0); [lia |]. cbn [Z.ltb Z.compare orb Z.to_nat].
  replace (Z.to_nat (Z.of_nat (String.length F) + 1 + m))
    with (String.length F + S (Z.to_nat m))%nat by lia.
  apply substring_field.
Qed.

(** Taking exactly a field. *)
Lemma mid_field_stop (F Y : string) :
  mid (String.append F Y) 0 (size F) = F.
Proof.
  unfold mid, size.
  destruct (Z.ltb_spec (Z.of_nat (String.length F)) 0); [lia |].
  cbn [Z.ltb Z.compare orb Z.to_nat]. rewrite Nat2Z.id.
  apply StringFacts.substring_append_left.
Qed.

Lemma no_sep_head (sep x : ascii) (F : string) :
  span (fun c => negb (Ascii.eqb c sep)) (String x F) = size (String x F) ->
  Ascii.eqb x sep = false
  /\ span (fun c => negb (Ascii.eqb c sep)) F = size F.
Proof.
  unfold size. cbn [span String.length].
  pose proof (span_le_size (fun c => negb (Ascii.eqb c sep)) F) as Hle.
  unfold size in Hle.
  destruct (Ascii.eqb x sep); cbn [negb]; intros H; [lia |].
  split; [reflexivity | lia].
Qed.

(** [split] cuts a field without separator off at the separator. *)
Lemma split_field (sep : ascii) (F Y : string) :
  span (fun c => negb (Ascii.eqb c sep)) F = size F ->
  split sep (String.append F (String sep Y)) = F :: split sep Y.
Proof.
  induction F as [| x F IH]; intros HF.
  - cbn [String.append split]. rewrite Ascii.eqb_refl. reflexivity.
  - destruct (no_sep_head sep x F HF) as [Hx HF'].
    cbn [String.append split]. rewrite Hx, (IH HF'). reflexivity.
Qed.

Lemma split_last (sep : ascii) (F : string) :
  span (fun c => negb (Ascii.eqb c sep)) F = size F ->
  split sep F = [F].
Proof.
  induction F as [| x F IH]; intros HF.
  - reflexivity.
  - destruct (no_sep_head sep x F HF) as [Hx HF'].
    cbn [split]. rewrite Hx, (IH HF'). reflexivity.
Qed.

Lemma at_0 (c : ascii) (X : string) : at_ (String c X) 0 = c.
Proof. reflexivity. Qed.

Lemma at_1 (a c : ascii) (X : string) : at_ (String a (String c X)) 1 = c.
Proof. reflexivity. Qed.

Lemma from_0 (X : string) : from X 0 = X.
Proof.
  unfold from, mid, size.
  destruct (Z.ltb_spec (Z.of_nat (String.length X)) 0); [lia |].
  cbn [Z.ltb Z.compare orb Z.to_nat]. rewrite Nat2Z.id.
  apply StringFacts.substring_all. lia.
Qed.

Lemma from_2 (a c : ascii) (X : string) :
  from (String a (String c X)) 2 = X.
Proof.
  change (String a (String c X))
    with (String.append (String a (String c EmptyString)) X).
  change 2 with (size (String a (String c EmptyString)) + 0).
  rewrite ParseFacts.from_after_name by lia. apply from_0.
Qed.

Lemma mid_2 (a c : ascii) (X : string) (len : Z) :
  mid (String a (String c X)) 2 len = mid X 0 len.
Proof.
  change (String a (String c X))
    with (String.append (String a (String c EmptyString)) X).
  change 2 with (size (String a (String c EmptyString)) + 0).
  apply StringFacts.mid_append_right. lia.
Qed.

End FieldListFacts.

(** Brings a parse of [name ++ "={" ++ X] to a parse of [X]. *)
Ltac after_name p :=
  rewrite StringFacts.indexOf_prefix; cbn [Z.leb Z.compare];
  rewrite !Z.add_0_l;
  rewrite <- (Z.add_0_r (QByteArray.size (name p))) at 1;
  rewrite !StringFacts.at_append_right by lia;
  rewrite ?ParseFacts.from_after_name by lia;
  rewrite ?StringFacts.mid_append_right by lia;
  rewrite FieldListFacts.at_0, FieldListFacts.at_1;
  change (Ascii.eqb "=" "=") with true;
  change (Ascii.eqb "{" "{") with true;
  cbn [negb];
  rewrite FieldListFacts.from_2, !FieldListFacts.mid_2.

(** The text of a flag is free of the character [f] rejects. *)
Ltac flag_free :=
  apply FieldListFacts.flag_text; vm_compute; reflexivity.

(** Sums of sizes are not negative. *)
Ltac sizes_nonneg :=
  repeat match goal with
         | |- context [QByteArray.size ?s] =>
             pose proof (ParseFacts.size_nonneg s);
             generalize dependent (QByteArray.size s); intros
         end;
  lia.

Module SwizzleFacts.
Import ShaderKeys.

(** What [fromString] makes of what [toString] wrote: the five flags are
    set, in order, to the values they have in the serialised store. *)
Lemma swizzle_parse_of_print (p : QSSGShaderKeyPropertyBase)
    (inKeySet target : list Z) :
  TextureSwizzle.fromString p
    (TextureSwizzle.toString p EmptyString inKeySet) target
  = TextureSwizzle.setBitValue p TextureSwizzle.L16toR16
      (TextureSwizzle.getBitValue p TextureSwizzle.L16toR16 inKeySet)
      (TextureSwizzle.setBitValue p TextureSwizzle.L8A8toRG8
         (TextureSwizzle.getBitValue p TextureSwizzle.L8A8toRG8 inKeySet)
         (TextureSwizzle.setBitValue p TextureSwizzle.A8toR8
            (TextureSwizzle.getBitValue p TextureSwizzle.A8toR8 inKeySet)
            (TextureSwizzle.setBitValue p TextureSwizzle.L8toR8
               (TextureSwizzle.getBitValue p TextureSwizzle.L8toR8 inKeySet)
               (TextureSwizzle.setBitValue p TextureSwizzle.noSwizzle
                  (TextureSwizzle.getBitValue p TextureSwizzle.noSwizzle
                     inKeySet)
                  target)))).
Proof.
  unfold TextureSwizzle.toString. cbv zeta.
  generalize (TextureSwizzle.getBitValue p TextureSwizzle.noSwizzle inKeySet)
             (TextureSwizzle.getBitValue p TextureSwizzle.L8toR8 inKeySet)
             (TextureSwizzle.getBitValue p TextureSwizzle.A8toR8 inKeySet)
             (TextureSwizzle.getBitValue p TextureSwizzle.L8A8toRG8 inKeySet)
             (TextureSwizzle.getBitValue p TextureSwizzle.L16toR16 inKeySet).
  intros b0 b1 b2 b3 b4.
  rewrite (FieldListFacts.internalToString_bool_acc _ "l16swizzle" b4),
          (FieldListFacts.internalToString_bool_acc _ "l8a8swizzle" b3),
          (FieldListFacts.internalToString_bool_acc _ "a8swizzle" b2),
          (FieldListFacts.internalToString_bool_acc _ "l8swizzle" b1),
          (FieldListFacts.internalToString_bool_acc _ "noswizzle" b0).
  unfold QByteArray.append_char.
  rewrite !StringFacts.append_assoc. cbn [String.append].
  set (F0 := internalToString_bool EmptyString "noswizzle" b0).
  set (F1 := internalToString_bool EmptyString "l8swizzle" b1).
  set (F2 := internalToString_bool EmptyString "a8swizzle" b2).
  set (F3 := internalToString_bool EmptyString "l8a8swizzle" b3).
  set (F4 := internalToString_bool EmptyString "l16swizzle" b4).
  unfold TextureSwizzle.fromString. cbv zeta.
  after_name p.
  assert (Hlist :
            QByteArray.split ";"
              (QByteArray.mid
                 (String.append F0 (String ";"
                    (String.append F1 (String ";"
                       (String.append F2 (String ";"
                          (String.append F3 (String ";"
                             (String.append F4 (String "}" "")))))))))) 0
                 (QByteArray.span (fun c => negb (Ascii.eqb c "}"))
                    (String.append F0 (String ";"
                       (String.append F1 (String ";"
                          (String.append F2 (String ";"
                             (String.append F3 (String ";"
                                (String.append F4 (String "}" ""))))))))))))
            = [F0; F1; F2; F3; F4]).
  { rewrite !FieldListFacts.span_field_sep by (flag_free || reflexivity).
    rewrite FieldListFacts.span_field_stop by (flag_free || reflexivity).
    rewrite !FieldListFacts.mid_field_sep by sizes_nonneg.
    rewrite FieldListFacts.mid_field_stop.
    rewrite !FieldListFacts.split_field by flag_free.
    apply f_equal, f_equal, f_equal, f_equal.
    apply FieldListFacts.split_last. flag_free. }
  rewrite Hlist. cbn [length Nat.eqb negb nth].
  subst F0 F1 F2 F3 F4.
  rewrite !StringFacts.getBoolValue_internalToString. reflexivity.
Qed.

End SwizzleFacts.

Module FlagSetFacts.
Import ShaderKeys.

(** Two stores in which every flag of a [w]-bit property reads the same
    hold the same value of the property. *)
Lemma flags_determine_value (w : Z) (p : QSSGShaderKeyPropertyBase)
    (ks ks' : list Z) :
  0 <= w -> offset p mod 32 + w <= 32 ->
  (forall j, 0 <= j < w ->
     negb (Z.land (Unsigned.getValue w p ks) (2 ^ j) =? 0)
     = negb (Z.land (Unsigned.getValue w p ks') (2 ^ j) =? 0)) ->
  Unsigned.getValue w p ks = Unsigned.getValue w p ks'.
Proof.
  intros Hw Hfit Hflags. apply Z.bits_inj'. intros i Hi.
  destruct (Z.ltb_spec i w) as [Hlt | Hge].
  - specialize (Hflags i ltac:(lia)).
    rewrite !FlagFacts.land_pow2_eqb, !negb_involutive in Hflags by lia.
    exact Hflags.
  - rewrite !BitFieldFacts.getValue_testbit by lia.
    destruct (Z.ltb_spec i w); [lia | reflexivity].
Qed.

End FlagSetFacts.

(** X12. A texture-swizzle property serialised on its own and parsed back
    has the five flags it had. *)
Theorem TextureSwizzle_toString_fromString
    (p : QSSGShaderKeyPropertyBase) (inKeySet target : list Z) :
  0 <= offset p -> offset p mod 32 + 5 <= 32 ->
  (Z.to_nat (getIdx p) < length target)%nat ->
  Unsigned.getValue 5 p
    (TextureSwizzle.fromString p
       (TextureSwizzle.toString p EmptyString inKeySet) target)
  = Unsigned.getValue 5 p inKeySet.
Proof.
  intros Hp Hfit Hin. rewrite SwizzleFacts.swizzle_parse_of_print.
  apply FlagSetFacts.flags_determine_value; [lia | assumption |].
  intros j' Hj'.
  assert (Hflag : forall ks j b,
             (Z.to_nat (getIdx p) < length ks)%nat -> 0 <= j < 5 ->
             negb (Z.land (Unsigned.getValue 5 p
                             (TextureSwizzle.setBitValue p (2 ^ j) b ks))
                     (2 ^ j') =? 0)
             = if j' =? j then b
               else negb (Z.land (Unsigned.getValue 5 p ks) (2 ^ j') =? 0)).
  { intros ks j b Hks Hj.
    apply (FlagFacts.flag_written_then_read 5 p ks j j' b); assumption. }
  assert (Hlen : forall ks j b,
             length (TextureSwizzle.setBitValue p j b ks) = length ks).
  { intros ks j b. apply FieldFacts.setValue_length. }
  change TextureSwizzle.L16toR16 with (2 ^ 4).
  change TextureSwizzle.L8A8toRG8 with (2 ^ 3).
  change TextureSwizzle.A8toR8 with (2 ^ 2).
  change TextureSwizzle.L8toR8 with (2 ^ 1).
  change TextureSwizzle.noSwizzle with (2 ^ 0).
  rewrite !Hflag by (rewrite ?Hlen; assumption || lia).
  unfold TextureSwizzle.getBitValue.
  assert (Hcases : j' = 0 \/ j' = 1 \/ j' = 2 \/ j' = 3 \/ j' = 4) by lia.
  destruct Hcases as [-> | [-> | [-> | [-> | ->]]]]; reflexivity.
Qed.

Lemma TextureSwizzle_toString_fromString_witness :
  Unsigned.getValue 5 (mkProp "diffuseMap_swizzle" 8)
    (TextureSwizzle.fromString (mkProp "diffuseMap_swizzle" 8)
       (TextureSwizzle.toString (mkProp "diffuseMap_swizzle" 8) EmptyString
          [2560]) [0])
  = Unsigned.getValue 5 (mkProp "diffuseMap_swizzle" 8) [2560].
Proof.
  apply (TextureSwizzle_toString_fromString
           (mkProp "diffuseMap_swizzle" 8) [2560] [0]);
    [ simpl; lia | vm_compute; discriminate | vm_compute; lia ].
Defined.


Module VertexAttributeFacts.
Import ShaderKeys.

(** What [fromString] makes of what [toString] wrote: the first seven
    flags are set, in order, to the values they have in the serialised
    store; the text after the first closing brace is not read. *)
Lemma vertex_parse_of_print (p : QSSGShaderKeyPropertyBase)
    (inKeySet target : list Z) :
  VertexAttribute.fromString p
    (VertexAttribute.toString p EmptyString inKeySet) target
  = VertexAttribute.setBitValue p VertexAttribute.Color
      (VertexAttribute.setBitValue p VertexAttribute.Binormal
         (VertexAttribute.setBitValue p VertexAttribute.Tangent
            (VertexAttribute.setBitValue p VertexAttribute.TexCoord1
               (VertexAttribute.setBitValue p VertexAttribute.TexCoord0
                  (VertexAttribute.setBitValue p VertexAttribute.Normal
                     (VertexAttribute.setBitValue p VertexAttribute.Position
                        target
                        (VertexAttribute.getBitValue p
                           VertexAttribute.Position inKeySet))
                     (VertexAttribute.getBitValue p VertexAttribute.Normal
                        inKeySet))
                  (VertexAttribute.getBitValue p VertexAttribute.TexCoord0
                     inKeySet))
               (VertexAttribute.getBitValue p VertexAttribute.TexCoord1
                  inKeySet))
            (VertexAttribute.getBitValue p VertexAttribute.Tangent inKeySet))
         (VertexAttribute.getBitValue p VertexAttribute.Binormal inKeySet))
      (VertexAttribute.getBitValue p VertexAttribute.Color inKeySet).
Proof.
  unfold VertexAttribute.toString. cbv zeta.
  generalize
    (VertexAttribute.getBitValue p VertexAttribute.Position inKeySet)
    (VertexAttribute.getBitValue p VertexAttribute.Normal inKeySet)
    (VertexAttribute.getBitValue p VertexAttribute.TexCoord0 inKeySet)
    (VertexAttribute.getBitValue p VertexAttribute.TexCoord1 inKeySet)
    (VertexAttribute.getBitValue p VertexAttribute.Tangent inKeySet)
    (VertexAttribute.getBitValue p VertexAttribute.Binormal inKeySet)
    (VertexAttribute.getBitValue p VertexAttribute.Color inKeySet)
    (VertexAttribute.getBitValue p VertexAttribute.JointAndWeight inKeySet).
  intros b0 b1 b2 b3 b4 b5 b6 b7.
  rewrite (FieldListFacts.internalToString_bool_acc _ "joint&weight" b7),
          (FieldListFacts.internalToString_bool_acc _ "color" b6),
          (FieldListFacts.internalToString_bool_acc _ "binormal" b5),
          (FieldListFacts.internalToString_bool_acc _ "tangent" b4),
          (FieldListFacts.internalToString_bool_acc _ "texcoord1" b3),
          (FieldListFacts.internalToString_bool_acc _ "texcoord0" b2),
          (FieldListFacts.internalToString_bool_acc _ "normal" b1),
          (FieldListFacts.internalToString_bool_acc _ "position" b0).
  unfold QByteArray.append_char.
  rewrite !StringFacts.append_assoc. cbn [String.append].
  set (F0 := internalToString_bool EmptyString "position" b0).
  set (F1 := internalToString_bool EmptyString "normal" b1).
  set (F2 := internalToString_bool EmptyString "texcoord0" b2).
  set (F3 := internalToString_bool EmptyString "texcoord1" b3).
  set (F4 := internalToString_bool EmptyString "tangent" b4).
  set (F5 := internalToString_bool EmptyString "binormal" b5).
  set (F6 := internalToString_bool EmptyString "color" b6).
  set (F7 := internalToString_bool EmptyString "joint&weight" b7).
  unfold VertexAttribute.fromString. cbv zeta.
  after_name p.
  match goal with
  | |- context [QByteArray.split ";" ?body] =>
      assert (Hlist : QByteArray.split ";" body
                      = [F0; F1; F2; F3; F4; F5; F6])
  end.
  { rewrite !FieldListFacts.span_field_sep by (flag_free || reflexivity).
    rewrite FieldListFacts.span_field_stop by (flag_free || reflexivity).
    rewrite !FieldListFacts.mid_field_sep by sizes_nonneg.
    rewrite FieldListFacts.mid_field_stop.
    rewrite !FieldListFacts.split_field by flag_free.
    do 6 apply f_equal.
    apply FieldListFacts.split_last. flag_free. }
  rewrite Hlist. cbn [length Nat.eqb negb nth].
  subst F0 F1 F2 F3 F4 F5 F6.
  rewrite !StringFacts.getBoolValue_internalToString. reflexivity.
Qed.

End VertexAttributeFacts.

(** X13. A vertex-attribute property serialised on its own and parsed
    back has the first seven attribute flags (position to color) it had;
    the joint-and-weight flag, written after the closing brace, is not
    read: it keeps the value it has in the store parsed into. *)
Theorem VertexAttribute_toString_fromString
    (p : QSSGShaderKeyPropertyBase) (inKeySet target : list Z) :
  0 <= offset p -> offset p mod 32 + 8 <= 32 ->
  (Z.to_nat (getIdx p) < length target)%nat ->
  let parsed :=
    VertexAttribute.fromString p
      (VertexAttribute.toString p EmptyString inKeySet) target in
  (forall j, 0 <= j < 7 ->
     VertexAttribute.getBitValue p (2 ^ j) parsed
     = VertexAttribute.getBitValue p (2 ^ j) inKeySet)
  /\ VertexAttribute.getBitValue p VertexAttribute.JointAndWeight parsed
     = VertexAttribute.getBitValue p VertexAttribute.JointAndWeight target.
Proof.
  intros Hp Hfit Hin parsed. subst parsed.
  rewrite VertexAttributeFacts.vertex_parse_of_print.
  assert (Hflag : forall ks j j' b,
             (Z.to_nat (getIdx p) < length ks)%nat ->
             0 <= j < 8 -> 0 <= j' < 8 ->
             VertexAttribute.getBitValue p (2 ^ j')
               (VertexAttribute.setBitValue p (2 ^ j) ks b)
             = if j' =? j then b
               else VertexAttribute.getBitValue p (2 ^ j') ks).
  { intros ks j j' b Hks Hj Hj'.
    apply (FlagFacts.flag_written_then_read 8 p ks j j' b); assumption. }
  assert (Hlen : forall ks j b,
             length (VertexAttribute.setBitValue p j ks b) = length ks).
  { intros ks j b. apply FieldFacts.setValue_length. }
  change VertexAttribute.JointAndWeight with (2 ^ 7).
  change VertexAttribute.Color with (2 ^ 6).
  change VertexAttribute.Binormal with (2 ^ 5).
  change VertexAttribute.Tangent with (2 ^ 4).
  change VertexAttribute.TexCoord1 with (2 ^ 3).
  change VertexAttribute.TexCoord0 with (2 ^ 2).
  change VertexAttribute.Normal with (2 ^ 1).
  change VertexAttribute.Position with (2 ^ 0).
  split.
  - intros j' Hj'.
    rewrite !Hflag by (rewrite ?Hlen; assumption || lia).
    assert (Hcases : j' = 0 \/ j' = 1 \/ j' = 2 \/ j' = 3 \/ j' = 4
                     \/ j' = 5 \/ j' = 6) by lia.
    destruct Hcases as [-> | [-> | [-> | [-> | [-> | [-> | ->]]]]]];
      reflexivity.
  - rewrite !Hflag by (rewrite ?Hlen; assumption || lia).
    reflexivity.
Qed.

Lemma VertexAttribute_toString_fromString_witness :
  VertexAttribute.getBitValue (mkProp "vertexAttributes" 296)
    VertexAttribute.Tangent
    (VertexAttribute.fromString (mkProp "vertexAttributes" 296)
       (VertexAttribute.toString (mkProp "vertexAttributes" 296) EmptyString
          (VertexAttribute.setBitValue (mkProp "vertexAttributes" 296)
             VertexAttribute.Tangent (repeat 0 10) true))
       (repeat 0 10))
  = true.
Proof.
  destruct (VertexAttribute_toString_fromString
              (mkProp "vertexAttributes" 296)
              (VertexAttribute.setBitValue (mkProp "vertexAttributes" 296)
                 VertexAttribute.Tangent (repeat 0 10) true)
              (repeat 0 10))
    as [Hflags _];
    [ simpl; lia | vm_compute; discriminate | vm_compute; lia | ].
  etransitivity; [exact (Hflags 4 ltac:(lia)) | vm_compute; reflexivity].
Defined.

Module EntryFacts.
Import QByteArray ShaderKeys.

(** Every property appends its text to the array: what it writes does
    not depend on what the array holds. *)
Lemma prop_toString_acc (t : PropType) (p : QSSGShaderKeyPropertyBase)
    (acc : string) (inKeySet : list Z) :
  prop_toString t p acc inKeySet
  = String.append acc (prop_toString t p EmptyString inKeySet).
Proof.
  destruct t; cbn [prop_toString].
  - apply FieldListFacts.internalToString_bool_acc.
  - reflexivity.
  - unfold TextureChannel.toString, append_char. cbn [String.append].
    now rewrite !StringFacts.append_assoc.
  - unfold TextureSwizzle.toString. cbv zeta.
    rewrite
      !(FieldListFacts.internalToString_bool_acc (append_char _ _)),
      !(FieldListFacts.internalToString_bool_acc (String.append _ _)).
    unfold append_char. cbn [String.append].
    now rewrite !StringFacts.append_assoc.
  - unfold ImageMap.toString. cbv zeta.
    rewrite
      !(FieldListFacts.internalToString_bool_acc (append_char _ _)),
      !(FieldListFacts.internalToString_bool_acc (String.append _ _)).
    unfold append_char. cbn [String.append].
    now rewrite !StringFacts.append_assoc.
  - unfold SpecularModel.toString, append_char. cbv zeta.
    cbn [String.append].
    destruct (SpecularModel.getSpecularModel p inKeySet
              =? MaterialSpecularModel.KGGX);
      [| destruct (SpecularModel.getSpecularModel p inKeySet
                   =? MaterialSpecularModel.Default) ];
      now rewrite !StringFacts.append_assoc.
  - unfold AlphaMode.toString, append_char. cbv zeta.
    cbn [String.append].
    destruct (AlphaMode.getAlphaMode p inKeySet
              =? MaterialAlphaMode.Default);
      [| destruct (AlphaMode.getAlphaMode p inKeySet
                   =? MaterialAlphaMode.Mask);
         [| destruct (AlphaMode.getAlphaMode p inKeySet
                      =? MaterialAlphaMode.Blend) ] ];
      now rewrite !StringFacts.append_assoc.
  - unfold VertexAttribute.toString. cbv zeta.
    rewrite
      !(FieldListFacts.internalToString_bool_acc (append_char _ _)),
      !(FieldListFacts.internalToString_bool_acc (String.append _ _)).
    unfold append_char. cbn [String.append].
    now rewrite !StringFacts.append_assoc.
Qed.

Lemma size_0_empty (s : string) : size s = 0 -> s = EmptyString.
Proof. destruct s; [reflexivity | unfold size; cbn; lia]. Qed.

End EntryFacts.

(** X14. What [StringVisitor] adds for one property: nothing when the
    property writes no text (a boolean that is false), the text alone when
    the string was empty, and otherwise a semicolon followed by the
    text. The text is what the property's [toString] writes into an empty
    array. *)
Theorem StringVisitor_appends_entry
    (t : PropType) (p : QSSGShaderKeyPropertyBase) (m_str : string)
    (m_keyStore : list Z) :
  let text := prop_toString t p EmptyString m_keyStore in
  StringVisitor_visit m_keyStore t p m_str
  = (p, if QByteArray.size text =? 0 then m_str
        else if QByteArray.size m_str =? 0 then text
        else String.append m_str (String ";" text)).
Proof.
  intros text. unfold StringVisitor_visit. cbv zeta. f_equal.
  destruct (Z.eqb_spec (QByteArray.size m_str) 0) as [Hempty | Hfull];
    cbn [negb andb].
  - apply EntryFacts.size_0_empty in Hempty. subst m_str.
    rewrite EntryFacts.prop_toString_acc. cbn [String.append]. fold text.
    destruct (Z.eqb_spec (QByteArray.size text) 0) as [Ht | Ht];
      [| reflexivity ].
    apply EntryFacts.size_0_empty in Ht. exact Ht.
  - rewrite EntryFacts.prop_toString_acc. fold text.
    unfold QByteArray.append_char. rewrite StringFacts.append_assoc.
    cbn [String.append].
    rewrite ParseFacts.size_append.
    change (QByteArray.size (String ";" text))
      with (Z.of_nat (S (String.length text))).
    pose proof (ParseFacts.size_nonneg text) as Hnn.
    destruct (Z.eqb_spec (QByteArray.size text) 0) as [Ht | Ht].
    + apply EntryFacts.size_0_empty in Ht. rewrite Ht.
      cbn [String.length].
      destruct (Z.eqb_spec (QByteArray.size m_str + Z.of_nat 1)
                  (QByteArray.size m_str + 1)); [| lia ].
      unfold QByteArray.resize, QByteArray.left.
      pose proof (ParseFacts.size_nonneg m_str).
      destruct (Z.ltb_spec (QByteArray.size m_str) 0); [lia |].
      unfold QByteArray.size. rewrite Nat2Z.id.
      apply StringFacts.substring_append_left.
    + unfold QByteArray.size in Ht, Hnn.
      destruct (Z.eqb_spec
                  (QByteArray.size m_str + Z.of_nat (S (String.length text)))
                  (QByteArray.size m_str + 1)); [lia | reflexivity].
Qed.

(** * The particle randomizer *)

Module QPRandFacts.
Import QPRand.

Section Generator.

Context {QRandomGenerator double float : Type}.
Variable seed : QRandomGenerator -> Z -> QRandomGenerator.
Variable generateDouble : QRandomGenerator -> double * QRandomGenerator.
Variable float_of_double : double -> float.

Lemma fill_length (n : nat) (g : QRandomGenerator) (l : list float) :
  length (snd (fill generateDouble float_of_double n g l))
  = (length l + n)%nat.
Proof.
  revert g l. induction n as [| n IH]; intros g l; cbn [fill].
  - cbn [snd]. lia.
  - destruct (generateDouble g) as [d g']. rewrite IH.
    rewrite length_app. cbn [length]. lia.
Qed.

(** [init] leaves a list of [size] numbers, whatever the list held. *)
Lemma init_fields (seed_ size : Z) (r : QPRand QRandomGenerator float) :
  length (m_randomList (init seed generateDouble float_of_double
                          seed_ size r)) = Z.to_nat size
  /\ m_size (init seed generateDouble float_of_double seed_ size r) = size
  /\ m_index (init seed generateDouble float_of_double seed_ size r)
     = m_index r
  /\ m_deterministic (init seed generateDouble float_of_double seed_ size r)
     = m_deterministic r.
Proof.
  unfold init. cbv zeta.
  pose proof (fill_length (Z.to_nat size) (seed (m_generator r) seed_) [])
    as Hlen.
  destruct (fill generateDouble float_of_double (Z.to_nat size)
              (seed (m_generator r) seed_) []) as [g l].
  cbn [snd length Nat.add] in Hlen.
  cbn [m_randomList m_size m_index m_deterministic]. auto.
Qed.

End Generator.

(** An index within the list is read. *)
Lemma at_within {float : Type} (l : list float) (i : Z) :
  0 <= i -> (Z.to_nat i < length l)%nat ->
  exists x, at_ l i = Some x /\ l !! Z.to_nat i = Some x.
Proof.
  intros Hi Hlen. unfold at_.
  destruct (Z.ltb_spec i 0); [lia |].
  destruct (lookup_lt_is_Some_2 l (Z.to_nat i) Hlen) as [x Hx].
  exists x. auto.
Qed.

(** One call of [get()] on a filled list. *)
Lemma get_step {QRandomGenerator float : Type}
    (r : QPRand QRandomGenerator float) :
  length (m_randomList r) = Z.to_nat (m_size r) ->
  0 <= m_index r < m_size r ->
  exists x,
    get r
    = Some (x, mkQPRand (m_generator r) (m_size r)
                 ((m_index r + 1) mod m_size r) (m_deterministic r)
                 (m_randomList r))
    /\ m_randomList r !! Z.to_nat ((m_index r + 1) mod m_size r) = Some x.
Proof.
  intros Hlen Hidx. unfold get. cbv zeta. cbn [m_randomList].
  assert (Hnext : (if m_index r <? m_size r - 1 then m_index r + 1 else 0)
                  = (m_index r + 1) mod m_size r).
  { destruct (Z.ltb_spec (m_index r) (m_size r - 1)).
    - symmetry. apply Z.mod_small. lia.
    - replace (m_index r + 1) with (m_size r) by lia.
      symmetry. apply Z.mod_same. lia. }
  rewrite Hnext.
  pose proof (Z.mod_pos_bound (m_index r + 1) (m_size r) ltac:(lia)) as Hb.
  destruct (at_within (m_randomList r) ((m_index r + 1) mod m_size r))
    as (x & Hat & Hlook); [lia | lia |].
  rewrite Hat. exists x. auto.
Qed.

Lemma get_times_walk {QRandomGenerator float : Type} (k : nat) :
  forall r : QPRand QRandomGenerator float,
  length (m_randomList r) = Z.to_nat (m_size r) ->
  0 <= m_index r < m_size r ->
  exists xs,
    get_times k r
    = Some (xs, mkQPRand (m_generator r) (m_size r)
                  ((m_index r + Z.of_nat k) mod m_size r)
                  (m_deterministic r) (m_randomList r))
    /\ length xs = k
    /\ (forall j : nat,
          (j < k)%nat ->
          xs !! j
          = m_randomList r
              !! Z.to_nat ((m_index r + Z.of_nat j + 1) mod m_size r)).
Proof.
  induction k as [| k IH]; intros r Hlen Hidx.
  - exists []. cbn [get_times]. rewrite Z.add_0_r.
    rewrite Z.mod_small by lia. destruct r. cbn.
    split; [reflexivity |]. split; [reflexivity |]. intros j Hj. lia.
  - destruct (get_step r Hlen Hidx) as (x & Hget & Hx).
    cbn [get_times]. rewrite Hget.
    pose proof (Z.mod_pos_bound (m_index r + 1) (m_size r) ltac:(lia)) as Hb.
    destruct (IH (mkQPRand (m_generator r) (m_size r)
                    ((m_index r + 1) mod m_size r) (m_deterministic r)
                    (m_randomList r)))
      as (xs & Hrest & Hlenxs & Hxs);
      [exact Hlen | exact Hb |].
    cbn [m_generator m_size m_index m_deterministic m_randomList] in *.
    rewrite Hrest. exists (x :: xs).
    assert (Hshift : forall n,
               ((m_index r + 1) mod m_size r + n) mod m_size r
               = (m_index r + 1 + n) mod m_size r).
    { intros n. rewrite Z.add_mod_idemp_l by lia. reflexivity. }
    split.
    { do 3 f_equal. rewrite Hshift. f_equal. lia. }
    split; [cbn [length]; lia |].
    intros [| j] Hj.
    + change ((x :: xs) !! 0%nat) with (Some x).
      rewrite Z.add_0_r. symmetry. exact Hx.
    + change ((x :: xs) !! S j) with (xs !! j).
      rewrite (Hxs j) by lia.
      replace ((m_index r + 1) mod m_size r + Z.of_nat j + 1)
        with ((m_index r + 1) mod m_size r + (Z.of_nat j + 1)) by lia.
      rewrite Hshift. do 3 f_equal. lia.
Qed.

End QPRandFacts.

(** X15. On a non-empty list of [m_size] numbers and with an index that
    is not negative (as [get()] keeps it), [k] calls of [get()] in a row
    all succeed and walk the list cyclically from the entry
    [start = m_index + 1], or from [start = 0] when the index is
    [m_size - 1] or beyond (as it can be after an [init] with a smaller
    size): the call number [j] (from 0) returns the entry
    [(start + j) mod m_size], the index ends at the entry returned last
    and nothing else of the object changes; with the index within the
    list, after [m_size] calls the object is as it was. *)
Theorem get_walks_the_list_cyclically
    {QRandomGenerator float : Type}
    (r : QPRand.QPRand QRandomGenerator float) (k : nat) :
  length (QPRand.m_randomList r) = Z.to_nat (QPRand.m_size r) ->
  1 <= QPRand.m_size r ->
  0 <= QPRand.m_index r ->
  let start :=
    if QPRand.m_index r <? QPRand.m_size r - 1
    then QPRand.m_index r + 1 else 0 in
  exists xs r',
    QPRand.get_times k r = Some (xs, r')
    /\ length xs = k
    /\ (forall j : nat,
          (j < k)%nat ->
          xs !! j
          = QPRand.m_randomList r
              !! Z.to_nat ((start + Z.of_nat j) mod QPRand.m_size r))
    /\ QPRand.m_index r'
       = match k with
         | O => QPRand.m_index r
         | S _ => (start + Z.of_nat k - 1) mod QPRand.m_size r
         end
    /\ QPRand.m_randomList r' = QPRand.m_randomList r
    /\ QPRand.m_size r' = QPRand.m_size r
    /\ QPRand.m_deterministic r' = QPRand.m_deterministic r
    /\ QPRand.m_generator r' = QPRand.m_generator r
    /\ (QPRand.m_index r < QPRand.m_size r ->
        Z.of_nat k = QPRand.m_size r -> r' = r).
Proof.
  intros Hlen Hsize Hidx start.
  destruct k as [| k].
  { exists [], r. cbn [QPRand.get_times length].
    repeat (split; [reflexivity |]). split; [intros j Hj; lia |].
    repeat (split; [reflexivity |]). intros _ Hk. cbn in Hk. lia. }
  assert (Hstart : 0 <= start < QPRand.m_size r).
  { subst start.
    destruct (Z.ltb_spec (QPRand.m_index r) (QPRand.m_size r - 1)); lia. }
  (* the first call *)
  assert (Hfirst : exists x,
             QPRand.get r
             = Some (x, QPRand.mkQPRand (QPRand.m_generator r)
                          (QPRand.m_size r) start (QPRand.m_deterministic r)
                          (QPRand.m_randomList r))
             /\ QPRand.m_randomList r !! Z.to_nat start = Some x).
  { unfold QPRand.get. cbv zeta. cbn [QPRand.m_randomList]. fold start.
    destruct (QPRandFacts.at_within (QPRand.m_randomList r) start)
      as (x & Hat & Hlook); [lia | lia |].
    rewrite Hat. exists x. auto. }
  destruct Hfirst as (x & Hget & Hx).
  (* the calls after it start within the list *)
  destruct (QPRandFacts.get_times_walk k
              (QPRand.mkQPRand (QPRand.m_generator r) (QPRand.m_size r)
                 start (QPRand.m_deterministic r) (QPRand.m_randomList r)))
    as (xs & Hrest & Hlenxs & Hxs); [exact Hlen | exact Hstart |].
  cbn [QPRand.m_generator QPRand.m_size QPRand.m_index
       QPRand.m_deterministic QPRand.m_randomList] in *.
  eexists (x :: xs), _. cbn [QPRand.get_times]. rewrite Hget, Hrest.
  split; [reflexivity |].
  cbn [QPRand.m_index QPRand.m_randomList QPRand.m_size
       QPRand.m_deterministic QPRand.m_generator].
  split; [cbn [length]; lia |]. split.
  { intros [| j] Hj.
    - change ((x :: xs) !! 0%nat) with (Some x).
      rewrite Z.add_0_r, Z.mod_small by lia. symmetry. exact Hx.
    - change ((x :: xs) !! S j) with (xs !! j).
      rewrite (Hxs j) by lia. do 3 f_equal. lia. }
  split; [f_equal; lia |].
  repeat (split; [reflexivity |]).
  intros Hin Hk.
  assert (Hs : start = (QPRand.m_index r + 1) mod QPRand.m_size r).
  { subst start.
    destruct (Z.ltb_spec (QPRand.m_index r) (QPRand.m_size r - 1)).
    - symmetry. apply Z.mod_small. lia.
    - replace (QPRand.m_index r + 1) with (QPRand.m_size r) by lia.
      symmetry. apply Z.mod_same. lia. }
  replace (Z.of_nat k) with (QPRand.m_size r - 1) by lia.
  rewrite Hs, Z.add_mod_idemp_l by lia.
  replace (QPRand.m_index r + 1 + (QPRand.m_size r - 1))
    with (QPRand.m_index r + 1 * QPRand.m_size r) by lia.
  rewrite Z.mod_add by lia. rewrite Z.mod_small by lia.
  destruct r; reflexivity.
Qed.

Lemma get_walks_the_list_cyclically_witness :
  exists xs r',
    QPRand.get_times 2 (QPRand.mkQPRand tt 3 7 false [10; 20; 30])
    = Some (xs, r')
    /\ xs !! 0%nat = Some 10
    /\ xs !! 1%nat = Some 20
    /\ QPRand.m_index r' = 1.
Proof.
  destruct (get_walks_the_list_cyclically
              (QPRand.mkQPRand tt 3 7 false [10; 20; 30]) 2)
    as (xs & r' & Hrun & _ & Hxs & Hidx & _);
    [ reflexivity | cbn; lia | cbn; lia | ].
  exists xs, r'. split; [exact Hrun |].
  rewrite (Hxs 0%nat), (Hxs 1%nat) by lia.
  repeat split. exact Hidx.
Defined.



(** X17. Where the randomizer fails: [get()] on a list of [m_size]
    numbers fails exactly when the list is empty, as before the first
    [init]; and [get(particleIndex, user)], when it reads by index,
    fails when [m_size] is 0 and when the sum of particle index and user
    is negative and not a multiple of [m_size]. *)
Theorem get_fails_outside_the_list
    {QRandomGenerator float : Type}
    (r : QPRand.QPRand QRandomGenerator float)
    (particleIndex : Z) (user : QPRand.UserType) :
  length (QPRand.m_randomList r) = Z.to_nat (QPRand.m_size r) ->
  0 <= QPRand.m_index r ->
  (QPRand.get r = None <-> QPRand.m_size r <= 0)
  /\ (QPRand.m_deterministic r = true
      \/ QPRand.UserType_value user
         <= QPRand.UserType_value QPRand.DeterministicSeparator ->
      QPRand.m_size r = 0
      \/ (particleIndex + QPRand.UserType_value user < 0
          /\ Z.rem (particleIndex + QPRand.UserType_value user)
               (QPRand.m_size r) <> 0) ->
      QPRand.get_user particleIndex user r = None).
Proof.
  intros Hlen Hidx. split.
  - unfold QPRand.get. cbv zeta. cbn [QPRand.m_randomList].
    unfold QPRand.at_.
    destruct (Z.ltb_spec (QPRand.m_index r) (QPRand.m_size r - 1)).
    + destruct (Z.ltb_spec (QPRand.m_index r + 1) 0); [lia |].
      destruct (lookup_lt_is_Some_2 (QPRand.m_randomList r)
                  (Z.to_nat (QPRand.m_index r + 1)) ltac:(lia)) as [x Hx].
      rewrite Hx. split; [discriminate | lia].
    + cbn [Z.ltb Z.compare Z.to_nat].
      destruct (QPRand.m_randomList r) as [| x l] eqn:El; cbn [lookup].
      * cbn [length] in Hlen. split; [lia | reflexivity].
      * cbn [length] in Hlen. cbn. split; [discriminate | lia].
  - intros Hdet Hout. unfold QPRand.get_user.
    assert (Hguard : negb (QPRand.m_deterministic r)
                     && (QPRand.UserType_value user
                         >? QPRand.UserType_value
                              QPRand.DeterministicSeparator) = false).
    { destruct Hdet as [-> | Hle]; [reflexivity |].
      rewrite Z.gtb_ltb. destruct (Z.ltb_spec
        (QPRand.UserType_value QPRand.DeterministicSeparator)
        (QPRand.UserType_value user)); [lia | apply andb_false_r]. }
    rewrite Hguard. unfold QPRand.int_add. cbv zeta.
    destruct ((QPRand.INT_MIN
               <=? particleIndex + QPRand.UserType_value user)
              && (particleIndex + QPRand.UserType_value user
                  <=? QPRand.INT_MAX)); [| reflexivity ].
    destruct (Z.eqb_spec (QPRand.m_size r) 0) as [Hz | Hnz];
      [reflexivity |].
    destruct Hout as [Hz | [Hneg Hrem]]; [contradiction |].
    pose proof (Z.rem_nonpos (particleIndex + QPRand.UserType_value user)
                  (QPRand.m_size r) Hnz ltac:(lia)) as Hle.
    unfold QPRand.at_.
    destruct (Z.ltb_spec
                (Z.rem (particleIndex + QPRand.UserType_value user)
                   (QPRand.m_size r)) 0); [reflexivity | lia].
Qed.

Lemma get_fails_outside_the_list_witness :
  QPRand.get (QPRand.mkQPRand tt 0 0 false (@nil Z)) = None
  /\ QPRand.get_user (-1) QPRand.Default
       (QPRand.mkQPRand tt 3 0 false [10; 20; 30]) = None.
Proof.
  split.
  - destruct (get_fails_outside_the_list
                (QPRand.mkQPRand tt 0 0 false (@nil Z)) 0 QPRand.Default)
      as [Hget _]; [ reflexivity | cbn; lia | ].
    apply Hget. cbn. lia.
  - destruct (get_fails_outside_the_list
                (QPRand.mkQPRand tt 3 0 false [10; 20; 30]) (-1)
                QPRand.Default)
      as [_ Hget]; [ reflexivity | cbn; lia | ].
    apply Hget.
    + right. cbn. lia.
    + right. split; [ cbn; lia | vm_compute; discriminate ].
Defined.

(** * Further properties of the OpenXR manager *)

Import OpenXR.

(** X18. When the runtime refuses to create the reference space,
    [setupAppSpace] returns false after that one call: nothing is
    destroyed, no signal is emitted, and the app space, the reference
    space in use and the requested one are as before. *)
Theorem failed_setupAppSpace_keeps_the_app_space
    (checkXrResult : XrResult -> bool) (w : World) :
  m_session (mgr w) <> XR_NULL_HANDLE ->
  checkXrResult (result (coming w 0)) = false ->
  exists w' createInfo,
    setupAppSpace checkXrResult w = Some (false, w')
    /\ log w'
       = log w ++ [Call (xrCreateReferenceSpace (m_session (mgr w))
                           createInfo)]
    /\ m_appSpace (mgr w') = m_appSpace (mgr w)
    /\ m_referenceSpace (mgr w') = m_referenceSpace (mgr w)
    /\ m_requestedReferenceSpace (mgr w')
       = m_requestedReferenceSpace (mgr w).
Proof.
  intros Hsession Hfail. unfold coming in Hfail.
  apply Z.eqb_neq in Hsession.
  run. rewrite Hsession. simpl.
  destruct (responses w) as [| r0 rest]; simpl in *;
    destruct (existsb
                (XrReferenceSpaceType_eqb (m_requestedReferenceSpace (mgr w)))
                (m_availableReferenceSpace (mgr w)));
    simpl;
    try (destruct (XrReferenceSpaceType_eqb
                     (m_requestedReferenceSpace (mgr w))
                     XR_REFERENCE_SPACE_TYPE_LOCAL_FLOOR_EXT
                   && existsb
                        (XrReferenceSpaceType_eqb
                           XR_REFERENCE_SPACE_TYPE_STAGE)
                        (m_availableReferenceSpace (mgr w))); simpl);
    rewrite Hfail; simpl;
    (do 2 eexists; split; [reflexivity |]; simpl; repeat split).
Qed.

Lemma failed_setupAppSpace_keeps_the_app_space_witness :
  exists w',
    setupAppSpace Examples.checkXrResult
      (Examples.world Examples.steady [Examples.failure])
    = Some (false, w')
    /\ m_appSpace (mgr w') = 10.
Proof.
  destruct (failed_setupAppSpace_keeps_the_app_space Examples.checkXrResult
              (Examples.world Examples.steady [Examples.failure]))
    as (w' & info & Hrun & _ & Happ & _).
  - simpl. discriminate.
  - reflexivity.
  - exists w'. split; assumption.
Defined.

(** X19. When the runtime creates the reference space, [setupAppSpace]
    returns true with the new space as app space: the space created is the
    requested one if the runtime offers it and the local space otherwise;
    the old app space is destroyed exactly when there was one; the floor
    emulation is armed exactly when the floor-relative space is requested
    and missing while the stage space is offered; and
    [referenceSpaceChanged] is emitted exactly when no floor reset is
    pending afterwards. The request itself is not changed. *)
Theorem setupAppSpace_replaces_the_app_space
    (checkXrResult : XrResult -> bool) (w : World) :
  m_session (mgr w) <> XR_NULL_HANDLE ->
  checkXrResult (result (coming w 0)) = true ->
  let m := mgr w in
  let available :=
    existsb (XrReferenceSpaceType_eqb (m_requestedReferenceSpace m))
      (m_availableReferenceSpace m) in
  let emulate :=
    negb available
    && (XrReferenceSpaceType_eqb (m_requestedReferenceSpace m)
          XR_REFERENCE_SPACE_TYPE_LOCAL_FLOOR_EXT
        && existsb (XrReferenceSpaceType_eqb XR_REFERENCE_SPACE_TYPE_STAGE)
             (m_availableReferenceSpace m)) in
  let newReferenceSpace :=
    if available then m_requestedReferenceSpace m
    else XR_REFERENCE_SPACE_TYPE_LOCAL in
  let pending := emulate || m_isFloorResetPending m in
  exists w',
    setupAppSpace checkXrResult w = Some (true, w')
    /\ log w'
       = log w
         ++ Call (xrCreateReferenceSpace (m_session m)
                    (mkCreateInfo newReferenceSpace identityPose))
            :: (if m_appSpace m =? XR_NULL_HANDLE then []
                else [Call (xrDestroySpace (m_appSpace m))])
         ++ (if pending then [] else [Emit referenceSpaceChanged])
    /\ m_appSpace (mgr w') = out_space (coming w 0)
    /\ m_referenceSpace (mgr w') = newReferenceSpace
    /\ m_requestedReferenceSpace (mgr w') = m_requestedReferenceSpace m
    /\ m_isEmulatingLocalFloor (mgr w') = emulate
    /\ m_isFloorResetPending (mgr w') = pending.
Proof.
  intros Hsession Hok m available emulate newReferenceSpace pending.
  subst m available emulate newReferenceSpace pending.
  unfold coming in *. apply Z.eqb_neq in Hsession.
  run. rewrite Hsession. simpl.
  destruct (responses w) as [| r0 rest]; simpl in *;
    destruct (existsb
                (XrReferenceSpaceType_eqb (m_requestedReferenceSpace (mgr w)))
                (m_availableReferenceSpace (mgr w)));
    simpl;
    try (destruct (XrReferenceSpaceType_eqb
                     (m_requestedReferenceSpace (mgr w))
                     XR_REFERENCE_SPACE_TYPE_LOCAL_FLOOR_EXT
                   && existsb
                        (XrReferenceSpaceType_eqb
                           XR_REFERENCE_SPACE_TYPE_STAGE)
                        (m_availableReferenceSpace (mgr w))); simpl);
    rewrite Hok; simpl;
    destruct (m_appSpace (mgr w) =? XR_NULL_HANDLE); simpl;
    try (destruct (m_isFloorResetPending (mgr w)) eqn:Hpending; simpl);
    (eexists; split; [reflexivity |]; simpl;
     rewrite <- ?app_assoc; simpl; repeat split; assumption).
Qed.

Lemma setupAppSpace_replaces_the_app_space_witness :
  exists w',
    setupAppSpace Examples.checkXrResult
      (Examples.world Examples.steady [Examples.success 1 100])
    = Some (true, w')
    /\ m_appSpace (mgr w') = 100
    /\ log w'
       = [Call (xrCreateReferenceSpace 2
                  (mkCreateInfo XR_REFERENCE_SPACE_TYPE_LOCAL identityPose));
          Call (xrDestroySpace 10); Emit referenceSpaceChanged].
Proof.
  destruct (setupAppSpace_replaces_the_app_space Examples.checkXrResult
              (Examples.world Examples.steady [Examples.success 1 100]))
    as (w' & Hrun & Hlog & Happ & _).
  - simpl. discriminate.
  - reflexivity.
  - exists w'. split; [exact Hrun |]. split; [exact Happ | exact Hlog].
Defined.

Module LogFacts.
Import Effects.

(** Sequencing two computations composes what they do to the world. *)
Lemma steps_bind {A B} (R1 R2 R3 : World -> World -> Prop)
    (c : M A) (k : A -> M B) :
  (forall w1 w2 w3, R1 w1 w2 -> R2 w2 w3 -> R3 w1 w3) ->
  steps R1 c -> (forall a, steps R2 (k a)) -> steps R3 (bind c k).
Proof.
  intros Hcomp Hc Hk w b w' H.
  apply bind_Some in H. destruct H as (a & w1 & H1 & H2).
  eapply Hcomp; [eapply Hc | eapply Hk]; eassumption.
Qed.

Lemma grows_add (n m : nat) (w1 w2 w3 : World) :
  grows n w1 w2 -> grows m w2 w3 -> grows (n + m) w1 w3.
Proof. unfold grows. lia. Qed.

Lemma grows_0_bind {A B} (c : M A) (k : A -> M B) :
  steps (grows 0) c -> (forall a, steps (grows 0) (k a)) ->
  steps (grows 0) (bind c k).
Proof. apply steps_bind. intros w1 w2 w3. apply (grows_add 0 0). Qed.

(** A computation that starts with steps that may log nothing and then
    logs at least one entry. *)
Lemma grows_1_after {A B} (c : M A) (k : A -> M B) :
  steps (grows 0) c -> (forall a, steps (grows 1) (k a)) ->
  steps (grows 1) (bind c k).
Proof. apply steps_bind. intros w1 w2 w3. apply (grows_add 0 1). Qed.

Lemma grows_1_then {A B} (c : M A) (k : A -> M B) :
  steps (grows 1) c -> (forall a, steps (grows 0) (k a)) ->
  steps (grows 1) (bind c k).
Proof. apply steps_bind. intros w1 w2 w3. apply (grows_add 1 0). Qed.

Lemma grows_ret {A} (a : A) : steps (grows 0) (ret a).
Proof. intros w a' w' H. inversion H; subst. unfold grows. lia. Qed.

Lemma grows_abort {A} (n : nat) : steps (grows n) (@abort A).
Proof. intros w a w' H. discriminate. Qed.

Lemma grows_this : steps (grows 0) this.
Proof. intros w a w' H. inversion H; subst. unfold grows. lia. Qed.

Lemma grows_modify f : steps (grows 0) (modify f).
Proof. intros w a w' H. inversion H; subst. unfold grows. simpl. lia. Qed.

Lemma grows_tell a : steps (grows 0) (tell a).
Proof.
  intros w u w' H. inversion H; subst. unfold grows. simpl.
  rewrite length_app. lia.
Qed.

Lemma grows_call c : steps (grows 1) (call c).
Proof.
  intros w r w' H. inversion H; subst. unfold grows. simpl.
  rewrite length_app. simpl. lia.
Qed.

Lemma grows_weaken {A} (n : nat) (c : M A) :
  steps (grows n) c -> steps (grows 0) c.
Proof. intros H w a w' E. specialize (H w a w' E). unfold grows in *. lia. Qed.

Lemma grows_Q_ASSERT b : steps (grows 0) (Q_ASSERT b).
Proof. destruct b; [apply grows_ret | apply grows_abort]. Qed.

Lemma grows_when b c : steps (grows 0) c -> steps (grows 0) (when b c).
Proof. intros Hc. destruct b; [exact Hc | apply grows_ret]. Qed.

(** Decomposes a computation into steps none of which shortens the
    log. *)
Ltac grows_step :=
  match goal with
  | |- steps (grows 0) (bind _ _) => apply grows_0_bind; [| intro ]
  | |- steps (grows 0) (ret _) => apply grows_ret
  | |- steps (grows _) abort => apply grows_abort
  | |- steps (grows 0) this => apply grows_this
  | |- steps (grows 0) (modify _) => apply grows_modify
  | |- steps (grows 0) (emit _) => apply grows_tell
  | |- steps (grows 0) (tell _) => apply grows_tell
  | |- steps (grows 0) (call _) => apply (grows_weaken 1), grows_call
  | |- steps (grows 0) (Q_ASSERT _) => apply grows_Q_ASSERT
  | |- steps (grows 0) (when _ _) => apply grows_when
  | |- steps (grows _) (if ?b then _ else _) => destruct b
  | |- steps (grows _) (match ?x with _ => _ end) => destruct x
  | |- steps (grows 0) (isReferenceSpaceAvailable _) =>
      unfold isReferenceSpaceAvailable
  end.

(** A computation whose first call to the runtime comes after steps that
    cannot fail to reach it. *)
Ltac grows_until_call :=
  repeat first
    [ apply grows_1_then;
      [ apply grows_call | intro; solve [ repeat grows_step ] ]
    | apply grows_1_after; [ solve [ repeat grows_step ] | intro ] ].

Lemma grows_setupAppSpace (checkXrResult : XrResult -> bool) :
  steps (grows 1) (setupAppSpace checkXrResult).
Proof. unfold setupAppSpace. grows_until_call. Qed.

Lemma grows_resetEmulatedFloorHeight (checkXrResult : XrResult -> bool)
    (t : Z) :
  steps (grows 1) (resetEmulatedFloorHeight checkXrResult t).
Proof. unfold resetEmulatedFloorHeight. grows_until_call. Qed.

Lemma grows_0_resetEmulatedFloorHeight (checkXrResult : XrResult -> bool)
    (t : Z) :
  steps (grows 0) (resetEmulatedFloorHeight checkXrResult t).
Proof. apply (grows_weaken 1), grows_resetEmulatedFloorHeight. Qed.

End LogFacts.

Module SpaceFacts.

Lemma XrReferenceSpaceType_eqb_eq (a b : XrReferenceSpaceType) :
  XrReferenceSpaceType_eqb a b = true <-> a = b.
Proof.
  destruct a, b; simpl; split; intros H;
    try reflexivity; try discriminate.
  - apply Z.eqb_eq in H. now subst.
  - injection H as ->. apply Z.eqb_refl.
Qed.

Lemma XrReferenceSpaceType_eqb_neq (a b : XrReferenceSpaceType) :
  XrReferenceSpaceType_eqb a b = false <-> a <> b.
Proof.
  rewrite <- XrReferenceSpaceType_eqb_eq.
  destruct (XrReferenceSpaceType_eqb a b); split; congruence.
Qed.

(** [updateAppSpace] either finds nothing to do and leaves the world as
    it is, or makes at least one call to the runtime. *)
Lemma updateAppSpace_progress (checkXrResult : XrResult -> bool)
    (t : Z) (w w' : World) :
  updateAppSpace checkXrResult t w = Some (tt, w') ->
  (m_requestedReferenceSpace (mgr w) = m_referenceSpace (mgr w)
   /\ m_isFloorResetPending (mgr w) = false /\ w' = w)
  \/ ((m_requestedReferenceSpace (mgr w) <> m_referenceSpace (mgr w)
       \/ m_isFloorResetPending (mgr w) = true)
      /\ (length (log w) < length (log w'))%nat).
Proof.
  intros H. unfold updateAppSpace in H.
  apply bind_Some in H. destruct H as (m & w0 & Hthis & H).
  injection Hthis as <- <-.
  destruct (m_isFloorResetPending (mgr w)) eqn:Hpending.
  - right. split; [right; reflexivity |].
    rewrite andb_false_r in H.
    apply bind_Some in H. destruct H as (proceed & w1 & Hp & H).
    injection Hp as <- <-. cbn [negb] in H.
    apply bind_Some in H. destruct H as (m1 & w1 & Hthis & H).
    injection Hthis as <- <-. rewrite Hpending in H.
    apply bind_Some in H. destruct H as (ok & w1 & Hreset & H).
    apply LogFacts.grows_resetEmulatedFloorHeight in Hreset.
    assert (Hrest : Effects.grows 0 w1 w').
    { revert H. apply (LogFacts.grows_when (negb ok)).
      repeat LogFacts.grows_step. }
    unfold Effects.grows in *. lia.
  - rewrite andb_true_r in H.
    destruct (XrReferenceSpaceType_eqb (m_requestedReferenceSpace (mgr w))
                (m_referenceSpace (mgr w))) eqn:Heq; cbn [negb] in H.
    + left. apply XrReferenceSpaceType_eqb_eq in Heq.
      apply bind_Some in H. destruct H as (proceed & w1 & Hp & H).
      injection Hp as <- <-. cbn [negb] in H.
      apply bind_Some in H. destruct H as (m1 & w1 & Hthis & H).
      injection Hthis as <- <-. rewrite Hpending in H.
      injection H as <-. auto.
    + right. apply XrReferenceSpaceType_eqb_neq in Heq.
      split; [left; exact Heq |].
      apply bind_Some in H. destruct H as (proceed & w1 & Hp & H).
      apply bind_Some in Hp. destruct Hp as (ok & w2 & Hsetup & Hp).
      apply LogFacts.grows_setupAppSpace in Hsetup.
      match type of Hp with
      | ?c _ = Some _ =>
          assert (Hp' : Effects.steps (Effects.grows 0) c)
            by (repeat LogFacts.grows_step)
      end.
      apply Hp' in Hp.
      match type of H with
      | ?c _ = Some _ =>
          assert (Hrest : Effects.steps (Effects.grows 0) c)
            by (repeat first
                  [ apply LogFacts.grows_0_resetEmulatedFloorHeight
                  | LogFacts.grows_step ])
      end.
      apply Hrest in H.
      unfold Effects.grows in *. lia.
Qed.

End SpaceFacts.

(** X20. When the requested reference space differs from the one in use,
    no floor reset is pending and the runtime refuses to create the new
    space, [updateAppSpace] gives the request up: the requested space
    becomes the one in use, the app space is kept, no signal is emitted
    and that one call was all. *)
Theorem failed_switch_reverts_the_request
    (checkXrResult : XrResult -> bool) (w : World)
    (predictedDisplayTime : Z) :
  m_session (mgr w) <> XR_NULL_HANDLE ->
  m_requestedReferenceSpace (mgr w) <> m_referenceSpace (mgr w) ->
  m_isFloorResetPending (mgr w) = false ->
  checkXrResult (result (coming w 0)) = false ->
  exists w' createInfo,
    updateAppSpace checkXrResult predictedDisplayTime w = Some (tt, w')
    /\ log w'
       = log w ++ [Call (xrCreateReferenceSpace (m_session (mgr w))
                           createInfo)]
    /\ m_requestedReferenceSpace (mgr w') = m_referenceSpace (mgr w)
    /\ m_referenceSpace (mgr w') = m_referenceSpace (mgr w)
    /\ m_appSpace (mgr w') = m_appSpace (mgr w).
Proof.
  intros Hsession Hdiff Hpending Hfail. unfold coming in Hfail.
  apply Z.eqb_neq in Hsession.
  apply SpaceFacts.XrReferenceSpaceType_eqb_neq in Hdiff.
  run. rewrite Hdiff, Hpending. simpl. rewrite Hsession. simpl.
  destruct (responses w) as [| r0 rest]; simpl in *;
    destruct (existsb
                (XrReferenceSpaceType_eqb (m_requestedReferenceSpace (mgr w)))
                (m_availableReferenceSpace (mgr w)));
    simpl;
    try (destruct (XrReferenceSpaceType_eqb
                     (m_requestedReferenceSpace (mgr w))
                     XR_REFERENCE_SPACE_TYPE_LOCAL_FLOOR_EXT
                   && existsb
                        (XrReferenceSpaceType_eqb
                           XR_REFERENCE_SPACE_TYPE_STAGE)
                        (m_availableReferenceSpace (mgr w))); simpl);
    rewrite Hfail; simpl;
    (do 2 eexists; split; [reflexivity |]; simpl; repeat split).
Qed.

Lemma failed_switch_reverts_the_request_witness :
  exists w',
    updateAppSpace Examples.checkXrResult 5000000000
      (Examples.world
         (set_m_requestedReferenceSpace XR_REFERENCE_SPACE_TYPE_STAGE
            Examples.steady)
         [Examples.failure])
    = Some (tt, w')
    /\ m_requestedReferenceSpace (mgr w') = XR_REFERENCE_SPACE_TYPE_LOCAL
    /\ m_appSpace (mgr w') = 10.
Proof.
  destruct (failed_switch_reverts_the_request Examples.checkXrResult
              (Examples.world
                 (set_m_requestedReferenceSpace XR_REFERENCE_SPACE_TYPE_STAGE
                    Examples.steady)
                 [Examples.failure])
              5000000000)
    as (w' & info & Hrun & _ & Hreq & _ & Happ).
  - simpl. discriminate.
  - simpl. discriminate.
  - reflexivity.
  - reflexivity.
  - exists w'. split; [exact Hrun |]. split; [exact Hreq | exact Happ].
Defined.

(** X21. [updateAppSpace] leaves the world untouched (no call to the
    runtime, no signal, no change of the manager) exactly when the
    reference space in use is the requested one and no floor reset is
    pending. *)
Theorem updateAppSpace_idles_in_the_steady_state
    (checkXrResult : XrResult -> bool) (w : World)
    (predictedDisplayTime : Z) :
  updateAppSpace checkXrResult predictedDisplayTime w = Some (tt, w)
  <-> m_requestedReferenceSpace (mgr w) = m_referenceSpace (mgr w)
      /\ m_isFloorResetPending (mgr w) = false.
Proof.
  split.
  - intros H.
    destruct (SpaceFacts.updateAppSpace_progress _ _ _ _ H)
      as [(Hreq & Hpending & _) | (_ & Hgrow)]; [auto | lia].
  - intros [Hreq Hpending]. run.
    rewrite Hreq, XrReferenceSpaceType_eqb_refl, Hpending. simpl.
    rewrite Hpending. reflexivity.
Qed.

Module PumpFacts.

Lemma coming_hd (w : World) : hd noResponse (responses w) = coming w 0.
Proof. unfold coming. destruct (responses w); reflexivity. Qed.

Lemma nth_tl (l : list XrResponse) (i : nat) :
  nth i (tl l) noResponse = nth (S i) l noResponse.
Proof. destruct l; [destruct i |]; reflexivity. Qed.

(** With a session, the handler of session-state events completes; it
    leaves the runtime's queue and the session handle alone and takes at
    most one answer off the script. *)
Lemma handler_completes (session : Z) (state : XrSessionState) (time : Z)
    (exitRenderLoop requestRestart : bool) (w : World) :
  m_session (mgr w) <> XR_NULL_HANDLE ->
  exists out w',
    handleSessionStateChangedEvent session state time
      exitRenderLoop requestRestart w = Some (out, w')
    /\ events w' = events w
    /\ m_session (mgr w') = m_session (mgr w)
    /\ (responses w' = responses w \/ responses w' = tl (responses w)).
Proof.
  intros Hsession. apply Z.eqb_neq in Hsession.
  unfold handleSessionStateChangedEvent, bind, modify, this, ret. simpl.
  destruct (negb (session =? XR_NULL_HANDLE)
            && negb (session =? m_session (mgr w))); simpl;
    [ do 2 eexists; split; [reflexivity |]; split; [reflexivity |];
      split; [reflexivity | left; reflexivity] |].
  destruct state; simpl;
    unfold Q_ASSERT, call, bind, ret, modify; simpl;
    rewrite ?Hsession; simpl;
    (do 2 eexists; split; [reflexivity |]; split; [reflexivity |];
     split; [reflexivity |];
     first [left; reflexivity | right; reflexivity]).
Qed.

(** A poll of a non-empty queue that the runtime answers with
    [XR_SUCCESS] yields the head of the queue. *)
Lemma poll_success (w : World) (e : XrEventData) (rest : list XrEventData) :
  events w = e :: rest ->
  result (coming w 0) = XR_SUCCESS ->
  readNextEvent w
  = Some (Some e,
          {| mgr := mgr w; events := rest; responses := tl (responses w);
             scene_origin := scene_origin w;
             log := log w ++ [Call (xrPollEvent (m_instance (mgr w)))] |}).
Proof.
  intros Hev Hok. unfold readNextEvent, bind, this, pollRuntime.
  rewrite Hev, coming_hd, Hok. reflexivity.
Qed.

(** Any other answer yields null and leaves the queue as it is. *)
Lemma poll_failure (w : World) (e : XrEventData) (rest : list XrEventData) :
  events w = e :: rest ->
  result (coming w 0) <> XR_SUCCESS ->
  readNextEvent w
  = Some (None,
          {| mgr := mgr w; events := e :: rest;
             responses := tl (responses w);
             scene_origin := scene_origin w;
             log := log w ++ [Call (xrPollEvent (m_instance (mgr w)))] |}).
Proof.
  intros Hev Hfail. apply Z.eqb_neq in Hfail.
  unfold readNextEvent, bind, this, pollRuntime.
  rewrite Hev, coming_hd, Hfail. cbn [fst snd]. rewrite Hfail. reflexivity.
Qed.

(** The loop of the pump, by induction on the runtime's queue. *)
Lemma loop_run (queue : list XrEventData) :
  forall (w : World) (exitRenderLoop requestRestart : bool),
    events w = queue ->
    m_session (mgr w) <> XR_NULL_HANDLE ->
    exists out w',
      pollEvents_loop queue exitRenderLoop requestRestart w = Some (out, w')
      /\ (exists done, queue = done ++ events w')
      /\ ((forall i, (i < 2 * length queue)%nat ->
                     result (coming w i) = XR_SUCCESS) ->
          (Forall (fun e => forall t, e <> XrEventDataInstanceLossPending t)
             queue ->
           events w' = [])
          /\ (forall pre lossTime post,
                queue = pre ++ XrEventDataInstanceLossPending lossTime :: post ->
                Forall (fun e => forall t, e <> XrEventDataInstanceLossPending t)
                  pre ->
                out = (true, true) /\ events w' = post)).
Proof.
  induction queue as [| e rest IH]; intros w x r Hev Hsession.
  - cbn [pollEvents_loop].
    unfold bind at 1, readNextEvent, bind, this, pollRuntime.
    rewrite Hev. cbn [fst snd]. do 2 eexists. split; [reflexivity |].
    split; [exists []; reflexivity |].
    intros _. split; [reflexivity |].
    intros pre t post Hq. destruct pre; discriminate Hq.
  - destruct (Z.eq_dec (result (coming w 0)) XR_SUCCESS) as [Hok | Hfail].
    2: { cbn [pollEvents_loop]. unfold bind at 1.
         rewrite (poll_failure w e rest Hev Hfail).
         do 2 eexists. split; [reflexivity |].
         split; [exists []; reflexivity |].
         intros Hall. exfalso. apply Hfail, Hall. cbn [length]. lia. }
    assert (Hnext :
              forall (w1 : World) x1 r1,
                events w1 = rest ->
                m_session (mgr w1) = m_session (mgr w) ->
                (responses w1 = tl (responses w)
                 \/ responses w1 = tl (tl (responses w))) ->
                (forall t, e <> XrEventDataInstanceLossPending t) ->
                exists out w',
                  pollEvents_loop rest x1 r1 w1 = Some (out, w')
                  /\ (exists done, e :: rest = done ++ events w')
                  /\ ((forall i, (i < 2 * length (e :: rest))%nat ->
                                 result (coming w i) = XR_SUCCESS) ->
                      (Forall (fun e => forall t, e <> XrEventDataInstanceLossPending t)
                         (e :: rest) ->
                       events w' = [])
                      /\ (forall pre lossTime post,
                            e :: rest
                            = pre ++ XrEventDataInstanceLossPending lossTime
                                     :: post ->
                            Forall (fun e => forall t, e <> XrEventDataInstanceLossPending t)
                  pre ->
                            out = (true, true) /\ events w' = post))).
    { intros w1 x1 r1 Hev1 Hs1 Hscript Hne.
      destruct (IH w1 x1 r1 Hev1 ltac:(congruence))
        as (out & w' & Hrun & (done & Hdone) & Hdrain).
      exists out, w'. split; [exact Hrun |].
      split; [exists (e :: done); rewrite Hdone; reflexivity |].
      intros Hall.
      destruct Hdrain as [Hempty Hloss].
      { intros i Hi. unfold coming.
        destruct Hscript as [-> | ->]; rewrite ?nth_tl;
          apply Hall; cbn [length]; lia. }
      split.
      - intros HF. apply Hempty. inversion HF; assumption.
      - intros pre t post Hq Hpre.
        destruct pre as [| p pre]; cbn [app] in Hq.
        + injection Hq as -> _. exfalso. exact (Hne t eq_refl).
        + injection Hq as _ Hq. apply (Hloss pre t post Hq).
          inversion Hpre; assumption. }
    cbn [pollEvents_loop]. unfold bind at 1.
    rewrite (poll_success w e rest Hev Hok).
    destruct e;
      try (apply Hnext;
           [reflexivity | reflexivity | left; reflexivity | discriminate ]).
    + (* instance loss *)
      do 2 eexists. split; [reflexivity |].
      split; [exists [XrEventDataInstanceLossPending lossTime]; reflexivity |].
      intros _. split.
      * intros HF. inversion HF as [| ? ? Hhead _]; subst.
        exfalso. exact (Hhead lossTime eq_refl).
      * intros pre t post Hq Hpre.
        destruct pre as [| p pre]; cbn [app] in Hq.
        -- injection Hq as _ ->. split; reflexivity.
        -- injection Hq as <- _. inversion Hpre as [| ? ? Hhead _]; subst.
           exfalso. exact (Hhead lossTime eq_refl).
    + (* session state *)
      unfold bind at 1.
      match goal with
      | |- context [handleSessionStateChangedEvent ?s ?st ?tm ?a ?b ?w0] =>
          destruct (handler_completes s st tm a b w0)
            as (out & w1 & Hh & Hev1 & Hs1 & Hscript); [exact Hsession |]
      end.
      rewrite Hh.
      apply Hnext; [exact Hev1 | exact Hs1 | | discriminate ].
      cbn [responses] in Hscript.
      destruct Hscript as [-> | ->]; [left | right]; reflexivity.
    + unfold bind at 1, this, when.
      cbn [mgr]. destruct (m_spaceExtension (mgr w));
        unfold bind, tell, ret; cbn [mgr events responses scene_origin log];
        (apply Hnext;
         [reflexivity | reflexivity | left; reflexivity | discriminate ]).
    + unfold bind at 1, this, when.
      cbn [mgr]. destruct (m_spaceExtension (mgr w));
        unfold bind, tell, ret; cbn [mgr events responses scene_origin log];
        (apply Hnext;
         [reflexivity | reflexivity | left; reflexivity | discriminate ]).
    + unfold bind at 1, this, when.
      cbn [mgr]. destruct (m_spaceExtension (mgr w));
        unfold bind, tell, ret; cbn [mgr events responses scene_origin log];
        (apply Hnext;
         [reflexivity | reflexivity | left; reflexivity | discriminate ]).
    + unfold bind at 1, this, when.
      cbn [mgr]. destruct (m_spaceExtension (mgr w));
        unfold bind, tell, ret; cbn [mgr events responses scene_origin log];
        (apply Hnext;
         [reflexivity | reflexivity | left; reflexivity | discriminate ]).
Qed.

End PumpFacts.

(** X22. With a session, [pollEvents] always completes and leaves a tail
    of the runtime's event queue queued. When the runtime answers the
    first poll of a non-empty queue with anything but [XR_SUCCESS], the
    pump stops there: both outputs are false and the whole queue is still
    queued. When every answer the pump can reach (two for each queued
    event) is [XR_SUCCESS], it drains the queue: entirely, when it holds
    no instance-loss event; otherwise up to and including the first
    instance-loss event, on which it returns at once with exit and
    restart both requested, leaving the later events in the queue. *)
Theorem pollEvents_drains_while_polls_succeed (w : World) :
  m_session (mgr w) <> XR_NULL_HANDLE ->
  exists out w',
    pollEvents w = Some (out, w')
    /\ (exists done, events w = done ++ events w')
    /\ (events w <> [] ->
        result (coming w 0) <> XR_SUCCESS ->
        out = (false, false)
        /\ events w' = events w
        /\ mgr w' = mgr w
        /\ log w' = log w ++ [Call (xrPollEvent (m_instance (mgr w)))])
    /\ ((forall i, (i < 2 * length (events w))%nat ->
                   result (coming w i) = XR_SUCCESS) ->
        (Forall (fun e => forall t, e <> XrEventDataInstanceLossPending t)
           (events w) ->
         events w' = [])
        /\ (forall pre lossTime post,
              events w
              = pre ++ XrEventDataInstanceLossPending lossTime :: post ->
              Forall (fun e => forall t,
                        e <> XrEventDataInstanceLossPending t) pre ->
              out = (true, true) /\ events w' = post)).
Proof.
  intros Hsession.
  destruct (PumpFacts.loop_run (events w) w false false eq_refl Hsession)
    as (out & w' & Hrun & Hdone & Hdrain).
  exists out, w'. unfold pollEvents.
  split; [exact Hrun |]. split; [exact Hdone |]. split; [| exact Hdrain ].
  intros Hqueue Hfail.
  destruct (events w) as [| e rest] eqn:Hev; [congruence |].
  cbn [pollEvents_loop] in Hrun. unfold bind at 1 in Hrun.
  rewrite (PumpFacts.poll_failure w e rest Hev Hfail) in Hrun.
  inversion Hrun; subst. repeat split.
Qed.

Lemma pollEvents_drains_while_polls_succeed_witness :
  exists w',
    pollEvents
      (mkWorld Examples.manager
         [XrEventDataInteractionProfileChanged;
          XrEventDataInstanceLossPending 9;
          XrEventDataSessionStateChanged 2 XR_SESSION_STATE_READY 0]
         (map (Examples.success 1) [100; 101; 102; 103; 104; 105])
         true [])
    = Some ((true, true), w')
    /\ events w'
       = [XrEventDataSessionStateChanged 2 XR_SESSION_STATE_READY 0].
Proof.
  destruct (pollEvents_drains_while_polls_succeed
              (mkWorld Examples.manager
                 [XrEventDataInteractionProfileChanged;
                  XrEventDataInstanceLossPending 9;
                  XrEventDataSessionStateChanged 2 XR_SESSION_STATE_READY 0]
                 (map (Examples.success 1) [100; 101; 102; 103; 104; 105])
                 true []))
    as (out & w' & Hrun & _ & _ & Hdrain).
  - simpl. discriminate.
  - destruct Hdrain as [_ Hloss].
    + intros i Hi. cbn [events length] in Hi.
      do 6 (destruct i as [| i]; [reflexivity |]). lia.
    + destruct (Hloss [XrEventDataInteractionProfileChanged] 9
                  [XrEventDataSessionStateChanged 2 XR_SESSION_STATE_READY 0]
                  eq_refl)
        as [Hout Hev].
      * constructor; [discriminate | constructor].
      * exists w'. rewrite Hout in Hrun. split; assumption.
Defined.

Module FrameFacts.
Import Effects.

Lemma frame_kept_refl (w : World) : frame_kept w w.
Proof. unfold frame_kept. repeat split. Qed.

Lemma frame_kept_trans (w1 w2 w3 : World) :
  frame_kept w1 w2 -> frame_kept w2 w3 -> frame_kept w1 w3.
Proof.
  unfold frame_kept.
  intros (A1 & B1 & C1 & D1 & E1 & F1) (A2 & B2 & C2 & D2 & E2 & F2).
  repeat split; congruence.
Qed.

Lemma kept_bind {A B} (c : M A) (k : A -> M B) :
  steps frame_kept c -> (forall a, steps frame_kept (k a)) ->
  steps frame_kept (bind c k).
Proof. apply LogFacts.steps_bind. exact frame_kept_trans. Qed.

Lemma kept_ret {A} (a : A) : steps frame_kept (ret a).
Proof. intros w a' w' H. inversion H; subst. apply frame_kept_refl. Qed.

Lemma kept_abort {A} : steps frame_kept (@abort A).
Proof. intros w a w' H. discriminate. Qed.

Lemma kept_this : steps frame_kept this.
Proof. intros w a w' H. inversion H; subst. apply frame_kept_refl. Qed.

Lemma kept_modify f :
  (forall m,
     m_session (f m) = m_session m
     /\ m_enablePassthrough (f m) = m_enablePassthrough m
     /\ m_passthroughSupported (f m) = m_passthroughSupported m
     /\ m_environmentBlendMode (f m) = m_environmentBlendMode m
     /\ m_passthroughLayer (f m) = m_passthroughLayer m) ->
  steps frame_kept (modify f).
Proof.
  intros Hf w a w' H. inversion H; subst. unfold frame_kept. simpl.
  split; [reflexivity | apply Hf].
Qed.

(** An action other than the end of a frame. *)
Lemma kept_tell a : submittedLayers [a] = [] -> steps frame_kept (tell a).
Proof.
  intros Ha w u w' H. inversion H; subst. unfold frame_kept. simpl.
  rewrite submittedLayers_app, Ha, app_nil_r. repeat split.
Qed.

Lemma kept_call c :
  submittedLayers [Call c] = [] -> steps frame_kept (call c).
Proof.
  intros Hc w r w' H. inversion H; subst. unfold frame_kept. simpl.
  rewrite submittedLayers_app, Hc, app_nil_r. repeat split.
Qed.

Lemma kept_Q_ASSERT b : steps frame_kept (Q_ASSERT b).
Proof. destruct b; [apply kept_ret | apply kept_abort]. Qed.

Lemma kept_when b c : steps frame_kept c -> steps frame_kept (when b c).
Proof. intros Hc. destruct b; [exact Hc | apply kept_ret]. Qed.

Lemma kept_forM_ {A} (l : list A) (body : A -> M unit) :
  (forall a, steps frame_kept (body a)) -> steps frame_kept (forM_ l body).
Proof.
  intros Hbody. induction l as [| a l IH]; simpl.
  - apply kept_ret.
  - apply kept_bind; [apply Hbody | intros _; exact IH].
Qed.

Ltac kept_step :=
  match goal with
  | |- steps frame_kept (bind _ _) => apply kept_bind; [| intro ]
  | |- steps frame_kept (ret _) => apply kept_ret
  | |- steps frame_kept abort => apply kept_abort
  | |- steps frame_kept this => apply kept_this
  | |- steps frame_kept (modify _) =>
      apply kept_modify; intro; repeat split; reflexivity
  | |- steps frame_kept (emit _) => apply kept_tell; reflexivity
  | |- steps frame_kept (tell _) => apply kept_tell; reflexivity
  | |- steps frame_kept (call _) => apply kept_call; reflexivity
  | |- steps frame_kept (Q_ASSERT _) => apply kept_Q_ASSERT
  | |- steps frame_kept (when _ _) => apply kept_when
  | |- steps frame_kept (forM_ _ _) => apply kept_forM_; intro
  | |- steps frame_kept (if ?b then _ else _) => destruct b
  | |- steps frame_kept (match ?x with _ => _ end) => destruct x
  end.

Lemma kept_checkOrigin : steps frame_kept checkOrigin.
Proof.
  intros w a w' H. unfold checkOrigin, bind, this in H.
  destruct (m_xrOrigin (mgr w)); simpl in H.
  - inversion H; subst. apply frame_kept_refl.
  - destruct (scene_origin w).
    + revert H.
      apply (kept_bind (modify (set_m_xrOrigin true))
               (fun _ => emit xrOriginChanged)); [| intro ];
        kept_step.
    + inversion H; subst. apply frame_kept_refl.
Qed.

Lemma kept_setupAppSpace checkXrResult :
  steps frame_kept (setupAppSpace checkXrResult).
Proof. unfold setupAppSpace, isReferenceSpaceAvailable. repeat kept_step. Qed.

Lemma kept_resetEmulatedFloorHeight checkXrResult t :
  steps frame_kept (resetEmulatedFloorHeight checkXrResult t).
Proof. unfold resetEmulatedFloorHeight. repeat kept_step. Qed.

Lemma kept_updateAppSpace checkXrResult t :
  steps frame_kept (updateAppSpace checkXrResult t).
Proof.
  unfold updateAppSpace.
  repeat first [ apply kept_setupAppSpace
               | apply kept_resetEmulatedFloorHeight
               | kept_step ].
Qed.

(** [renderLayer] ends no frame and leaves the session handle, the
    passthrough settings and the blend mode alone. *)
Lemma kept_renderLayer checkXrResult t p flags :
  steps frame_kept (renderLayer checkXrResult t p flags).
Proof.
  unfold renderLayer, advanceAnimationDriver, doRender,
    updateProjectionLayerView.
  repeat first [ apply kept_updateAppSpace
               | apply kept_checkOrigin
               | kept_step ].
Qed.

Lemma returns_bind {A B} (P : B -> Prop) (c : M A) (k : A -> M B) :
  (forall a, returns P (k a)) -> returns P (bind c k).
Proof.
  intros Hk w b w' H. apply bind_Some in H.
  destruct H as (a & w1 & _ & H2). exact (Hk a w1 b w' H2).
Qed.

Lemma returns_ret {A} (P : A -> Prop) (a : A) : P a -> returns P (ret a).
Proof. intros Ha w a' w' H. inversion H; subst. exact Ha. Qed.

Lemma returns_abort {A} (P : A -> Prop) : returns P (@abort A).
Proof. intros w a w' H. discriminate. Qed.

(** The layer [renderLayer] returns is a projection layer with the flags
    it was given. *)
Lemma renderLayer_returns_projection checkXrResult t p flags :
  returns (fun r => exists space views,
             snd r = XrCompositionLayerProjection flags space views)
    (renderLayer checkXrResult t p flags).
Proof.
  unfold renderLayer.
  repeat first
    [ apply returns_bind; intro
    | apply returns_abort
    | apply returns_ret; cbn [snd]; eauto
    | match goal with
      | |- returns _ (if ?b then _ else _) => destruct b
      | |- returns _ (match ?x with _ => _ end) => destruct x
      end ].
Qed.

End FrameFacts.

Module EndFrameFacts.
Import Effects.

Lemma hd_coming (w : World) : hd noResponse (responses w) = coming w 0.
Proof. unfold coming. destruct (responses w); reflexivity. Qed.

(** The passthrough block of [renderFrame]: it ends no frame, and gives
    the passthrough layer when passthrough is enabled and supported. *)
Lemma passthrough_block (m : QOpenXRManager) (w w' : World)
    (layers : list XrCompositionLayer) :
  m_enablePassthrough (mgr w) = m_enablePassthrough m ->
  m_passthroughSupported (mgr w) = m_passthroughSupported m ->
  m_passthroughLayer (mgr w) = m_passthroughLayer m ->
  (if m_enablePassthrough m && m_passthroughSupported m then
     when (m_passthroughLayer m =? XR_NULL_HANDLE)
       createMetaQuestPassthroughLayer ;;;
     m <- this ;;
     ret [XrCompositionLayerPassthroughFB (m_passthroughLayer m)
            XR_COMPOSITION_LAYER_BLEND_TEXTURE_SOURCE_ALPHA_BIT
            XR_NULL_HANDLE]
   else ret []) w = Some (layers, w') ->
  submittedLayers (log w') = submittedLayers (log w)
  /\ m_session (mgr w') = m_session (mgr w)
  /\ m_enablePassthrough (mgr w') = m_enablePassthrough (mgr w)
  /\ m_passthroughSupported (mgr w') = m_passthroughSupported (mgr w)
  /\ m_environmentBlendMode (mgr w') = m_environmentBlendMode (mgr w)
  /\ layers
     = if m_enablePassthrough m && m_passthroughSupported m
       then [XrCompositionLayerPassthroughFB (m_passthroughLayer (mgr w'))
               XR_COMPOSITION_LAYER_BLEND_TEXTURE_SOURCE_ALPHA_BIT
               XR_NULL_HANDLE]
       else [].
Proof.
  intros Hen Hsup Hlayer.
  destruct (m_enablePassthrough m && m_passthroughSupported m).
  - destruct (m_passthroughLayer m =? XR_NULL_HANDLE);
      cbv [when createMetaQuestPassthroughLayer bind this call modify ret];
      cbn [mgr events responses scene_origin log];
      intros H; inversion H; subst; cbn [mgr log];
      rewrite ?submittedLayers_app; cbn [submittedLayers flat_map app];
      rewrite ?app_nil_r; repeat split.
  - intros H. inversion H; subst. repeat split.
Qed.

(** The shape of a completed frame. *)
Lemma renderFrame_shape (checkXrResult : XrResult -> bool) (w w' : World) :
  renderFrame checkXrResult w = Some (tt, w') ->
  exists before info projection,
    log w' = before ++ [Call (xrEndFrame (m_session (mgr w)) info)]
    /\ submittedLayers before = submittedLayers (log w)
    /\ displayTime info = predictedDisplayTime (out_frameState (coming w 0))
    /\ environmentBlendMode info
       = (if negb (m_enablePassthrough (mgr w))
          then m_environmentBlendMode (mgr w)
          else XR_ENVIRONMENT_BLEND_MODE_OPAQUE)
    /\ layers info
       = (if m_enablePassthrough (mgr w) && m_passthroughSupported (mgr w)
          then [XrCompositionLayerPassthroughFB
                  (m_passthroughLayer (mgr w'))
                  XR_COMPOSITION_LAYER_BLEND_TEXTURE_SOURCE_ALPHA_BIT
                  XR_NULL_HANDLE]
          else [])
         ++ projection
    /\ (projection = []
        \/ exists space views,
             projection
             = [XrCompositionLayerProjection
                  (Z.lor
                     (Z.lor
                        XR_COMPOSITION_LAYER_BLEND_TEXTURE_SOURCE_ALPHA_BIT
                        XR_COMPOSITION_LAYER_CORRECT_CHROMATIC_ABERRATION_BIT)
                     XR_COMPOSITION_LAYER_UNPREMULTIPLIED_ALPHA_BIT)
                  space views])
    /\ (shouldRender (out_frameState (coming w 0)) <> XR_TRUE ->
        projection = []).
Proof.
  intros H. unfold renderFrame in H.
  apply bind_Some in H. destruct H as (m & w0 & Hthis & H).
  inversion Hthis; subst m w0; clear Hthis.
  apply bind_Some in H. destruct H as (u & w0 & Hassert & H).
  unfold Q_ASSERT in Hassert.
  destruct (negb (m_session (mgr w) =? XR_NULL_HANDLE));
    [| discriminate Hassert ].
  inversion Hassert; subst u w0; clear Hassert.
  apply bind_Some in H. destruct H as (rw & w1 & Hwait & H).
  inversion Hwait; subst rw w1; clear Hwait.
  apply bind_Some in H. destruct H as (rb & w2 & Hbegin & H).
  inversion Hbegin; subst rb w2; clear Hbegin.
  cbn [mgr events responses scene_origin log] in H.
  rewrite hd_coming in H.
  apply bind_Some in H. destruct H as (layers1 & w3 & Hpass & H).
  apply passthrough_block in Hpass; [| reflexivity | reflexivity | reflexivity ].
  cbn [mgr log] in Hpass.
  destruct Hpass as (Hsub3 & Hses3 & Hen3 & Hsup3 & Hblend3 & Hlayers1).
  rewrite !submittedLayers_app in Hsub3.
  cbn [submittedLayers flat_map app] in Hsub3. rewrite !app_nil_r in Hsub3.
  apply bind_Some in H. destruct H as (layers2 & w4 & Hproj & H).
  apply bind_Some in H. destruct H as (m4 & w5 & Hthis & H).
  inversion Hthis; subst m4 w5; clear Hthis.
  apply bind_Some in H. destruct H as (re & w6 & Hend & H).
  inversion Hend; subst re w6; clear Hend.
  inversion H; subst w'; clear H.
  cbn [mgr log].
  assert (Hfour :
            frame_kept w3 w4
            /\ exists projection,
                 layers2 = layers1 ++ projection
                 /\ (projection = []
                     \/ exists space views,
                          projection
                          = [XrCompositionLayerProjection
                               (Z.lor
                                  (Z.lor
                                     XR_COMPOSITION_LAYER_BLEND_TEXTURE_SOURCE_ALPHA_BIT
                                     XR_COMPOSITION_LAYER_CORRECT_CHROMATIC_ABERRATION_BIT)
                                  XR_COMPOSITION_LAYER_UNPREMULTIPLIED_ALPHA_BIT)
                               space views])
                 /\ (shouldRender (out_frameState (coming w 0)) <> XR_TRUE ->
                     projection = [])).
  { destruct (Z.eqb_spec (shouldRender (out_frameState (coming w 0)))
                XR_TRUE) as [Hrender | Hskip].
    - apply bind_Some in Hproj.
      destruct Hproj as (rendered & w4' & Hlayer & Hret).
      pose proof (FrameFacts.kept_renderLayer _ _ _ _ _ _ _ Hlayer) as Hkept.
      pose proof (FrameFacts.renderLayer_returns_projection
                    _ _ _ _ _ _ _ Hlayer) as (space & views & Hsnd).
      destruct (fst rendered); inversion Hret; subst layers2 w4'.
      + split; [exact Hkept |]. exists [snd rendered].
        split; [reflexivity |]. split; [| contradiction ].
        right. exists space, views. rewrite Hsnd. reflexivity.
      + split; [exact Hkept |]. exists [].
        split; [symmetry; apply app_nil_r |]. split; [left; reflexivity |].
        reflexivity.
    - inversion Hproj; subst layers2 w4.
      split; [apply FrameFacts.frame_kept_refl |]. exists [].
      split; [symmetry; apply app_nil_r |]. split; [left; reflexivity |].
      reflexivity. }
  destruct Hfour as ((Hsub4 & Hses4 & Hen4 & Hsup4 & Hblend4 & Hlayer4)
                     & projection & Hlayers2 & Hshape & Hnone).
  eexists (log w4), _, projection.
  split; [rewrite Hses4, Hses3; reflexivity |].
  split; [rewrite Hsub4, Hsub3; reflexivity |].
  cbn [displayTime environmentBlendMode layers].
  split; [reflexivity |].
  split; [rewrite Hen4, Hen3, Hblend4, Hblend3; reflexivity |].
  split; [| split; assumption ].
  rewrite Hlayers2, Hlayers1, Hlayer4. reflexivity.
Qed.

End EndFrameFacts.

(** X23. Every completed [renderFrame] ends the frame exactly once, with
    its last action: the layers it submits are the passthrough layer, if
    and only if passthrough is enabled and supported, followed by at most
    one projection layer, which carries the three blend flags; no
    projection layer is submitted when the runtime does not want the frame
    rendered. The blend mode submitted is opaque when passthrough is
    enabled and the manager's own otherwise, and the display time is the
    one [xrWaitFrame] predicted. *)
Theorem renderFrame_ends_the_frame_once
    (checkXrResult : XrResult -> bool) (w w' : World) :
  renderFrame checkXrResult w = Some (tt, w') ->
  exists before info projection,
    log w' = before ++ [Call (xrEndFrame (m_session (mgr w)) info)]
    /\ submittedLayers before = submittedLayers (log w)
    /\ displayTime info = predictedDisplayTime (out_frameState (coming w 0))
    /\ environmentBlendMode info
       = (if negb (m_enablePassthrough (mgr w))
          then m_environmentBlendMode (mgr w)
          else XR_ENVIRONMENT_BLEND_MODE_OPAQUE)
    /\ layers info
       = (if m_enablePassthrough (mgr w) && m_passthroughSupported (mgr w)
          then [XrCompositionLayerPassthroughFB
                  (m_passthroughLayer (mgr w'))
                  XR_COMPOSITION_LAYER_BLEND_TEXTURE_SOURCE_ALPHA_BIT
                  XR_NULL_HANDLE]
          else [])
         ++ projection
    /\ (projection = []
        \/ exists space views,
             projection
             = [XrCompositionLayerProjection
                  (Z.lor
                     (Z.lor
                        XR_COMPOSITION_LAYER_BLEND_TEXTURE_SOURCE_ALPHA_BIT
                        XR_COMPOSITION_LAYER_CORRECT_CHROMATIC_ABERRATION_BIT)
                     XR_COMPOSITION_LAYER_UNPREMULTIPLIED_ALPHA_BIT)
                  space views])
    /\ (shouldRender (out_frameState (coming w 0)) <> XR_TRUE ->
        projection = []).
Proof. exact (EndFrameFacts.renderFrame_shape checkXrResult w w'). Qed.

Lemma renderFrame_ends_the_frame_once_witness :
  exists w' before info,
    renderFrame Examples.checkXrResult Examples.firstFrame = Some (tt, w')
    /\ log w' = before ++ [Call (xrEndFrame 2 info)]
    /\ environmentBlendMode info = 1.
Proof.
  assert (E : exists w',
             renderFrame Examples.checkXrResult Examples.firstFrame
             = Some (tt, w'))
    by (vm_compute; eauto).
  destruct E as (w' & E).
  destruct (renderFrame_ends_the_frame_once Examples.checkXrResult
              Examples.firstFrame w' E)
    as (before & info & projection & Hlog & _ & _ & Hblend & _).
  exists w', before, info.
  split; [exact E |]. split; [exact Hlog | exact Hblend].
Defined.

Module StepFacts.
Import Effects.

Section Relation.

(** A relation that holds between a world and itself, composes, and is
    kept by the changes of the manager in [okM] and by the logging of the
    actions in [okA]. *)
Variable R : World -> World -> Prop.
Variable okM : (QOpenXRManager -> QOpenXRManager) -> Prop.
Variable okA : Action -> Prop.

Hypothesis R_refl : forall w, R w w.
Hypothesis R_trans : forall w1 w2 w3, R w1 w2 -> R w2 w3 -> R w1 w3.
Hypothesis R_modify :
  forall f w,
    okM f ->
    R w (mkWorld (f (mgr w)) (events w) (responses w) (scene_origin w)
           (log w)).
Hypothesis R_log :
  forall a w ev rs,
    okA a -> R w (mkWorld (mgr w) ev rs (scene_origin w) (log w ++ [a])).
Hypothesis okA_plain : forall a, plain a -> okA a.

Lemma g_ret {A} (a : A) : steps R (ret a).
Proof. intros w a' w' H. inversion H; subst. apply R_refl. Qed.

Lemma g_abort {A} : steps R (@abort A).
Proof. intros w a w' H. discriminate. Qed.

Lemma g_this : steps R this.
Proof. intros w a w' H. inversion H; subst. apply R_refl. Qed.

Lemma g_bind {A B} (c : M A) (k : A -> M B) :
  steps R c -> (forall a, steps R (k a)) -> steps R (bind c k).
Proof. apply LogFacts.steps_bind. exact R_trans. Qed.

Lemma g_modify f : okM f -> steps R (modify f).
Proof. intros Hf w a w' H. inversion H; subst. apply R_modify, Hf. Qed.

Lemma g_tell a : okA a -> steps R (tell a).
Proof. intros Ha w u w' H. inversion H; subst. apply R_log, Ha. Qed.

Lemma g_call c : okA (Call c) -> steps R (call c).
Proof. intros Hc w r w' H. inversion H; subst. apply R_log, Hc. Qed.

Lemma g_Q_ASSERT b : steps R (Q_ASSERT b).
Proof. destruct b; [apply g_ret | apply g_abort]. Qed.

Lemma g_when b c : steps R c -> steps R (when b c).
Proof. intros Hc. destruct b; [exact Hc | apply g_ret]. Qed.

Lemma g_forM_ {A} (l : list A) (body : A -> M unit) :
  (forall a, steps R (body a)) -> steps R (forM_ l body).
Proof.
  intros Hbody. induction l as [| a l IH]; simpl.
  - apply g_ret.
  - apply g_bind; [apply Hbody | intros _; exact IH].
Qed.

Lemma g_readNextEvent : steps R readNextEvent.
Proof.
  intros w a w' H. unfold readNextEvent, bind, this, pollRuntime in H.
  destruct (events w); [inversion H; subst; apply R_log, okA_plain; exact I |].
  destruct (result (hd noResponse (responses w)) =? XR_SUCCESS) eqn:E;
    cbn [fst snd] in H; rewrite ?E in H;
    inversion H; subst; apply R_log, okA_plain; exact I.
Qed.

Hypothesis ok_sessionState : forall v, okM (set_m_sessionState v).
Hypothesis ok_sessionRunning : forall v, okM (set_m_sessionRunning v).
Hypothesis ok_appSpace : forall v, okM (set_m_appSpace v).
Hypothesis ok_referenceSpace : forall v, okM (set_m_referenceSpace v).
Hypothesis ok_requestedReferenceSpace :
  forall v, okM (set_m_requestedReferenceSpace v).
Hypothesis ok_isEmulatingLocalFloor :
  forall v, okM (set_m_isEmulatingLocalFloor v).
Hypothesis ok_isFloorResetPending :
  forall v, okM (set_m_isFloorResetPending v).
Hypothesis ok_passthroughLayer : forall v, okM (set_m_passthroughLayer v).
Hypothesis ok_views : forall v, okM (set_m_views v).
Hypothesis ok_projectionLayerViews :
  forall v, okM (set_m_projectionLayerViews v).
Hypothesis ok_xrOrigin : forall v, okM (set_m_xrOrigin v).
Hypothesis ok_previousTime : forall v, okM (set_m_previousTime v).

(** Decomposes a computation into steps that keep the relation. *)
Ltac g_step :=
  match goal with
  | |- steps R (bind _ _) => apply g_bind; [| intro ]
  | |- steps R (ret _) => apply g_ret
  | |- steps R abort => apply g_abort
  | |- steps R this => apply g_this
  | |- steps R (modify _) => apply g_modify; auto
  | |- steps R (emit _) => apply g_tell, okA_plain; exact I
  | |- steps R (tell _) => apply g_tell, okA_plain; exact I
  | |- steps R (call _) => apply g_call, okA_plain; exact I
  | |- steps R (Q_ASSERT _) => apply g_Q_ASSERT
  | |- steps R (when _ _) => apply g_when
  | |- steps R (forM_ _ _) => apply g_forM_; intro
  | |- steps R readNextEvent => apply g_readNextEvent
  | |- steps R (if ?b then _ else _) => destruct b
  | |- steps R (match ?x with _ => _ end) => destruct x
  end.

Lemma g_handleSessionStateChangedEvent session state time x r :
  steps R (handleSessionStateChangedEvent session state time x r).
Proof. unfold handleSessionStateChangedEvent. repeat g_step. Qed.

Lemma g_pollEvents_loop (queue : list XrEventData) :
  forall x r, steps R (pollEvents_loop queue x r).
Proof.
  induction queue as [| e rest IH]; intros x r; cbn [pollEvents_loop].
  - repeat g_step.
  - apply g_bind; [apply g_readNextEvent | intros [e' |]];
      [| apply g_ret ].
    destruct e';
      repeat first [ apply IH
                   | apply g_handleSessionStateChangedEvent
                   | g_step ].
Qed.

Lemma g_pollEvents : steps R pollEvents.
Proof.
  intros w a w' H. unfold pollEvents in H.
  exact (g_pollEvents_loop (events w) false false w a w' H).
Qed.

Lemma g_checkOrigin : steps R checkOrigin.
Proof.
  intros w a w' H. unfold checkOrigin, bind, this in H.
  destruct (m_xrOrigin (mgr w)); simpl in H.
  - inversion H; subst. apply R_refl.
  - destruct (scene_origin w).
    + revert H.
      apply (g_bind (modify (set_m_xrOrigin true))
               (fun _ => emit xrOriginChanged)); [| intro ]; g_step.
    + inversion H; subst. apply R_refl.
Qed.

Lemma g_setupAppSpace checkXrResult : steps R (setupAppSpace checkXrResult).
Proof. unfold setupAppSpace, isReferenceSpaceAvailable. repeat g_step. Qed.

Lemma g_resetEmulatedFloorHeight checkXrResult t :
  steps R (resetEmulatedFloorHeight checkXrResult t).
Proof. unfold resetEmulatedFloorHeight. repeat g_step. Qed.

Lemma g_updateAppSpace checkXrResult t :
  steps R (updateAppSpace checkXrResult t).
Proof.
  unfold updateAppSpace.
  repeat first [ apply g_setupAppSpace
               | apply g_resetEmulatedFloorHeight
               | g_step ].
Qed.

Lemma g_renderLayer checkXrResult t p flags :
  steps R (renderLayer checkXrResult t p flags).
Proof.
  unfold renderLayer, advanceAnimationDriver, doRender,
    updateProjectionLayerView.
  repeat first [ apply g_updateAppSpace
               | apply g_checkOrigin
               | g_step ].
Qed.

Lemma g_createMetaQuestPassthroughLayer :
  steps R createMetaQuestPassthroughLayer.
Proof. unfold createMetaQuestPassthroughLayer. repeat g_step. Qed.

Hypothesis okA_endFrame : forall s i, okA (Call (xrEndFrame s i)).

Lemma g_renderFrame checkXrResult : steps R (renderFrame checkXrResult).
Proof.
  unfold renderFrame.
  repeat first [ apply g_renderLayer
               | apply g_createMetaQuestPassthroughLayer
               | apply g_call, okA_endFrame
               | g_step ].
Qed.

End Relation.

Import Effects.

Lemma frame_kept_pollEvents : steps frame_kept pollEvents.
Proof.
  apply (g_pollEvents frame_kept
           (fun f => forall m,
              m_session (f m) = m_session m
              /\ m_enablePassthrough (f m) = m_enablePassthrough m
              /\ m_passthroughSupported (f m) = m_passthroughSupported m
              /\ m_environmentBlendMode (f m) = m_environmentBlendMode m
              /\ m_passthroughLayer (f m) = m_passthroughLayer m)
           (fun a => submittedLayers [a] = [])).
  - exact FrameFacts.frame_kept_refl.
  - exact FrameFacts.frame_kept_trans.
  - intros f w Hf. unfold frame_kept. simpl.
    split; [reflexivity | apply Hf].
  - intros a w ev rs Ha. unfold frame_kept. simpl.
    rewrite submittedLayers_app, Ha, app_nil_r. repeat split.
  - intros [c | s | | | | | | | | | | | |] Ha; try reflexivity.
    destruct c; try reflexivity. contradiction.
  - intros v m. repeat split.
  - intros v m. repeat split.
Qed.

Lemma ended_kept_refl (w : World) : ended_kept w w.
Proof. reflexivity. Qed.

Lemma ended_kept_trans (w1 w2 w3 : World) :
  ended_kept w1 w2 -> ended_kept w2 w3 -> ended_kept w1 w3.
Proof. unfold ended_kept. congruence. Qed.

Lemma ended_kept_log (a : Action) (w : World) ev rs :
  isSessionEnded a = false ->
  ended_kept w (mkWorld (mgr w) ev rs (scene_origin w) (log w ++ [a])).
Proof.
  intros Ha. unfold ended_kept. simpl.
  rewrite List.filter_app. simpl. rewrite Ha. apply app_nil_r.
Qed.

Lemma plain_not_ended (a : Action) : plain a -> isSessionEnded a = false.
Proof.
  destruct a as [c | s | | | | | | | | | | | |]; try reflexivity.
  destruct s; try reflexivity. contradiction.
Qed.

Lemma ended_kept_pollEvents : steps ended_kept pollEvents.
Proof.
  apply (g_pollEvents ended_kept (fun _ => True)
           (fun a => isSessionEnded a = false)).
  - exact ended_kept_refl.
  - exact ended_kept_trans.
  - intros f w _. reflexivity.
  - intros a w ev rs. apply ended_kept_log.
  - exact plain_not_ended.
  - intros v. exact I.
  - intros v. exact I.
Qed.

Lemma ended_kept_renderFrame checkXrResult :
  steps ended_kept (renderFrame checkXrResult).
Proof.
  apply (g_renderFrame ended_kept (fun _ => True)
           (fun a => isSessionEnded a = false)).
  - exact ended_kept_refl.
  - exact ended_kept_trans.
  - intros f w _. reflexivity.
  - intros a w ev rs. apply ended_kept_log.
  - exact plain_not_ended.
  - intros v. exact I.
  - intros v. exact I.
  - intros v. exact I.
  - intros v. exact I.
  - intros v. exact I.
  - intros v. exact I.
  - intros v. exact I.
  - intros v. exact I.
  - intros v. exact I.
  - intros v. exact I.
  - reflexivity.
Qed.

End StepFacts.

(** X24. Every completed [processXrEvents] polls the events first and
    asks for the next update last; in between it emits [sessionEnded]
    exactly when the polling asked to leave the render loop, and it ends
    exactly one frame when the session is running after the polling and
    no frame otherwise. *)
Theorem processXrEvents_one_frame_per_tick
    (checkXrResult : XrResult -> bool) (w w' : World) :
  processXrEvents checkXrResult w = Some (tt, w') ->
  exists out w1 before frames,
    pollEvents w = Some (out, w1)
    /\ log w' = before ++ [PostUpdateRequest]
    /\ submittedLayers (log w') = submittedLayers (log w) ++ frames
    /\ length frames = (if m_sessionRunning (mgr w1) then 1 else 0)%nat
    /\ List.filter Effects.isSessionEnded (log w')
       = List.filter Effects.isSessionEnded (log w)
         ++ (if fst out then [Emit sessionEnded] else []).
Proof.
  intros H. unfold processXrEvents in H.
  apply bind_Some in H. destruct H as (out & w1 & Hpoll & H).
  pose proof (StepFacts.frame_kept_pollEvents _ _ _ Hpoll)
    as (Hsub1 & _).
  pose proof (StepFacts.ended_kept_pollEvents _ _ _ Hpoll) as Hend1.
  unfold Effects.ended_kept in Hend1.
  apply bind_Some in H. destruct H as (u & w2 & Hemit & H).
  assert (Hw2 : mgr w2 = mgr w1
                /\ log w2 = log w1
                            ++ (if fst out then [Emit sessionEnded] else [])).
  { destruct (fst out); inversion Hemit; subst; cbn [mgr log];
      rewrite ?app_nil_r; split; reflexivity. }
  destruct Hw2 as [Hmgr2 Hlog2]. clear Hemit.
  apply bind_Some in H. destruct H as (m & w2' & Hthis & H).
  inversion Hthis; subst m w2'; clear Hthis.
  apply bind_Some in H. destruct H as (u' & w3 & Hframe & H).
  inversion H; subst w'; clear H. cbn [log].
  rewrite Hmgr2 in Hframe.
  exists out, w1, (log w3).
  destruct (m_sessionRunning (mgr w1)); cbn [when] in Hframe.
  - apply bind_Some in Hframe.
    destruct Hframe as (u'' & w2'' & Htell & Hrender).
    inversion Htell; subst u'' w2''; clear Htell.
    pose proof (StepFacts.ended_kept_renderFrame _ _ _ _ Hrender) as Hend3.
    unfold Effects.ended_kept in Hend3. cbn [log] in Hend3.
    destruct u'.
    apply EndFrameFacts.renderFrame_shape in Hrender.
    destruct Hrender as (before & info & projection & Hlog3 & Hsub3 & _).
    cbn [mgr log] in Hlog3, Hsub3.
    exists [layers info].
    split; [exact Hpoll |]. split; [reflexivity |].
    split; [| split; [reflexivity |] ].
    + rewrite submittedLayers_app. cbn [submittedLayers flat_map app].
      rewrite app_nil_r, Hlog3, submittedLayers_app, Hsub3.
      rewrite submittedLayers_app, Hlog2, submittedLayers_app, Hsub1.
      cbn [submittedLayers flat_map app].
      destruct (fst out); cbn [flat_map app]; rewrite ?app_nil_r;
        reflexivity.
    + rewrite List.filter_app. cbn [List.filter Effects.isSessionEnded].
      rewrite app_nil_r, Hend3, List.filter_app.
      cbn [List.filter Effects.isSessionEnded]. rewrite app_nil_r.
      rewrite Hlog2, List.filter_app, Hend1.
      destruct (fst out); reflexivity.
  - inversion Hframe; subst u' w3; clear Hframe.
    exists [].
    split; [exact Hpoll |]. split; [reflexivity |].
    split; [| split; [reflexivity |] ].
    + rewrite submittedLayers_app. cbn [submittedLayers flat_map app].
      rewrite !app_nil_r, Hlog2, submittedLayers_app, Hsub1.
      destruct (fst out); cbn [submittedLayers flat_map app];
        rewrite ?app_nil_r; reflexivity.
    + rewrite List.filter_app. cbn [List.filter Effects.isSessionEnded].
      rewrite app_nil_r, Hlog2, List.filter_app, Hend1.
      destruct (fst out); reflexivity.
Qed.

Lemma processXrEvents_one_frame_per_tick_witness :
  exists w',
    processXrEvents Examples.checkXrResult
      (mkWorld Examples.steady
         [XrEventDataSessionStateChanged 2 XR_SESSION_STATE_READY 0]
         (map (Examples.success 1)
            [99; 100; 101; 102; 103; 104; 105; 106; 107; 108; 109])
         true [])
    = Some (tt, w')
    /\ length (submittedLayers (log w')) = 1%nat.
Proof.
  assert (E : exists w',
             processXrEvents Examples.checkXrResult
               (mkWorld Examples.steady
                  [XrEventDataSessionStateChanged 2 XR_SESSION_STATE_READY 0]
                  (map (Examples.success 1)
                     [99; 100; 101; 102; 103; 104; 105; 106; 107; 108; 109])
                  true [])
             = Some (tt, w'))
    by (vm_compute; eauto).
  destruct E as (w' & E).
  destruct (processXrEvents_one_frame_per_tick Examples.checkXrResult _ w' E)
    as (out & w1 & before & frames & Hpoll & _ & Hsub & Hlen & _).
  exists w'. split; [exact E |].
  rewrite Hsub. cbn [log submittedLayers flat_map app].
  rewrite Hlen.
  assert (Hrun : m_sessionRunning (mgr w1) = true).
  { vm_compute in Hpoll. injection Hpoll as _ <-. reflexivity. }
  rewrite Hrun. reflexivity.
Defined.

(** X25. When [renderLayer] returns false it has stopped right after
    [xrLocateViews], which did not report plain success: the layer
    returned is a projection layer without views and without space,
    nothing was rendered, the animation driver was not commanded, the
    previous frame time is as it was and no frame was ended. *)
Theorem renderLayer_without_views_renders_nothing
    (checkXrResult : XrResult -> bool) (w w' : World)
    (predictedDisplayTime predictedDisplayPeriod layerFlags : Z)
    (layer : XrCompositionLayer) :
  renderLayer checkXrResult predictedDisplayTime predictedDisplayPeriod
    layerFlags w = Some ((false, layer), w') ->
  layer = XrCompositionLayerProjection layerFlags XR_NULL_HANDLE []
  /\ same_trace w w'
  /\ submittedLayers (log w') = submittedLayers (log w)
  /\ exists before viewConfigurationType space capacity,
       log w'
       = before ++ [Call (xrLocateViews (m_session (mgr w))
                            viewConfigurationType predictedDisplayTime
                            space capacity)].
Proof.
  intros H. unfold renderLayer in H.
  apply bind_Some in H. destruct H as (m & w0 & Hthis & H).
  inversion Hthis; subst m w0; clear Hthis.
  apply bind_Some in H. destruct H as (u & w1 & Hupdate & H).
  pose proof (quiet_updateAppSpace _ _ _ _ _ Hupdate) as [Htrace1 Hprev1].
  pose proof (FrameFacts.kept_updateAppSpace _ _ _ _ _ Hupdate)
    as (Hsub1 & Hses1 & _).
  apply bind_Some in H. destruct H as (m1 & w1' & Hthis & H).
  inversion Hthis; subst m1 w1'; clear Hthis.
  apply bind_Some in H. destruct H as (r & w2 & Hcall & H).
  inversion Hcall; subst r w2; clear Hcall.
  apply bind_Some in H. destruct H as (u' & w3 & Hmod & H).
  inversion Hmod; subst u' w3; clear Hmod.
  cbn [mgr events responses scene_origin log] in H.
  destruct (XR_UNQUALIFIED_SUCCESS (result (hd noResponse (responses w1))))
    eqn:Hres.
  - exfalso.
    match type of H with
    | ?c ?w0 = Some ((false, layer), w') =>
        assert (Hret : Effects.returns (fun r => fst r = true) c)
    end.
    { repeat first
        [ apply FrameFacts.returns_bind; intro
        | apply FrameFacts.returns_abort
        | apply FrameFacts.returns_ret; reflexivity
        | match goal with
          | |- Effects.returns _ (if ?b then _ else _) => destruct b
          | |- Effects.returns _ (match ?x with _ => _ end) => destruct x
          end ]. }
    specialize (Hret _ _ _ H). discriminate Hret.
  - inversion H; subst layer w'; clear H. cbn [mgr log].
    split; [reflexivity |].
    split.
    { split; cbn [mgr log].
      - rewrite driverAndRender_app. cbn. rewrite app_nil_r. exact Htrace1.
      - exact Hprev1. }
    split.
    { rewrite submittedLayers_app. cbn. rewrite app_nil_r. exact Hsub1. }
    exists (log w1). do 3 eexists. rewrite Hses1. reflexivity.
Qed.

Lemma renderLayer_without_views_renders_nothing_witness :
  exists w' layer,
    renderLayer Examples.checkXrResult 5000000000 11111111 7
      (Examples.world Examples.steady [Examples.failure])
    = Some ((false, layer), w')
    /\ driverAndRender (log w') = [].
Proof.
  assert (E : exists layer w',
             renderLayer Examples.checkXrResult 5000000000 11111111 7
               (Examples.world Examples.steady [Examples.failure])
             = Some ((false, layer), w'))
    by (vm_compute; eauto).
  destruct E as (layer & w' & E).
  destruct (renderLayer_without_views_renders_nothing
              Examples.checkXrResult _ w' _ _ _ layer E)
    as (_ & [Htrace _] & _).
  exists w', layer. split; [exact E | exact Htrace].
Defined.

(** * Further properties of the shader key *)

Module ImageMapFacts.
Import QByteArray ShaderKeys.

(** The text after [name=]. *)
Lemma right_after_name (n X : string) :
  right (String.append n (String "=" X))
    (size (String.append n (String "=" X)) - 0 - size n - 1)
  = X.
Proof.
  unfold right, size. rewrite StringFacts.length_append.
  cbn [String.length].
  destruct (Z.ltb_spec
              (Z.of_nat (String.length n + S (String.length X))
               - 0 - Z.of_nat (String.length n) - 1) 0); [lia |].
  destruct (Z.leb_spec
              (Z.of_nat (String.length n + S (String.length X)))
              (Z.of_nat (String.length n + S (String.length X))
               - 0 - Z.of_nat (String.length n) - 1)); [lia |].
  replace (Z.to_nat
             (Z.of_nat (String.length n + S (String.length X))
              - (Z.of_nat (String.length n + S (String.length X))
                 - 0 - Z.of_nat (String.length n) - 1)))
    with (String.length n + 1)%nat by lia.
  replace (Z.to_nat
             (Z.of_nat (String.length n + S (String.length X))
              - 0 - Z.of_nat (String.length n) - 1))
    with (String.length X) by lia.
  rewrite StringFacts.substring_append_right.
  cbn [String.substring]. apply StringFacts.substring_all. lia.
Qed.

(** The text [toString] writes for an image map starts with the name,
    the equals sign and an opening brace. *)
Lemma toString_starts_with_brace (p : QSSGShaderKeyPropertyBase)
    (inKeySet : list Z) :
  exists X,
    ImageMap.toString p EmptyString inKeySet
    = String.append (name p) (String "=" (String "{" X)).
Proof.
  unfold ImageMap.toString. cbv zeta.
  rewrite
    !(FieldListFacts.internalToString_bool_acc (append_char _ _)),
    !(FieldListFacts.internalToString_bool_acc (String.append _ _)).
  unfold append_char. cbn [String.append].
  rewrite !StringFacts.append_assoc. cbn [String.append].
  eexists. reflexivity.
Qed.

End ImageMapFacts.

(** X26. An image-map property does not survive its own serialisation:
    the struct has no [fromString] of its own, the inherited numeric one
    finds an opening brace where it expects digits, and so parsing back
    what [toString] wrote clears all six flags of the property, whatever
    they were in the serialised store and in the store parsed into. *)
Theorem ImageMap_fromString_clears_the_flags
    (p : QSSGShaderKeyPropertyBase) (inKeySet target : list Z) :
  0 <= offset p -> offset p mod 32 + 6 <= 32 ->
  (Z.to_nat (getIdx p) < length target)%nat ->
  Unsigned.getValue 6 p
    (ImageMap.fromString p (ImageMap.toString p EmptyString inKeySet)
       target) = 0
  /\ forall imageBit,
       ImageMap.getBitValue p imageBit
         (ImageMap.fromString p (ImageMap.toString p EmptyString inKeySet)
            target) = false.
Proof.
  intros Hp Hfit Hin.
  destruct (ImageMapFacts.toString_starts_with_brace p inKeySet)
    as [X HX].
  assert (Hzero :
            Unsigned.getValue 6 p
              (ImageMap.fromString p
                 (ImageMap.toString p EmptyString inKeySet) target) = 0).
  { rewrite HX. unfold ImageMap.fromString, fromString_Unsigned. cbv zeta.
    rewrite StringFacts.indexOf_prefix. cbn [Z.leb Z.compare].
    rewrite Z.add_0_l.
    rewrite <- (Z.add_0_r (QByteArray.size (name p))) at 1.
    rewrite StringFacts.at_append_right by lia.
    rewrite FieldListFacts.at_0.
    change (Ascii.eqb "=" "=") with true. cbn [negb].
    rewrite ImageMapFacts.right_after_name.
    change (QByteArray.span QByteArray.isDigit (String "{" X)) with 0.
    change (QByteArray.left (String "{" X) 0) with EmptyString.
    change (QByteArray.toInt EmptyString) with 0.
    change (U32.wrap 0) with 0.
    rewrite FieldFacts.getValue_setValue by (assumption || lia).
    reflexivity. }
  split; [exact Hzero |].
  intros imageBit. unfold ImageMap.getBitValue. rewrite Hzero.
  reflexivity.
Qed.

Lemma ImageMap_fromString_clears_the_flags_witness :
  ImageMap.isEnabled Layout.diffuseMap
    (ImageMap.fromString Layout.diffuseMap
       (ImageMap.toString Layout.diffuseMap EmptyString
          (ImageMap.setEnabled Layout.diffuseMap (repeat 0 10) true))
       (ImageMap.setEnabled Layout.diffuseMap (repeat 0 10) true))
  = false.
Proof.
  destruct (ImageMap_fromString_clears_the_flags Layout.diffuseMap
              (ImageMap.setEnabled Layout.diffuseMap (repeat 0 10) true)
              (ImageMap.setEnabled Layout.diffuseMap (repeat 0 10) true))
    as [_ Hflags];
    [ vm_compute; discriminate | vm_compute; discriminate
    | vm_compute; lia | ].
  apply Hflags.
Defined.

(** X27. On keys of ten words, [operator==] holds exactly for identical
    keys: same ten words and same feature-set hash. *)
Theorem operator_eq_holds_for_identical_keys_only
    (k other : QSSGShaderDefaultMaterialKey) :
  length (m_dataBuffer k) = DataBufferSize ->
  length (m_dataBuffer other) = DataBufferSize ->
  key_eq k other = true <-> k = other.
Proof.
  intros Hk Ho. unfold DataBufferSize in *. split.
  - intros Heq. apply KeyFacts.key_eq_true_iff in Heq.
    destruct Heq as [Hwords Hhash].
    destruct k as [ks hk], other as [os ho]. cbn in *. subst ho.
    f_equal. apply list_eq. intros i.
    destruct (Nat.lt_ge_cases i 10) as [Hlt | Hge].
    + specialize (Hwords (Z.of_nat i) ltac:(lia)).
      unfold load in Hwords. rewrite Nat2Z.id in Hwords.
      destruct (lookup_lt_is_Some_2 ks i ltac:(lia)) as [x Hx].
      destruct (lookup_lt_is_Some_2 os i ltac:(lia)) as [y Hy].
      rewrite Hx, Hy in *. cbn in Hwords. congruence.
    + rewrite !lookup_ge_None_2 by lia. reflexivity.
  - intros ->. apply KeyFacts.key_eq_true_iff. auto.
Qed.

Lemma operator_eq_holds_for_identical_keys_only_witness :
  key_eq (newKey 7) (newKey 7) = true.
Proof.
  apply (operator_eq_holds_for_identical_keys_only (newKey 7) (newKey 7));
    reflexivity.
Defined.

(** X28. A property whose name does not occur in the string is not
    treated alike by the parsers: a boolean property is written as false
    (and, lying within the store, reads false afterwards), while a
    property of any other type leaves the store as it was. *)
Theorem fromString_of_absent_property
    (t : PropType) (p : QSSGShaderKeyPropertyBase) (ioStr : string)
    (inKeySet : list Z) :
  QByteArray.indexOf ioStr (name p) = -1 ->
  match t with
  | TBoolean =>
      prop_fromString t p ioStr inKeySet = Boolean.setValue p inKeySet false
      /\ (0 <= offset p ->
          (Z.to_nat (getIdx p) < length inKeySet)%nat ->
          Boolean.getValue p (prop_fromString t p ioStr inKeySet) = false)
  | _ => prop_fromString t p ioStr inKeySet = inKeySet
  end.
Proof.
  intros Habsent.
  destruct t; cbn [prop_fromString];
    unfold fromString_Boolean, getBoolValue, fromString_Unsigned,
      TextureChannel.fromString, TextureSwizzle.fromString,
      ImageMap.fromString, fromString_Unsigned, SpecularModel.fromString,
      AlphaMode.fromString, VertexAttribute.fromString;
    cbv zeta; rewrite Habsent; try reflexivity.
  change (-1 <? 0) with true. cbv iota.
  split; [reflexivity |].
  intros Hofs Hin. apply FieldFacts.Boolean_readback; assumption.
Qed.

Lemma fromString_of_absent_property_witness :
  let p := m_hasIbl defaultMaterialKeyProperties in
  let ks := Boolean.setValue p [0; 0; 0; 0; 0; 0; 0; 0; 0; 0] true in
  Boolean.getValue p ks = true
  /\ Boolean.getValue p (prop_fromString TBoolean p "hasLighting=true" ks)
     = false.
Proof.
  split; [vm_compute; reflexivity |].
  apply (fromString_of_absent_property TBoolean
           (m_hasIbl defaultMaterialKeyProperties) "hasLighting=true");
    [ vm_compute; reflexivity | vm_compute; discriminate | vm_compute; lia ].
Defined.

(** * The swapchain images of a frame *)

Module SwapchainFacts.
Import Effects.

Lemma swapchainTrace_app (l1 l2 : list Action) :
  swapchainTrace (l1 ++ l2) = swapchainTrace l1 ++ swapchainTrace l2.
Proof. unfold swapchainTrace. apply List.filter_app. Qed.

Lemma swap_kept_refl (w : World) : swap_kept w w.
Proof. repeat split. Qed.

Lemma swap_kept_trans (w1 w2 w3 : World) :
  swap_kept w1 w2 -> swap_kept w2 w3 -> swap_kept w1 w3.
Proof. intros (A1 & B1 & C1) (A2 & B2 & C2). repeat split; congruence. Qed.

Lemma k_ret {A} (a : A) : steps swap_kept (ret a).
Proof. intros w a' w' H. inversion H; subst. apply swap_kept_refl. Qed.

Lemma k_abort {A} : steps swap_kept (@abort A).
Proof. intros w a w' H. discriminate. Qed.

Lemma k_this : steps swap_kept this.
Proof. intros w a w' H. inversion H; subst. apply swap_kept_refl. Qed.

Lemma k_bind {A B} (c : M A) (k : A -> M B) :
  steps swap_kept c -> (forall a, steps swap_kept (k a)) ->
  steps swap_kept (bind c k).
Proof. apply LogFacts.steps_bind. exact swap_kept_trans. Qed.

Lemma k_modify (f : QOpenXRManager -> QOpenXRManager) :
  (forall m, m_swapchains (f m) = m_swapchains m
             /\ m_multiviewRendering (f m) = m_multiviewRendering m) ->
  steps swap_kept (modify f).
Proof.
  intros Hf w a w' H. inversion H; subst.
  split; [reflexivity | apply Hf].
Qed.

Lemma k_tell (a : Action) :
  isSwapchainAction a = false -> steps swap_kept (tell a).
Proof.
  intros Ha w u w' H. inversion H; subst. unfold swap_kept. cbn [log mgr].
  rewrite swapchainTrace_app. cbn. rewrite Ha, app_nil_r. repeat split.
Qed.

Lemma k_call (c : XrCall) :
  isSwapchainAction (Call c) = false -> steps swap_kept (call c).
Proof.
  intros Hc w r w' H. inversion H; subst. unfold swap_kept. cbn [log mgr].
  rewrite swapchainTrace_app.
  change (swapchainTrace [Call c])
    with (if isSwapchainAction (Call c) then [Call c] else []).
  rewrite Hc, app_nil_r. repeat split.
Qed.

Lemma k_Q_ASSERT (b : bool) : steps swap_kept (Q_ASSERT b).
Proof. destruct b; [apply k_ret | apply k_abort]. Qed.

Lemma k_when (b : bool) (c : M unit) :
  steps swap_kept c -> steps swap_kept (when b c).
Proof. intros Hc. destruct b; [exact Hc | apply k_ret]. Qed.

Lemma k_forM_ {A} (l : list A) (body : A -> M unit) :
  (forall a, steps swap_kept (body a)) -> steps swap_kept (forM_ l body).
Proof.
  intros Hbody. induction l as [| a l IH]; simpl.
  - apply k_ret.
  - apply k_bind; [apply Hbody | intros _; exact IH].
Qed.

(** Decomposes a computation into steps that touch no swapchain image. *)
Ltac k_step :=
  match goal with
  | |- steps swap_kept (bind _ _) => apply k_bind; [| intro ]
  | |- steps swap_kept (ret _) => apply k_ret
  | |- steps swap_kept abort => apply k_abort
  | |- steps swap_kept this => apply k_this
  | |- steps swap_kept (modify _) =>
      apply k_modify; intro; split; reflexivity
  | |- steps swap_kept (emit _) => apply k_tell; reflexivity
  | |- steps swap_kept (tell _) => apply k_tell; reflexivity
  | |- steps swap_kept (call _) => apply k_call; reflexivity
  | |- steps swap_kept (Q_ASSERT _) => apply k_Q_ASSERT
  | |- steps swap_kept (when _ _) => apply k_when
  | |- steps swap_kept (forM_ _ _) => apply k_forM_; intro
  | |- steps swap_kept (if ?b then _ else _) => destruct b
  | |- steps swap_kept (match ?x with _ => _ end) => destruct x
  end.

Lemma k_checkOrigin : steps swap_kept checkOrigin.
Proof.
  intros w a w' H. unfold checkOrigin, bind, this in H.
  destruct (m_xrOrigin (mgr w)); simpl in H.
  - inversion H; subst. apply swap_kept_refl.
  - destruct (scene_origin w).
    + revert H.
      apply (k_bind (modify (set_m_xrOrigin true))
               (fun _ => emit xrOriginChanged)); [| intro ]; k_step.
    + inversion H; subst. apply swap_kept_refl.
Qed.

Lemma k_setupAppSpace checkXrResult :
  steps swap_kept (setupAppSpace checkXrResult).
Proof. unfold setupAppSpace, isReferenceSpaceAvailable. repeat k_step. Qed.

Lemma k_resetEmulatedFloorHeight checkXrResult t :
  steps swap_kept (resetEmulatedFloorHeight checkXrResult t).
Proof. unfold resetEmulatedFloorHeight. repeat k_step. Qed.

Lemma k_updateAppSpace checkXrResult t :
  steps swap_kept (updateAppSpace checkXrResult t).
Proof.
  unfold updateAppSpace.
  repeat first [ apply k_setupAppSpace
               | apply k_resetEmulatedFloorHeight
               | k_step ].
Qed.

Lemma k_advanceAnimationDriver t p :
  steps swap_kept (advanceAnimationDriver t p).
Proof. unfold advanceAnimationDriver. repeat k_step. Qed.

Lemma k_updateProjectionLayerView i newSubImage :
  steps swap_kept (updateProjectionLayerView i newSubImage).
Proof. unfold updateProjectionLayerView. repeat k_step. Qed.

Lemma kept_then {A B} (c : M A) (k : A -> M B) (w : World) r :
  steps swap_kept c -> bind c k w = Some r ->
  exists a w1, swap_kept w w1 /\ k a w1 = Some r.
Proof.
  intros Hq H. apply bind_Some in H. destruct H as (a & w1 & Hc & Hk).
  exists a, w1. split; [eapply Hq; eassumption | exact Hk].
Qed.

End SwapchainFacts.

Module PassFacts.
Import Effects SwapchainFacts.

Lemma adds_refl (w : World) : swapchain_adds [] w w.
Proof. unfold swapchain_adds. rewrite app_nil_r. repeat split. Qed.

Lemma adds_trans (l1 l2 : list Action) (w1 w2 w3 : World) :
  swapchain_adds l1 w1 w2 -> swapchain_adds l2 w2 w3 ->
  swapchain_adds (l1 ++ l2) w1 w3.
Proof.
  intros (A1 & B1 & C1) (A2 & B2 & C2). unfold swapchain_adds.
  rewrite A2, A1, app_assoc. repeat split; congruence.
Qed.

Lemma adds_kept (l : list Action) (w1 w2 w3 : World) :
  swapchain_adds l w1 w2 -> swap_kept w2 w3 -> swapchain_adds l w1 w3.
Proof.
  intros (A1 & B1 & C1) (A2 & B2 & C2). unfold swapchain_adds.
  rewrite A2, A1. repeat split; congruence.
Qed.

Lemma this_then {B} (k : QOpenXRManager -> M B) (w : World) r :
  bind this k w = Some r -> k (mgr w) w = Some r.
Proof. intros H. exact H. Qed.

Lemma ret_then {A B} (a : A) (k : A -> M B) (w : World) r :
  bind (ret a) k w = Some r -> k a w = Some r.
Proof. intros H. exact H. Qed.

(** A call on a swapchain image or a render pass adds itself to the
    swapchain trace. *)
Lemma call_then {B} (c : XrCall) (k : XrResponse -> M B) (w : World) r :
  isSwapchainAction (Call c) = true ->
  bind (call c) k w = Some r ->
  exists a w1, swapchain_adds [Call c] w w1 /\ k a w1 = Some r.
Proof.
  intros Hc H. apply bind_Some in H. destruct H as (a & w1 & Hcall & Hk).
  exists a, w1. split; [| exact Hk ].
  inversion Hcall; subst. unfold swapchain_adds. cbn [log mgr].
  rewrite swapchainTrace_app.
  change (swapchainTrace [Call c])
    with (if isSwapchainAction (Call c) then [Call c] else []).
  rewrite Hc. repeat split.
Qed.

Lemma doRender_adds (target : XrSwapchainSubImage) (image : Z * Z)
    (w w' : World) (u : unit) :
  doRender target image w = Some (u, w') ->
  exists count,
    swapchain_adds [DoRender target image count] w w'
    /\ if m_multiviewRendering (mgr w)
       then exists sc, m_swapchains (mgr w) !! 0%nat = Some sc
                       /\ count = arraySize sc
       else count = 1.
Proof.
  intros H. unfold doRender in H. apply this_then in H.
  destruct (m_multiviewRendering (mgr w)).
  - destruct (m_swapchains (mgr w) !! 0%nat) as [sc |] eqn:Hsc;
      [| discriminate H ].
    apply ret_then in H. inversion H; subst.
    exists (arraySize sc). split; [| exists sc; split; reflexivity ].
    unfold swapchain_adds. cbn [log mgr].
    rewrite swapchainTrace_app. repeat split.
  - apply ret_then in H. inversion H; subst.
    exists 1. split; [| reflexivity ].
    unfold swapchain_adds. cbn [log mgr].
    rewrite swapchainTrace_app. repeat split.
Qed.

(** [updateProjectionLayerView] with a sub-image stores it in the view. *)
Lemma updateProjectionLayerView_stores (i : nat)
    (target : XrSwapchainSubImage) (w w' : World) (u : unit) :
  updateProjectionLayerView i (Some target) w = Some (u, w') ->
  swap_kept w w'
  /\ exists pv, m_projectionLayerViews (mgr w') !! i = Some pv
                /\ subImage pv = target.
Proof.
  intros H. split; [exact (k_updateProjectionLayerView _ _ _ _ _ H) |].
  unfold updateProjectionLayerView in H. apply this_then in H.
  destruct (m_projectionLayerViews (mgr w) !! i) as [pv |] eqn:Hpv;
    [| discriminate H ].
  destruct (m_views (mgr w) !! i) as [v |] eqn:Hv; [| discriminate H ].
  inversion H; subst. cbn [mgr m_projectionLayerViews set_m_projectionLayerViews].
  eexists. split.
  - apply list_lookup_insert_eq. eapply lookup_lt_Some, Hpv.
  - reflexivity.
Qed.

End PassFacts.

Import Effects.

(** Peels the first step off the computation in [H]; [Hacc] keeps what
    the swapchain trace has grown by since the start. *)
Ltac pass_peel H Hacc :=
  lazymatch type of H with
  | bind this _ _ = _ =>
      apply PassFacts.this_then in H; cbv beta in H;
      let Hs := fresh "Hs" in
      let Hm := fresh "Hm" in
      pose proof Hacc as (_ & Hs & Hm);
      rewrite ?Hs, ?Hm in H; clear Hs Hm
  | bind _ _ _ = _ =>
      apply SwapchainFacts.kept_then in H;
      [ let a := fresh "a" in
        let w1 := fresh "w" in
        let Hs := fresh "Hs" in
        destruct H as (a & w1 & Hs & H);
        apply (PassFacts.adds_kept _ _ _ _ Hacc) in Hs;
        clear Hacc; rename Hs into Hacc; cbv beta in H
      | solve [ repeat first
                  [ apply SwapchainFacts.k_updateAppSpace
                  | apply SwapchainFacts.k_checkOrigin
                  | apply SwapchainFacts.k_advanceAnimationDriver
                  | apply SwapchainFacts.k_updateProjectionLayerView
                  | SwapchainFacts.k_step ] ] ]
  end.

(** Peels a call on a swapchain image off the computation in [H]. *)
Ltac pass_call H Hacc :=
  lazymatch type of H with
  | bind (call _) _ _ = _ => idtac
  end;
  apply PassFacts.call_then in H; [| reflexivity ];
  let a := fresh "a" in
  let w1 := fresh "w" in
  let Hs := fresh "Hs" in
  destruct H as (a & w1 & Hs & H);
  apply (PassFacts.adds_trans _ _ _ _ _ Hacc) in Hs;
  clear Hacc; rename Hs into Hacc; cbv beta in H.

(** X29. A completed [renderLayer] that returns true has added to the
    calls on swapchain images and the render passes exactly this, in this
    order: with multiview rendering, one pass over the first swapchain
    (an image is acquired, waited for, rendered into with the swapchain's
    array size, and released); otherwise one such pass for every
    swapchain, in the order of [m_swapchains], each rendering one layer
    into a sub-image of that swapchain with array index 0. Every image
    acquired is released before the next is acquired. *)
Theorem renderLayer_passes_over_the_swapchains
    (checkXrResult : XrResult -> bool) (w w' : World)
    (predictedDisplayTime predictedDisplayPeriod layerFlags : Z)
    (layer : XrCompositionLayer) :
  renderLayer checkXrResult predictedDisplayTime predictedDisplayPeriod
    layerFlags w = Some ((true, layer), w') ->
  exists passes,
    swapchainTrace (log w') = swapchainTrace (log w) ++ concat passes
    /\ if m_multiviewRendering (mgr w)
       then exists sc imageIndex target,
              m_swapchains (mgr w) !! 0%nat = Some sc
              /\ passes = [pass sc imageIndex target (arraySize sc)]
       else Forall2
              (fun sc ps =>
                 exists imageIndex target,
                   ps = pass sc imageIndex target 1
                   /\ swapchain target = handle sc
                   /\ imageArrayIndex target = 0)
              (m_swapchains (mgr w)) passes.
Proof.
  intros H.
  pose proof (PassFacts.adds_refl w) as Hacc.
  unfold renderLayer in H.
  repeat pass_peel H Hacc.
  match type of H with
  | context [XR_UNQUALIFIED_SUCCESS ?res] =>
      destruct (XR_UNQUALIFIED_SUCCESS res);
        [| inversion H ]
  end.
  do 3 pass_peel H Hacc.
  destruct (m_multiviewRendering (mgr w)) eqn:Hmv.
  - (* one pass renders all views into the image array *)
    destruct (m_swapchains (mgr w) !! 0%nat) as [sc |] eqn:Hsc0;
      [| discriminate H ].
    repeat pass_peel H Hacc.
    rewrite Hmv, Hsc0 in H.
    apply bind_Some in H. destruct H as ([] & wr & Hrender & H).
    apply PassFacts.this_then in H. inversion H; subst wr; clear H.
    do 2 pass_call Hrender Hacc.
    repeat pass_peel Hrender Hacc.
    apply bind_Some in Hrender. destruct Hrender as ([] & wd & Hdo & Hrender).
    destruct (m_projectionLayerViews _ !! 0%nat) as [pv0 |];
      [| discriminate Hdo ].
    apply PassFacts.doRender_adds in Hdo.
    destruct Hdo as (count & Hadd & Hcount).
    pose proof Hacc as (_ & Hs & Hm).
    rewrite Hm, Hmv, Hs, Hsc0 in Hcount.
    destruct Hcount as (sc' & Hsc' & ->). inversion Hsc'; subst sc'.
    apply (PassFacts.adds_trans _ _ _ _ _ Hacc) in Hadd. clear Hacc Hs Hm.
    pass_call Hrender Hadd.
    inversion Hrender; subst.
    eexists [pass sc _ _ (arraySize sc)]. split.
    + destruct Hadd as (Htrace & _). rewrite Htrace. reflexivity.
    + exists sc. do 2 eexists. split; reflexivity.
  - (* every view has a swapchain of its own *)
    apply bind_Some in H. destruct H as ([] & wc & Hassert & H).
    unfold Q_ASSERT in Hassert.
    destruct (_ =? _) eqn:Hcount in Hassert; [| discriminate Hassert ].
    inversion Hassert; subst wc; clear Hassert.
    repeat pass_peel H Hacc.
    rewrite Hmv in H.
    apply bind_Some in H. destruct H as ([] & wr & Hrender & H).
    apply PassFacts.this_then in H. inversion H; subst wr; clear H.
    match type of Hrender with
    | forM_ _ ?body _ = _ => set (renderView := body) in Hrender
    end.
    assert (Hview :
              forall i w1 w2 u,
                m_multiviewRendering (mgr w1) = false ->
                renderView i w1 = Some (u, w2) ->
                exists sc imageIndex target,
                  m_swapchains (mgr w1) !! i = Some sc
                  /\ swapchain_adds (pass sc imageIndex target 1) w1 w2
                  /\ swapchain target = handle sc
                  /\ imageArrayIndex target = 0).
    { clear. intros i w1 w2 u Hmv Hv. unfold renderView in Hv.
      apply PassFacts.this_then in Hv.
      destruct (m_swapchains (mgr w1) !! i) as [sc |] eqn:Hsc;
        [| discriminate Hv ].
      destruct (m_projectionLayerViews (mgr w1) !! i) as [pv |];
        [| discriminate Hv ].
      pose proof (PassFacts.adds_refl w1) as Hacc.
      do 2 pass_call Hv Hacc.
      apply bind_Some in Hv. destruct Hv as ([] & wu & Hupd & Hv).
      apply PassFacts.updateProjectionLayerView_stores in Hupd.
      destruct Hupd as (Hkept & pv' & Hpv' & Htarget).
      apply (PassFacts.adds_kept _ _ _ _ Hacc) in Hkept. clear Hacc.
      apply PassFacts.this_then in Hv. rewrite Hpv' in Hv.
      apply bind_Some in Hv. destruct Hv as ([] & wd & Hdo & Hv).
      pass_peel Hdo Hkept.
      apply PassFacts.doRender_adds in Hdo.
      destruct Hdo as (count & Hadd & Hcount).
      pose proof Hkept as (_ & _ & Hm). rewrite Hm, Hmv in Hcount.
      subst count.
      apply (PassFacts.adds_trans _ _ _ _ _ Hkept) in Hadd. clear Hkept Hm.
      pass_call Hv Hadd.
      inversion Hv; subst.
      exists sc. do 2 eexists. split; [reflexivity |].
      split; [exact Hadd |]. rewrite Htarget. split; reflexivity. }
    assert (Hloop :
              forall n base w1 w2,
                m_multiviewRendering (mgr w1) = false ->
                forM_ (seq base n) renderView w1 = Some (tt, w2) ->
                exists passes,
                  swapchain_adds (concat passes) w1 w2
                  /\ Forall2
                       (fun sc ps =>
                          exists imageIndex target,
                            ps = pass sc imageIndex target 1
                            /\ swapchain target = handle sc
                            /\ imageArrayIndex target = 0)
                       (take n (drop base (m_swapchains (mgr w1)))) passes).
    { clear - Hview. induction n as [| n IH]; intros base w1 w2 Hmv Hrun.
      - inversion Hrun; subst. exists []. split.
        + apply PassFacts.adds_refl.
        + constructor.
      - cbn [seq forM_] in Hrun.
        apply bind_Some in Hrun. destruct Hrun as (u & wm & Hone & Hrest).
        destruct (Hview _ _ _ _ Hmv Hone)
          as (sc & imageIndex & target & Hsc & Hadd & Hsw & Hidx).
        pose proof Hadd as (_ & Hs & Hm).
        destruct (IH (S base) wm w2) as (passes & Hadds & Hall);
          [ congruence | exact Hrest |].
        exists (pass sc imageIndex target 1 :: passes). split.
        + exact (PassFacts.adds_trans _ _ _ _ _ Hadd Hadds).
        + rewrite (drop_S _ _ _ Hsc). cbn [take]. constructor.
          * exists imageIndex, target. repeat split; assumption.
          * rewrite <- Hs. exact Hall. }
    match type of Hrender with
    | forM_ _ _ ?wa = _ =>
        assert (Hmva : m_multiviewRendering (mgr wa) = false)
          by (destruct Hacc as (_ & _ & Hm); congruence)
    end.
    destruct (Hloop _ _ _ _ Hmva Hrender) as (passes & Hadds & Hall).
    exists passes. split.
    + destruct (PassFacts.adds_trans _ _ _ _ _ Hacc Hadds) as (Htrace & _).
      exact Htrace.
    + destruct Hacc as (_ & Hs & _). rewrite Hs in Hall.
      apply Z.eqb_eq in Hcount. rewrite Hcount, Nat2Z.id in Hall.
      rewrite drop_0, firstn_all in Hall. exact Hall.
Qed.

Lemma renderLayer_passes_over_the_swapchains_witness :
  exists w' layer passes,
    renderLayer Examples.checkXrResult 5000000000 11111111 7
      Examples.firstFrame = Some ((true, layer), w')
    /\ swapchainTrace (log w') = concat passes
    /\ length passes = 2%nat.
Proof.
  assert (E : exists layer w',
             renderLayer Examples.checkXrResult 5000000000 11111111 7
               Examples.firstFrame = Some ((true, layer), w'))
    by (vm_compute; eauto).
  destruct E as (layer & w' & E).
  destruct (renderLayer_passes_over_the_swapchains Examples.checkXrResult
              Examples.firstFrame w' 5000000000 11111111 7 layer E)
    as (passes & Htrace & Hall).
  exists w', layer, passes. split; [exact E |]. split; [exact Htrace |].
  symmetry.
  exact (Forall2_length _ _ _
           (Hall : Forall2 _ (m_swapchains (mgr Examples.firstFrame))
                     passes)).
Defined.
